(** * The generation-orchestration pipeline of YnnAI_Model_V1.1

    A shallow embedding of the parts of [src/utils/leonardoService.ts] and
    [openaiService.ts] that the specification talks about:

    - JavaScript numbers, as IEEE 754 binary64 values ([spec_float] of the
      standard library with [prec = 53] and [emax = 1024]);
    - the output-size computation shared by [processImageWithAdvancedFeatures]
      and [processWithImageToImageAndStyle];
    - the element-weight snapping of [safelyAddElements];
    - [fetchWithRetry], [waitForGenerationCompletion],
      [waitForGenerationResultUrl] and [uploadImage], over an explicit world
      (the scripted network, the requests made, the timers awaited, the log);
    - [separateChineseAndEnglishText], over strings of UTF-16 code units.

    Definitions come first, the theorems about them after. *)

From Stdlib Require Import ZArith List Bool Lia String Ascii DecimalString.
From Stdlib Require Import Reals Lra Psatz Zpower.
From Stdlib Require Import Floats.SpecFloat.
Import ListNotations.

Local Open Scope Z_scope.

(* ================================================================= *)
(** ** JavaScript numbers *)

(** A JavaScript [number] is a binary64 floating-point value.  The arithmetic
    is the standard library's executable specification of IEEE 754
    (round to nearest, ties to even). *)
Module Number.

Definition prec : Z := 53.
Definition emax : Z := 1024.

Definition number : Set := spec_float.

(** An integer literal, or an integer produced by [Math.floor] and the like. *)
Definition ofZ (z : Z) : number := binary_normalize prec emax z 0 false.

(** The number nearest to the fraction [n / d]: how a decimal literal such
    as [0.75] (3/4) or the text printed by [toFixed] is read back. *)
Definition ratio (s : bool) (n d : positive) : number :=
  let '(q, e, l) := SFdiv_core_binary prec emax (Zpos n) 0 (Zpos d) 0 in
  binary_round_aux prec emax s q e l.

Definition add : number -> number -> number := SFadd prec emax.
Definition sub : number -> number -> number := SFsub prec emax.
Definition mul : number -> number -> number := SFmul prec emax.
Definition div : number -> number -> number := SFdiv prec emax.

(** [x < y], [x <= y], [x > y], [x >= y]: all false when a side is NaN. *)
Definition lt (x y : number) : bool := SFltb x y.
Definition le (x y : number) : bool := SFleb x y.
Definition gt (x y : number) : bool := SFltb y x.
Definition ge (x y : number) : bool := SFleb y x.

(** Truthiness of a number: everything but [0], [-0] and [NaN]. *)
Definition truthy (x : number) : bool :=
  match x with
  | S754_zero _ | S754_nan => false
  | _ => true
  end.

Definition signed (s : bool) (m : positive) : Z :=
  if s then Zneg m else Zpos m.

(** [Math.floor]. *)
Definition Math_floor (x : number) : number :=
  match x with
  | S754_finite s m e =>
      if 0 <=? e then x else ofZ (signed s m / 2 ^ (- e))
  | _ => x
  end.

(** [Math.round]: the nearest integer, a tie going towards plus infinity;
    [-0] for the values in [[-0.5, 0)]. *)
Definition Math_round (x : number) : number :=
  match x with
  | S754_finite s m e =>
      if 0 <=? e then x
      else
        let z := (2 * signed s m + 2 ^ (- e)) / 2 ^ (1 - e) in
        if (z =? 0) && s then S754_zero true else ofZ z
  | _ => x
  end.

(** [Math.max] and [Math.min]: NaN when a side is NaN, and [-0 < +0]. *)
Definition Math_max (x y : number) : number :=
  match SFcompare x y with
  | None => S754_nan
  | Some Lt => y
  | Some Gt => x
  | Some Eq => match x with S754_zero true => y | _ => x end
  end.

Definition Math_min (x y : number) : number :=
  match SFcompare x y with
  | None => S754_nan
  | Some Lt => x
  | Some Gt => y
  | Some Eq => match x with S754_zero false => y | _ => x end
  end.

Definition Math_sqrt : number -> number := SFsqrt prec emax.

(** [Number(x.toFixed(2))].  [toFixed(2)] prints the integer [n] nearest to
    [|x| * 100] (the larger one on a tie) as [n / 100] with the sign of [x];
    [Number] reads that text back as the nearest binary64 value.  From
    [1e21] on [toFixed] prints [x] itself. *)
Definition Number_toFixed2 (x : number) : number :=
  match x with
  | S754_zero _ => S754_zero false
  | S754_finite s m e =>
      if 0 <=? e then
        if 10 ^ 21 <=? Zpos m * 2 ^ e then x
        else ratio s (m * 100 * Z.to_pos (2 ^ e)) 100
      else
        match (2 * (Zpos m * 100) + 2 ^ (- e)) / 2 ^ (1 - e) with
        | Zpos n => if 10 ^ 23 <=? Zpos n then x else ratio s n 100
        | _ => S754_zero s
        end
  | _ => x
  end.

End Number.

Import Number.

(* ================================================================= *)
(** ** The value of a number *)

(** What a binary64 number stands for, as a real number, and the vocabulary
    the rounding lemmas are stated in. *)
Module Binary64.

Definition pow2 (e : Z) : R := powerRZ 2 e.

(** The real number a finite [x] denotes; [0] for the others. *)
Definition valueOf (x : number) : R :=
  match x with
  | S754_finite s m e => IZR (signed s m) * pow2 e
  | _ => 0%R
  end.

Definition isFinite (x : number) : bool :=
  match x with
  | S754_finite _ _ _ | S754_zero _ => true
  | _ => false
  end.

Definition fexp64 (e : Z) : Z := fexp prec emax e.
Definition emin64 : Z := emin prec emax.

(** A positive finite number in canonical form. *)
Definition finitePos (x : number) : Prop :=
  exists m e, x = S754_finite false m e /\ bounded prec emax m e = true.

(** [+0] or a positive finite number. *)
Definition zeroOrPos (x : number) : Prop :=
  x = S754_zero false \/ finitePos x.

(** [x] is [+Infinity], or finite and at least [v]. *)
Definition atLeast (x : number) (v : R) : Prop :=
  x = S754_infinity false \/ (finitePos x /\ (v <= valueOf x)%R).

(** [x] is [+0] or positive finite, and at most [v]. *)
Definition atMost (x : number) (v : R) : Prop :=
  zeroOrPos x /\ (valueOf x <= v)%R.

(** The real [y] lies where the integer [m] and the location [l] say. *)
Definition located (m : Z) (l : location) (y : R) : Prop :=
  match l with
  | loc_Exact => y = IZR m
  | loc_Inexact Lt => (IZR m < y < IZR m + / 2)%R
  | loc_Inexact Eq => y = (IZR m + / 2)%R
  | loc_Inexact Gt => (IZR m + / 2 < y < IZR m + 1)%R
  end.

Definition shr_inv (r : shr_record) (y : R) : Prop :=
  0 <= shr_m r /\ located (shr_m r) (loc_of_shr_record r) y.

(** The result of rounding: the mantissa [m1] at the exponent [e1]. *)
Definition pack (s : bool) (m1 e1 : Z) : number :=
  match m1 with
  | Zpos p =>
      if m1 =? 2 ^ prec then
        if e1 + 1 <=? emax - prec
        then S754_finite s (Z.to_pos (2 ^ (prec - 1))) (e1 + 1)
        else S754_infinity s
      else
        if e1 <=? emax - prec then S754_finite s p e1 else S754_infinity s
  | _ => S754_zero s
  end.

Definition sameNumber (x y : number) : bool :=
  match x, y with
  | S754_zero s, S754_zero t => Bool.eqb s t
  | S754_infinity s, S754_infinity t => Bool.eqb s t
  | S754_nan, S754_nan => true
  | S754_finite s m e, S754_finite t n f =>
      Bool.eqb s t && Pos.eqb m n && Z.eqb e f
  | _, _ => false
  end.

Fixpoint distinct (l : list number) : bool :=
  match l with
  | [] => true
  | x :: rest => negb (existsb (sameNumber x) rest) && distinct rest
  end.

(** [f] holds of [lo], [lo + 1], ..., [lo + n - 1]. *)
Definition holdsFrom (lo : Z) (n : nat) (f : Z -> bool) : bool :=
  forallb (fun i => f (lo + Z.of_nat i)) (seq 0 n).

(** The number [x] is the integer [z], exactly. *)
Definition isInteger (x : number) (z : Z) : bool :=
  match x with
  | S754_finite false m e => (e <=? 0) && (Zpos m =? z * 2 ^ (- e))
  | _ => false
  end.

(** The number [x] is the fraction [n / d], exactly. *)
Definition isRatio (x : number) (n d : Z) : bool :=
  match x with
  | S754_finite false m e =>
      (e <=? 0) && (0 <? d) && (Zpos m * d =? n * 2 ^ (- e))
  | _ => false
  end.

End Binary64.

Import Binary64.

(* ================================================================= *)
(** ** Output dimensions *)

(** The size computation of [processImageWithAdvancedFeatures] (lines 517-641)
    and of [processWithImageToImageAndStyle] (lines 1073-1197); the two blocks
    are the same text but for the guard in front of them. *)
Module Dimensions.

Definition minDimension : number := ofZ 512.
Definition maxDimension : number := ofZ 768.
Definition pixelLimit : number := ofZ 589824.

(** [Math.floor(x / 8) * 8], the expression every rounding step uses. *)
Definition floor8 (x : number) : number :=
  mul (Math_floor (div x (ofZ 8))) (ofZ 8).

(** The body of the [if]: from the given width and height to
    [(outputWidth, outputHeight)]. *)
Definition fitDimensions (width height : number) : number * number :=
  let aspectRatio := div width height in
  let '(outputWidth, outputHeight) :=
    if ge aspectRatio (ofZ 1) then
      let outputHeight := Math_max minDimension (floor8 minDimension) in
      let outputWidth := floor8 (mul outputHeight aspectRatio) in
      if gt outputWidth maxDimension then
        let outputWidth := floor8 maxDimension in
        let outputHeight := floor8 (div outputWidth aspectRatio) in
        if lt outputHeight minDimension
        then (outputWidth, floor8 minDimension)
        else (outputWidth, outputHeight)
      else (outputWidth, outputHeight)
    else
      let outputWidth := Math_max minDimension (floor8 minDimension) in
      let outputHeight := floor8 (div outputWidth aspectRatio) in
      if gt outputHeight maxDimension then
        let outputHeight := floor8 maxDimension in
        let outputWidth := floor8 (mul outputHeight aspectRatio) in
        if lt outputWidth minDimension
        then (floor8 minDimension, outputHeight)
        else (outputWidth, outputHeight)
      else (outputWidth, outputHeight) in
  let pixelCount := mul outputWidth outputHeight in
  if gt pixelCount pixelLimit then
    let scaleFactor := Math_sqrt (div pixelLimit pixelCount) in
    let outputWidth := floor8 (mul outputWidth scaleFactor) in
    let outputHeight := floor8 (mul outputHeight scaleFactor) in
    let outputWidth :=
      if lt outputWidth minDimension then floor8 minDimension else outputWidth in
    let outputHeight :=
      if lt outputHeight minDimension then floor8 minDimension else outputHeight in
    (outputWidth, outputHeight)
  else (outputWidth, outputHeight).

(** [processWithImageToImageAndStyle]: [dimensions] may be [null]; the
    block runs when [dimensions.width > 0 && dimensions.height > 0]. *)
Definition styleOutputSize (dimensions : option (number * number))
  : number * number :=
  match dimensions with
  | Some (width, height) =>
      if gt width (ofZ 0) && gt height (ofZ 0)
      then fitDimensions width height
      else (ofZ 512, ofZ 512)
  | None => (ofZ 512, ofZ 512)
  end.

(** [processImageWithAdvancedFeatures]: the block runs when
    [advancedOptions?.width && advancedOptions.height] is truthy. *)
Definition advancedOutputSize (width height : option number)
  : number * number :=
  match width, height with
  | Some w, Some h =>
      if truthy w && truthy h then fitDimensions w h else (ofZ 512, ofZ 512)
  | _, _ => (ofZ 512, ofZ 512)
  end.

(** What the size computation relies on, for the multiple [8 * j]. *)
Definition gridCheck (j : Z) : bool :=
  sameNumber (mul (ofZ j) (ofZ 8)) (ofZ (8 * j))
  && Bool.eqb (lt (ofZ (8 * j)) minDimension) (j <? 64)
  && negb (gt (ofZ (8 * j)) maxDimension)
  && ((j <? 64)
      || (isInteger (ofZ (8 * j)) (8 * j)
          && negb (gt (mul (ofZ (8 * j)) (ofZ 512)) pixelLimit)
          && negb (gt (mul (ofZ 512) (ofZ (8 * j))) pixelLimit)
          && negb (gt (mul (ofZ 768) (ofZ (8 * j))) pixelLimit)
          && negb (gt (mul (ofZ (8 * j)) (ofZ 768)) pixelLimit))).

(** The size computation gives [w x h] back when given [w x h]. *)
Definition keepsSize (w h : Z) : bool :=
  let '(outputWidth, outputHeight) := fitDimensions (ofZ w) (ofZ h) in
  sameNumber outputWidth (ofZ w) && sameNumber outputHeight (ofZ h).

End Dimensions.

(* ================================================================= *)
(** ** Style elements *)

Module Elements.

Local Open Scope string_scope.

(** [MODEL_IDS]: each identifier is read from the environment, with a
    default; the model takes the three values as they are after that. *)
Record ModelIds := {
  ALBEDO_BASE_XL : string;
  ANIME_XL : string;
  KINO_XL : string
}.

Record Compatible := {
  sdVersions : list string;
  models : option (list string)
}.

Record LeonardoElement := {
  akUUID : string;
  name : string;
  description : string;
  weight : number;
  minWeight : option number;
  maxWeight : option number;
  compatible : option Compatible
}.

(** The defaults of [MODEL_IDS]. *)
Definition defaultModelIds : ModelIds :=
  {| ALBEDO_BASE_XL := "2067ae52-33fd-4a82-bb92-c2c55e7d2786";
     ANIME_XL := "e71a1c2f-4f80-4800-934f-2c68979d8cc8";
     KINO_XL := "aa77f04e-3eec-4034-9c07-d0f619684628" |}.

(** The one entry of the list [getAvailableElements] returns. *)
Definition cuteEmotes (ids : ModelIds) : LeonardoElement :=
  {| akUUID := "01b6184e-3905-4dc7-9ec6-4f09982536d5";
     name := "Cute Emotes";
     description := "添加可爱的表情元素到图像中";
     weight := ratio false 1 2;
     minWeight := Some (ratio false 1 10);
     maxWeight := Some (ofZ 2);
     compatible := Some {| sdVersions := ["v1_5"; "SDXL"];
                           models := Some [ANIME_XL ids] |} |}.

Definition getAvailableElements (ids : ModelIds) : list LeonardoElement :=
  [cuteEmotes ids].

(** [const minWeight = isLeonardoProcess ? 0.75 : 0.5]. *)
Definition modeMinWeight (isLeonardoProcess : bool) : number :=
  if isLeonardoProcess then ratio false 3 4 else ratio false 1 2.

(** [const maxWeight = element.maxWeight || 1.5]. *)
Definition elementMaxWeight (element : LeonardoElement) : number :=
  match maxWeight element with
  | Some w => if truthy w then w else ratio false 3 2
  | None => ratio false 3 2
  end.

Definition stepSize (minWeight maxWeight : number) : number :=
  div (sub maxWeight minWeight) (ofZ 50).

(** [Number((minWeight + (steps * stepSize)).toFixed(2))]. *)
Definition normalizedWeight (minWeight maxWeight steps : number) : number :=
  Number_toFixed2 (add minWeight (mul steps (stepSize minWeight maxWeight))).

(** The weight pushed for a compatible element (lines 1773-1787). *)
Definition safeWeight (isLeonardoProcess : bool) (element : LeonardoElement)
    (weight : number) : number :=
  let minWeight := modeMinWeight isLeonardoProcess in
  let maxWeight := elementMaxWeight element in
  let steps := Math_round (div (sub weight minWeight) (stepSize minWeight maxWeight)) in
  Math_max minWeight
    (Math_min maxWeight (normalizedWeight minWeight maxWeight steps)).

(** [!element.compatible?.models?.length ||
     element.compatible.models.includes(modelId)]. *)
Definition isCompatible (element : LeonardoElement) (modelId : string) : bool :=
  match compatible element with
  | Some {| models := Some (m :: ms) |} =>
      existsb (String.eqb modelId) (m :: ms)
  | _ => true
  end.

Record PayloadElement := { pe_akUUID : string; pe_weight : number }.

(** The part of the request body [safelyAddElements] writes to. *)
Record Payload := {
  modelId : string;
  elements : option (list PayloadElement)
}.

Definition findElement (available : list LeonardoElement) (elementId : string)
  : option LeonardoElement :=
  find (fun e => String.eqb (akUUID e) elementId) available.

(** The [for] loop: one entry per selected element that is known and
    compatible, in the order of selection. *)
Fixpoint compatibleElements (available : list LeonardoElement)
    (selected : list (string * number)) (model : string)
    (isLeonardoProcess : bool) : list PayloadElement :=
  match selected with
  | [] => []
  | (elementId, w) :: rest =>
      let tail := compatibleElements available rest model isLeonardoProcess in
      match findElement available elementId with
      | None => tail
      | Some element =>
          if isCompatible element model
          then {| pe_akUUID := akUUID element;
                  pe_weight := safeWeight isLeonardoProcess element w |} :: tail
          else tail
      end
  end.

(** [safelyAddElements]; the mutated [payload] is returned. *)
Definition safelyAddElements (ids : ModelIds) (payload : Payload)
    (selected : list (string * number)) (model : string)
    (isLeonardoProcess : bool) : Payload :=
  match selected with
  | [] => payload
  | _ =>
      match compatibleElements (getAvailableElements ids) selected model
              isLeonardoProcess with
      | [] => payload
      | es => {| modelId := modelId payload; elements := Some es |}
      end
  end.

(** The weight that step [k] snaps to. *)
Definition snappedWeight (minWeight maxWeight : number) (k : Z) : number :=
  Math_max minWeight
    (Math_min maxWeight (normalizedWeight minWeight maxWeight (ofZ k))).

(** The snapped weights of the steps 0 to 50. *)
Definition allowedWeights (minWeight maxWeight : number) : list number :=
  map (fun k => snappedWeight minWeight maxWeight (Z.of_nat k)) (seq 0 51).

Definition weightCheck (minWeight maxWeight : number) (k : Z) : bool :=
  le minWeight (snappedWeight minWeight maxWeight k)
  && le (snappedWeight minWeight maxWeight k) maxWeight.

End Elements.

(* ================================================================= *)
(** ** The world the service runs in *)

Module Http.

Local Open Scope string_scope.

(** The endpoints the service calls. *)
Inductive Url :=
| GenerationsUrl                      (* POST {base}/generations *)
| GenerationUrl (generationId : string) (* GET {base}/generations/{id} *)
| InitImageUrl                        (* POST {base}/init-image *)
| ElementsUrl.                        (* GET {base}/elements *)

Inductive Status := COMPLETE | FAILED | PENDING | OtherStatus (s : string).

(** An entry of [generated_images]; an absent field is the empty string,
    which is as falsy as [undefined]. *)
Record GeneratedImage := { id : string; url : string }.

Record Generation := {
  status : Status;
  generated_images : list GeneratedImage
}.

Record UploadInitImage := {
  upload_id : string;
  upload_url : string;
  upload_fields : string
}.

(** The fields of a JSON response body the service looks at. *)
Record Json := {
  generations_by_pk : option Generation;
  uploadInitImage : option UploadInitImage
}.

(** A response; [body = None] when reading it as a JSON object throws. *)
Record Response := {
  http_status : Z;
  body : option Json
}.

(** [response.ok]. *)
Definition ok (r : Response) : bool :=
  ((200 <=? http_status r) && (http_status r <=? 299))%Z.

(** What the service throws and catches; every one is an [Error]. *)
Inductive JsError :=
| AuthError (st : Z)          (* new Error(`认证失败: ${response.status}`) *)
| HttpStatusError (st : Z)    (* new Error(`HTTP error! status: ${response.status}`) *)
| MaxRetriesError             (* new Error('Maximum retries reached') *)
| Raised (msg : string).      (* thrown by fetch, response.json() or the browser *)

Definition showZ (z : Z) : string := NilZero.string_of_int (Z.to_int z).

(** [error.message]. *)
Definition message (e : JsError) : string :=
  match e with
  | AuthError st => "认证失败: " ++ showZ st
  | HttpStatusError st => "HTTP error! status: " ++ showZ st
  | MaxRetriesError => "Maximum retries reached"
  | Raised msg => msg
  end.

Inductive FetchOutcome :=
| Resolves (r : Response)
| Rejects (e : JsError).

Record Blob := { blob_type : string; blob_size : nat }.

Inductive XhrOutcome :=
| XhrDone (st : Z)         (* readyState 4 with this status *)
| XhrError                 (* onerror fires *)
| XhrThrows (e : JsError). (* open or send throws *)

(** What lies outside the program: the remote services and the browser. *)
Record Browser := {
  network : nat -> FetchOutcome;      (* what the n-th HTTP fetch does *)
  transfer : nat -> XhrOutcome;       (* what the n-th XMLHttpRequest does *)
  blobOfDataUrl : string -> option Blob; (* fetch(dataUrl), then blob() *)
  atob : string -> option string;     (* None: InvalidCharacterError *)
  JSON_parse : string -> bool         (* false: SyntaxError *)
}.

Inductive Level := Debug | Info | Warn | Error.

(** The state threaded through an asynchronous function; the three lists
    have the most recent entry first. *)
Record World := {
  browser : Browser;
  requests : list Url;           (* the HTTP fetches made *)
  uploads : list string;         (* the XMLHttpRequests sent, by target *)
  timers : list number;          (* the setTimeout delays awaited *)
  logged : list (Level * string) (* the logger calls *)
}.

Definition initial (b : Browser) : World :=
  {| browser := b; requests := []; uploads := []; timers := []; logged := [] |}.

(** How a function body ends. *)
Inductive Completion (A : Type) :=
| Normal (a : A)
| Throw (e : JsError).
Arguments Normal {A} a.
Arguments Throw {A} e.

(** An [async] computation. *)
Definition Async (A : Type) : Type := World -> Completion A * World.

Definition ret {A} (a : A) : Async A := fun w => (Normal a, w).

Definition throw {A} (e : JsError) : Async A := fun w => (Throw e, w).

Definition bind {A B} (m : Async A) (k : A -> Async B) : Async B :=
  fun w =>
    match m w with
    | (Normal a, w') => k a w'
    | (Throw e, w') => (Throw e, w')
    end.

(** [try { m } catch (error) { handler }]. *)
Definition try_catch {A} (m : Async A) (handler : JsError -> Async A) : Async A :=
  fun w =>
    match m w with
    | (Normal a, w') => (Normal a, w')
    | (Throw e, w') => handler e w'
    end.

Declare Scope async_scope.
Delimit Scope async_scope with async.
Notation "x <- m ;; k" := (bind m (fun x => k))
  (at level 61, m at next level, right associativity) : async_scope.
Notation "m ;; k" := (bind m (fun _ => k))
  (at level 61, right associativity) : async_scope.
Local Open Scope async_scope.

(** Reading the surroundings changes nothing. *)
Definition theBrowser : Async Browser := fun w => (Normal (browser w), w).

(** [await fetch(url, options)]. *)
Definition fetch (u : Url) : Async Response :=
  fun w =>
    let w' := {| browser := browser w; requests := u :: requests w;
                 uploads := uploads w; timers := timers w;
                 logged := logged w |} in
    match network (browser w) (List.length (requests w)) with
    | Resolves r => (Normal r, w')
    | Rejects e => (Throw e, w')
    end.

(** [await response.json()], the result then used as an object. *)
Definition json (r : Response) : Async Json :=
  match body r with
  | Some j => ret j
  | None => throw (Raised "Unexpected token in JSON")
  end.

(** [await new Promise(resolve => setTimeout(resolve, ms))]. *)
Definition sleep (ms : number) : Async unit :=
  fun w =>
    (Normal tt, {| browser := browser w; requests := requests w;
                   uploads := uploads w; timers := ms :: timers w;
                   logged := logged w |}).

Definition logger (l : Level) (msg : string) : Async unit :=
  fun w =>
    (Normal tt, {| browser := browser w; requests := requests w;
                   uploads := uploads w; timers := timers w;
                   logged := (l, msg) :: logged w |}).

(** One XMLHttpRequest POST wrapped in a promise (lines 1648-1676): the
    promise resolves whatever the status, and on [onerror] too. *)
Definition xhrPost (target : string) : Async unit :=
  fun w =>
    let w' := {| browser := browser w; requests := requests w;
                 uploads := target :: uploads w; timers := timers w;
                 logged := logged w |} in
    match transfer (browser w) (List.length (uploads w)) with
    | XhrDone st =>
        if ((200 <=? st) && (st <? 300))%Z
        then logger Info "S3上传成功" w'
        else logger Warn "S3上传响应状态码非200" w'
    | XhrError => logger Error "S3上传XMLHttpRequest错误" w'
    | XhrThrows e => (Throw e, w')
    end.

(** How one turn of a loop ends: with [return v], or by going round again. *)
Inductive Turn (A : Type) :=
| Return (v : A)
| Continue.
Arguments Return {A} v.
Arguments Continue {A}.

(** [fetchWithRetry], from turn [i] with [left] turns to go. *)
Fixpoint fetchWithRetry_from (u : Url) (retries : nat) (delay : number)
    (i left : nat) : Async Response :=
  match left with
  | O => throw MaxRetriesError
  | S left' =>
      turn <- try_catch
        (logger Debug "尝试请求" ;;
         response <- fetch u ;;
         if ok response then ret (Return response)
         else
           logger Error "请求失败:" ;;
           if ((http_status response =? 401) || (http_status response =? 403))%Z
           then throw (AuthError (http_status response))
           else if (http_status response =? 429)%Z
           then sleep (mul delay (ofZ 2)) ;; ret Continue
           else throw (HttpStatusError (http_status response)))
        (fun error =>
           logger Error "请求出错:" ;;
           if Nat.eqb i (retries - 1) then throw error
           else sleep delay ;; ret Continue) ;;
      match turn with
      | Return response => ret response
      | Continue => fetchWithRetry_from u retries delay (S i) left'
      end
  end.

Definition fetchWithRetry (u : Url) (retries : nat) (delay : number)
  : Async Response :=
  fetchWithRetry_from u retries delay 0 retries.

(** The defaults [retries = 3, delay = 1000]. *)
Definition fetchWithRetry_default (u : Url) : Async Response :=
  fetchWithRetry u 3 (ofZ 1000).

End Http.

(* ================================================================= *)
(** ** Waiting for a generation *)

Module Polling.

Import Http.
Local Open Scope string_scope.
Local Open Scope async_scope.

Record LeonardoResponse := {
  success : bool;
  imageUrl : option string;
  error : option string
}.

Definition succeeded (u : string) : LeonardoResponse :=
  {| success := true; imageUrl := Some u; error := None |}.

Definition failed (msg : string) : LeonardoResponse :=
  {| success := false; imageUrl := None; error := Some msg |}.

(** [options = { maxPolls: 40, initialDelay: 3000, maxDelay: 10000 }]. *)
Record PollOptions := {
  maxPolls : nat;
  initialDelay : number;
  maxDelay : number
}.

Definition defaultPollOptions : PollOptions :=
  {| maxPolls := 40; initialDelay := ofZ 3000; maxDelay := ofZ 10000 |}.

Definition truthyString (s : string) : bool := negb (String.eqb s "").

(** [generated_images?.[0]?.id], when truthy. *)
Definition firstImageId (g : Generation) : option string :=
  match generated_images g with
  | img :: _ => if truthyString (id img) then Some (id img) else None
  | [] => None
  end.

(** [generated_images?.[0]?.url], when truthy. *)
Definition firstImageUrl (g : Generation) : option string :=
  match generated_images g with
  | img :: _ => if truthyString (url img) then Some (url img) else None
  | [] => None
  end.

(** The [while] loop of [waitForGenerationCompletion], with [left] polls of
    the budget to go; a turn hands the delay on to the next one. *)
Fixpoint waitForGenerationCompletion_loop (generationId : string)
    (options : PollOptions) (left pollCount : nat) (currentDelay : number)
  : Async (option string) :=
  match left with
  | O => logger Error "等待生成超时" ;; ret None
  | S left' =>
      turn <- try_catch
        (response <- fetchWithRetry_default (GenerationUrl generationId) ;;
         data <- json response ;;
         after <-
           match generations_by_pk data with
           | Some g =>
               logger Debug "生成状态" ;;
               match status g with
               | COMPLETE =>
                   match firstImageId g with
                   | Some imageId =>
                       logger Info "生成完成" ;;
                       ret (Return (Some imageId), currentDelay)
                   | None => ret (Return None, currentDelay)
                   end
               | FAILED =>
                   logger Error "生成失败" ;;
                   ret (Return None, currentDelay)
               | PENDING =>
                   ret (Continue,
                        Math_min (mul currentDelay (ratio false 3 2))
                                 (maxDelay options))
               | OtherStatus _ =>
                   logger Warn "未知状态" ;;
                   ret (Continue, currentDelay)
               end
           | None => ret (Continue, currentDelay)
           end ;;
         match after with
         | (Return v, d) => ret (Return v, d)
         | (Continue, d) => sleep d ;; ret (Continue, d)
         end)
        (fun _ =>
           logger Error "轮询过程出错" ;;
           ret (Continue,
                Math_min (mul currentDelay (ofZ 2)) (maxDelay options))) ;;
      match turn with
      | (Return v, _) => ret v
      | (Continue, d) =>
          waitForGenerationCompletion_loop generationId options left'
            (S pollCount) d
      end
  end.

Definition waitForGenerationCompletion (generationId : string)
    (options : PollOptions) : Async (option string) :=
  waitForGenerationCompletion_loop generationId options (maxPolls options) 0
    (initialDelay options).

Definition POLL_INTERVAL : number := ofZ 3000.
Definition MAX_POLLS : nat := 40.

(** The [while] loop of [waitForGenerationResultUrl]. *)
Fixpoint waitForGenerationResultUrl_loop (generationId : string)
    (left pollCount : nat) : Async LeonardoResponse :=
  match left with
  | O => logger Error "等待生成超时" ;; ret (failed "等待生成超时")
  | S left' =>
      let pollCount := S pollCount in
      response <- fetch (GenerationUrl generationId) ;;
      if negb (ok response) then
        logger Error "获取生成状态失败" ;;
        sleep POLL_INTERVAL ;;
        waitForGenerationResultUrl_loop generationId left' pollCount
      else
        data <- json response ;;
        match generations_by_pk data with
        | Some g =>
            logger Debug "生成状态" ;;
            match status g with
            | COMPLETE =>
                match firstImageUrl g with
                | Some generatedImageUrl =>
                    logger Info "生成完成，获取到图像URL" ;;
                    ret (succeeded generatedImageUrl)
                | None =>
                    logger Error "生成完成但未找到图像URL" ;;
                    ret (failed "生成完成但未找到图像URL")
                end
            | FAILED =>
                logger Error "生成失败" ;;
                ret (failed "生成失败")
            | _ =>
                sleep POLL_INTERVAL ;;
                waitForGenerationResultUrl_loop generationId left' pollCount
            end
        | None =>
            sleep POLL_INTERVAL ;;
            waitForGenerationResultUrl_loop generationId left' pollCount
        end
  end.

(** [waitForGenerationResultUrl]: the loop inside the function's
    [try ... catch]. *)
Definition waitForGenerationResultUrl (generationId : string)
  : Async LeonardoResponse :=
  try_catch
    (waitForGenerationResultUrl_loop generationId MAX_POLLS 0)
    (fun e =>
       logger Error "等待生成过程中出错" ;;
       ret (failed (message e))).

End Polling.

(* ================================================================= *)
(** ** Uploading an image *)

Module Upload.

Import Http.
Local Open Scope string_scope.
Local Open Scope async_scope.

(** [s.split(',')]. *)
Fixpoint splitComma (s : string) : list string :=
  match s with
  | EmptyString => [""]
  | String c rest =>
      if Ascii.eqb c ","%char then "" :: splitComma rest
      else match splitComma rest with
           | part :: parts => String c part :: parts
           | [] => [String c ""]
           end
  end.

(** A line terminator, which [.] does not match. *)
Definition lineTerminator (c : ascii) : bool :=
  Ascii.eqb c "010"%char || Ascii.eqb c "013"%char.

(** The shortest prefix of [s] that [.*?] matches before a [;]. *)
Fixpoint upToSemicolon (s : string) : option string :=
  match s with
  | EmptyString => None
  | String c rest =>
      if Ascii.eqb c ";"%char then Some ""
      else if lineTerminator c then None
      else option_map (String c) (upToSemicolon rest)
  end.

(** [header.match(/:(.*?);/)], its first group. *)
Fixpoint mimeOfHeader (header : string) : option string :=
  match header with
  | EmptyString => None
  | String c rest =>
      if Ascii.eqb c ":"%char then
        match upToSemicolon rest with
        | Some m => Some m
        | None => mimeOfHeader rest
        end
      else mimeOfHeader rest
  end.

(** The [Blob] made of the image data, with the MIME type and the file
    extension as they stand afterwards (lines 1518-1588).  The log lines
    written on the way are left out: nothing that follows reads them. *)
Definition makeBlob (b : Browser) (imageBase64 : string)
  : option Blob * string * string :=
  if prefix "data:" imageBase64 then
    match blobOfDataUrl b imageBase64 with
    | Some blob =>
        let mimeType := blob_type blob in
        (Some blob, mimeType,
         if String.eqb mimeType "image/jpeg" then "jpg" else "png")
    | None =>
        match splitComma imageBase64 with
        | [header; base64] =>
            let '(mimeType, extension) :=
              match mimeOfHeader header with
              | Some m =>
                  if String.eqb m "" then ("image/png", "png")
                  else (m, if String.eqb m "image/jpeg" then "jpg" else "png")
              | None => ("image/png", "png")
              end in
            match atob b base64 with
            | Some bytes =>
                (Some {| blob_type := mimeType;
                         blob_size := String.length bytes |},
                 mimeType, extension)
            | None => (None, mimeType, extension)
            end
        | _ => (None, "image/png", "png")
        end
    end
  else
    match atob b imageBase64 with
    | Some bytes =>
        (Some {| blob_type := "image/png"; blob_size := String.length bytes |},
         "image/png", "png")
    | None => (None, "image/png", "png")
    end.

Definition truthyString (s : string) : bool := negb (String.eqb s "").

(** The second step (lines 1631-1684): the transfer to the pre-signed URL,
    inside its own [try ... catch]. *)
Definition transferToTarget (uploadId uploadUrl fieldsString : string)
  : Async (option string) :=
  try_catch
    (b <- theBrowser ;;
     (if JSON_parse b fieldsString then ret tt
      else throw (Raised "Unexpected token in JSON")) ;;
     logger Debug "开始使用XMLHttpRequest上传到S3" ;;
     xhrPost uploadUrl ;;
     logger Info "S3上传流程完成" ;;
     ret (Some uploadId))
    (fun _ =>
       logger Error "S3上传过程出错" ;;
       ret (Some uploadId)).

(** The first step (lines 1601-1629): the pre-signed target, or [None]
    when the function returns [null] there. *)
Definition requestUploadTarget : Async (option (string * string * string)) :=
  initResponse <- fetchWithRetry_default InitImageUrl ;;
  if negb (ok initResponse) then
    logger Error "获取预签名URL失败" ;; ret None
  else
    initData <- json initResponse ;;
    let '(uploadId, uploadUrl, fieldsString) :=
      match uploadInitImage initData with
      | Some u => (upload_id u, upload_url u, upload_fields u)
      | None => ("", "", "")
      end in
    if truthyString uploadId && truthyString uploadUrl
       && truthyString fieldsString
    then ret (Some (uploadId, uploadUrl, fieldsString))
    else logger Error "未获取到完整的上传信息" ;; ret None.

(** Lines 1512-1629: everything in front of the transfer.  [Some] target
    when the pre-signed upload target was obtained, [None] when the
    function returns [null] on the way. *)
Definition prepareUpload (imageBase64 : string)
  : Async (option (string * string * string)) :=
  if String.eqb imageBase64 "" then
    logger Error "图像数据为空" ;; ret None
  else
    logger Debug "处理图像数据" ;;
    b <- theBrowser ;;
    match makeBlob b imageBase64 with
    | (Some blob, _, _) =>
        if Nat.eqb (blob_size blob) 0 then
          logger Error "无法创建有效的Blob对象或Blob大小为0" ;; ret None
        else
          logger Debug "准备上传画布图像" ;;
          requestUploadTarget
    | (None, _, _) =>
        logger Error "无法创建有效的Blob对象或Blob大小为0" ;; ret None
    end.

(** [uploadImage]. *)
Definition uploadImage (imageBase64 : string) : Async (option string) :=
  try_catch
    (target <- prepareUpload imageBase64 ;;
     match target with
     | Some (uploadId, uploadUrl, fieldsString) =>
         transferToTarget uploadId uploadUrl fieldsString
     | None => ret None
     end)
    (fun _ => logger Error "上传画布图像过程中出错" ;; ret None).

End Upload.

(* ================================================================= *)
(** ** Splitting a bilingual description *)

(** [separateChineseAndEnglishText] of [openaiService.ts].  A JavaScript
    string is a sequence of UTF-16 code units. *)
Module Text.

Definition jsstring : Set := list Z.

(** An ASCII literal as a JavaScript string. *)
Definition js (s : string) : jsstring :=
  map (fun c => Z.of_N (N_of_ascii c)) (list_ascii_of_string s).

Definition NL : Z := 10.

(** The class [\s], which is also what [trim] removes. *)
Definition isSpace (c : Z) : bool :=
  ((9 <=? c) && (c <=? 13)) || (c =? 32) || (c =? 160) || (c =? 5760)
  || ((8192 <=? c) && (c <=? 8202)) || (c =? 8232) || (c =? 8233)
  || (c =? 8239) || (c =? 8287) || (c =? 12288) || (c =? 65279).

Definition isDigit (c : Z) : bool := (48 <=? c) && (c <=? 57).
Definition isUpper (c : Z) : bool := (65 <=? c) && (c <=? 90).
Definition isLower (c : Z) : bool := (97 <=? c) && (c <=? 122).

(** The character class of the English-line test: letters, white space,
    digits, and the marks . , ; : ( ) - ' ! ? and the double quote. *)
Definition isEnglishChar (c : Z) : bool :=
  isLower c || isUpper c || isSpace c || isDigit c
  || existsb (Z.eqb c) [46; 44; 59; 58; 40; 41; 45; 39; 34; 33; 63].

(** Under the flag [i] a pattern character matches itself and, when it is
    an ASCII letter, the same letter in the other case. *)
Definition upcase (c : Z) : Z := if isLower c then c - 32 else c.
Definition eqIgnoreCase (p c : Z) : bool := upcase p =? upcase c.

(** Does [s] start with the literal [p], case ignored? *)
Fixpoint startsWithIgnoreCase (p s : jsstring) : bool :=
  match p, s with
  | [], _ => true
  | _ :: _, [] => false
  | a :: p', c :: s' => eqIgnoreCase a c && startsWithIgnoreCase p' s'
  end.

Definition chineseMarker : jsstring := js "[Chinese]".
Definition englishMarker : jsstring := js "[English]".

(** What follows the leftmost occurrence of the marker [p] in [s]. *)
Fixpoint afterMarker (p s : jsstring) : option jsstring :=
  if startsWithIgnoreCase p s then Some (skipn (List.length p) s)
  else match s with
       | [] => None
       | _ :: s' => afterMarker p s'
       end.

(** The lazy group [([\s\S]*?)] in front of [(?=\[English\]|$)]: the text
    up to the next English marker, or all of it. *)
Fixpoint upToEnglishMarker (s : jsstring) : jsstring :=
  if startsWithIgnoreCase englishMarker s then []
  else match s with
       | [] => []
       | c :: s' => c :: upToEnglishMarker s'
       end.

(** Group 1 of [text.match(/\[Chinese\]([\s\S]*?)(?=\[English\]|$)/i)]. *)
Definition chineseMatch (text : jsstring) : option jsstring :=
  option_map upToEnglishMarker (afterMarker chineseMarker text).

(** Group 1 of [text.match(/\[English\]([\s\S]*?)$/i)]. *)
Definition englishMatch (text : jsstring) : option jsstring :=
  afterMarker englishMarker text.

Fixpoint trimStart (s : jsstring) : jsstring :=
  match s with
  | c :: s' => if isSpace c then trimStart s' else s
  | [] => []
  end.

Definition trim (s : jsstring) : jsstring :=
  rev (trimStart (rev (trimStart s))).

(** The length of the longest prefix of [s] that [\s*\n] matches. *)
Fixpoint spacesThenNewline (s : jsstring) : option nat :=
  match s with
  | [] => None
  | c :: s' =>
      if isSpace c then
        match spacesThenNewline s' with
        | Some n => Some (S n)
        | None => if c =? NL then Some 1%nat else None
        end
      else None
  end.

(** [s.replace(/\n\s*\n/g, '\n')], scanning from the left; [fuel] bounds
    the characters looked at. *)
Fixpoint replaceBlankLines (fuel : nat) (s : jsstring) : jsstring :=
  match fuel, s with
  | S fuel', c :: s' =>
      if c =? NL then
        match spacesThenNewline s' with
        | Some n => NL :: replaceBlankLines fuel' (skipn n s')
        | None => c :: replaceBlankLines fuel' s'
        end
      else c :: replaceBlankLines fuel' s'
  | _, _ => s
  end.

(** The number of newlines [s] starts with. *)
Fixpoint leadingNewlines (s : jsstring) : nat :=
  match s with
  | c :: s' => if c =? NL then S (leadingNewlines s') else O
  | [] => O
  end.

(** [s.replace(/\n{3,}/g, '\n\n')]. *)
Fixpoint replaceNewlineRuns (fuel : nat) (s : jsstring) : jsstring :=
  match fuel, s with
  | S fuel', c :: s' =>
      if (3 <=? leadingNewlines s)%nat
      then NL :: NL :: replaceNewlineRuns fuel' (skipn (leadingNewlines s') s')
      else c :: replaceNewlineRuns fuel' s'
  | _, _ => s
  end.

(** [s.replace(/\n\s*\n/g, '\n').replace(/\n{3,}/g, '\n\n')]. *)
Definition compress (s : jsstring) : jsstring :=
  let s1 := replaceBlankLines (List.length s) s in
  replaceNewlineRuns (List.length s1) s1.

(** [s.split('\n')]. *)
Fixpoint splitLines (s : jsstring) : list jsstring :=
  match s with
  | [] => [[]]
  | c :: s' =>
      if c =? NL then [] :: splitLines s'
      else match splitLines s' with
           | line :: lines => (c :: line) :: lines
           | [] => [[c]]
           end
  end.

(** [lines.join('\n')]. *)
Fixpoint joinLines (lines : list jsstring) : jsstring :=
  match lines with
  | [] => []
  | [line] => line
  | line :: rest => line ++ NL :: joinLines rest
  end.

(** The English-line test on [line.trim()]: one or more characters, all
    of the class above. *)
Definition isEnglishLine (line : jsstring) : bool :=
  match trim line with
  | [] => false
  | t => forallb isEnglishChar t
  end.

(** [isEnglishLine && line.trim().length > 10]. *)
Definition startsEnglish (line : jsstring) : bool :=
  isEnglishLine line && (10 <? List.length (trim line))%nat.

(** The [for] loop: the lines before the first English line, and the lines
    from it on; [None] when no line qualifies. *)
Fixpoint findEnglish (before lines : list jsstring)
  : option (list jsstring * list jsstring) :=
  match lines with
  | [] => None
  | line :: rest =>
      if startsEnglish line then Some (rev before, lines)
      else findEnglish (line :: before) rest
  end.

Record Separated := { chineseText : jsstring; englishText : jsstring }.

Definition nonEmpty (s : jsstring) : bool :=
  match s with [] => false | _ => true end.

Definition separateChineseAndEnglishText (text : jsstring) : Separated :=
  let chineseText :=
    match chineseMatch text with
    | Some g => if nonEmpty g then compress (trim g) else []
    | None => []
    end in
  let englishText :=
    match englishMatch text with
    | Some g => if nonEmpty g then compress (trim g) else []
    | None => []
    end in
  if negb (nonEmpty chineseText) && negb (nonEmpty englishText) then
    let '(chineseText, englishText) :=
      match findEnglish [] (splitLines text) with
      | Some (before, from) => (trim (joinLines before), trim (joinLines from))
      | None => (text, text)
      end in
    {| chineseText := compress chineseText;
       englishText := compress englishText |}
  else {| chineseText := chineseText; englishText := englishText |}.

(** The marker [p] occurs in [text], case ignored. *)
Definition occursIn (p text : jsstring) : Prop :=
  exists pre post, text = pre ++ post /\ startsWithIgnoreCase p post = true.

(** A blank line: a newline, white space, and a newline again. *)
Definition hasBlankLine (text : jsstring) : Prop :=
  exists pre post n,
    text = pre ++ NL :: post /\ spacesThenNewline post = Some n.

Definition asciiOnly (line : jsstring) : bool :=
  forallb (fun c => c <? 128) line.

(** No line of [text] is all ASCII and longer than ten characters. *)
Definition noLongAsciiLine (text : jsstring) : Prop :=
  forall line, In line (splitLines text) ->
    asciiOnly line && (10 <? List.length line)%nat = false.

(** Two Chinese paragraphs with an empty line between them. *)
Definition twoParagraphs : jsstring := [20320; 22909; 10; 10; 19990; 30028].

(** One Chinese sentence. *)
Definition greeting : jsstring := [20320; 22909; 65292; 19990; 30028].

End Text.

(* ================================================================= *)
(** ** Scenarios *)

(** Scripted surroundings for the concrete runs below. *)
Module Scenario.

Import Http.
Local Open Scope string_scope.

(** The network answers with [script], then with [rest] for ever; every
    XMLHttpRequest ends with [xhr]. *)
Definition serving (script : list FetchOutcome) (rest : FetchOutcome)
    (xhr : XhrOutcome) : Browser :=
  {| network := fun n => nth n script rest;
     transfer := fun _ => xhr;
     blobOfDataUrl := fun _ => None;
     atob := fun s => Some s;
     JSON_parse := fun _ => true |}.

Definition answer (st : Z) (j : option Json) : FetchOutcome :=
  Resolves {| http_status := st; body := j |}.

(** [200 OK] with [{ generations_by_pk: { status, generated_images } }]. *)
Definition generation (s : Status) (images : list GeneratedImage)
  : FetchOutcome :=
  answer 200
    (Some {| generations_by_pk :=
               Some {| status := s; generated_images := images |};
             uploadInitImage := None |}).

Definition pending : FetchOutcome := generation PENDING [].
Definition failedJob : FetchOutcome := generation FAILED [].
Definition complete : FetchOutcome :=
  generation COMPLETE
    [ {| id := "image-1"; url := "https://cdn.example/image-1.jpg" |} ].

(** A status code with a body that is not JSON. *)
Definition refused (st : Z) : FetchOutcome := answer st None.

(** [200 OK] with [{ uploadInitImage: { id, url, fields } }]. *)
Definition uploadTarget : FetchOutcome :=
  answer 200
    (Some {| generations_by_pk := None;
             uploadInitImage :=
               Some {| upload_id := "upload-7";
                       upload_url := "https://s3.example/bucket";
                       upload_fields := "{}" |} |}).

Definition fetches (w : World) : nat := List.length (requests w).

(** A server that answers every request with [401 Unauthorized]. *)
Definition unauthorized : Browser := serving [] (refused 401) (XhrDone 204).

Definition twoPendingThenComplete : Browser :=
  serving [pending; pending; complete] pending (XhrDone 204).

Definition alwaysPending : Browser := serving [] pending (XhrDone 204).

Definition failingThird : Browser :=
  serving [pending; refused 503; failedJob] pending (XhrDone 204).

Definition dropsOnce : Browser :=
  serving [Rejects (Raised "Failed to fetch")] complete (XhrDone 204).

Definition offline : Browser :=
  serving [] (Rejects (Raised "Failed to fetch")) (XhrDone 204).

Definition overloaded : Browser := serving [] (refused 503) (XhrDone 204).

Definition uploadRefused : Browser :=
  serving [uploadTarget] (refused 500) (XhrDone 403).

Definition uploadDropped : Browser :=
  serving [uploadTarget] (refused 500) XhrError.

Definition pollOptions (n : nat) : Polling.PollOptions :=
  {| Polling.maxPolls := n; Polling.initialDelay := ofZ 3000;
     Polling.maxDelay := ofZ 10000 |}.

(** A status fetch after which the job is still unsettled: an error
    status, or a body without a terminal status. *)
Definition unsettled (o : FetchOutcome) : bool :=
  match o with
  | Resolves r =>
      if ok r then
        match body r with
        | Some j =>
            match generations_by_pk j with
            | Some g =>
                match status g with
                | COMPLETE | FAILED => false
                | _ => true
                end
            | None => true
            end
        | None => false
        end
      else true
  | Rejects _ => false
  end.

(** A status fetch that reports [FAILED]. *)
Definition reportsFailed (o : FetchOutcome) : bool :=
  match o with
  | Resolves r =>
      ok r &&
      match body r with
      | Some {| generations_by_pk := Some {| status := FAILED |} |} => true
      | _ => false
      end
  | Rejects _ => false
  end.

Definition afterLog (l : Level) (msg : string) (w : World) : World :=
  snd (logger l msg w).

Definition afterSleep (ms : number) (w : World) : World := snd (sleep ms w).

(** A log entry of level [Warn] or [Error]. *)
Definition problem (entry : Level * string) : bool :=
  match fst entry with
  | Warn | Error => true
  | _ => false
  end.

(** The transfer to the pre-signed URL does not go through: the fields do
    not parse, the request throws or errors, or its status is not 2xx. *)
Definition transferFailed (b : Browser) (n : nat) (fieldsString : string)
  : bool :=
  negb (JSON_parse b fieldsString)
  || match transfer b n with
     | XhrDone st => negb ((200 <=? st)%Z && (st <? 300)%Z)
     | _ => true
     end.

End Scenario.

(* ================================================================= *)
(** ** What one attempt of a request comes to *)

Module Attempt.

Import Http.
Local Open Scope string_scope.

(** The error one turn of [fetchWithRetry] ends with in its [catch]: the
    rejection of [fetch], or the error thrown for a status that is neither
    2xx nor 429.  [None] for the other outcomes. *)
Definition failure (o : FetchOutcome) : option JsError :=
  match o with
  | Rejects e => Some e
  | Resolves r =>
      if ok r then None
      else if ((http_status r =? 401) || (http_status r =? 403))%Z
      then Some (AuthError (http_status r))
      else if (http_status r =? 429)%Z then None
      else Some (HttpStatusError (http_status r))
  end.

(** The world after [fetchWithRetry] has logged a turn and sent its
    request to [u]. *)
Definition sent (u : Url) (w : World) : World :=
  {| browser := browser w; requests := u :: requests w;
     uploads := uploads w; timers := timers w;
     logged := (Debug, "尝试请求") :: logged w |}.

(** The answer [429 Too Many Requests]. *)
Definition rateLimited (o : FetchOutcome) : bool :=
  match o with
  | Resolves r => (http_status r =? 429)%Z
  | Rejects _ => false
  end.

End Attempt.

(* ================================================================= *)
(** ** Image data that cannot be uploaded *)

Module Blobs.

Import Http Upload.

(** The check of lines 1590-1594 fails: no [Blob] could be made of the
    image data, or it is empty. *)
Definition unusable (b : Browser) (imageBase64 : string) : bool :=
  match makeBlob b imageBase64 with
  | (Some blob, _, _) => Nat.eqb (blob_size blob) 0
  | (None, _, _) => true
  end.

(** A browser whose [atob] rejects every string. *)
Definition rejectingAtob : Browser :=
  {| network := fun _ => Rejects (Raised "unused");
     transfer := fun _ => XhrError;
     blobOfDataUrl := fun _ => None;
     atob := fun _ => None;
     JSON_parse := fun _ => true |}.

End Blobs.

(* ================================================================= *)
(** ** The one place that adds elements *)

Module ElementUse.

Import Elements.
Local Open Scope string_scope.

(** A selected id that [safelyAddElements] lets through: it names an
    available element, and that element goes with the model. *)
Definition accepted (ids : ModelIds) (model : string) (elementId : string)
  : bool :=
  match findElement (getAvailableElements ids) elementId with
  | Some element => isCompatible element model
  | None => false
  end.

(** The request body of [processWithImageToImageAndStyle] as far as the
    elements go (lines 1207-1246): the model is AlbedoBase XL, and the
    selected elements are added under the guard
    [selectedElements && selectedElements.length > 0]. *)
Definition styleRequestElements (ids : ModelIds)
    (selectedElements : option (list (string * number))) : Payload :=
  let genPayload := {| modelId := ALBEDO_BASE_XL ids; elements := None |} in
  match selectedElements with
  | Some (e :: es) =>
      safelyAddElements ids genPayload (e :: es) (modelId genPayload) true
  | _ => genPayload
  end.

End ElementUse.

(* ================================================================= *)
(** ** Data URLs *)

(** The three versions of [extractBase64FromDataUrl] and the places that
    take a data URL apart or put one together. *)
Module DataUrl.

Import Upload.
Local Open Scope string_scope.

(** [extractBase64FromDataUrl] of [leonardoService.ts] (lines 464-468) and
    of [openaiService.ts] (lines 118-122): the same text. *)
Definition extractBase64FromDataUrl (dataUrl : string) : string :=
  if String.eqb dataUrl "" then ""
  else
    match splitComma dataUrl with
    | _ :: part :: _ => part
    | _ => dataUrl
    end.

(** The class [[A-Za-z-+/]]. *)
Definition isMimeChar (c : ascii) : bool :=
  let n := nat_of_ascii c in
  ((65 <=? n) && (n <=? 90))%nat || ((97 <=? n) && (n <=? 122))%nat
  || Ascii.eqb c "-" || Ascii.eqb c "+" || Ascii.eqb c "/".

(** What is left of [s] after the literal [p], when [s] starts with it. *)
Fixpoint afterLiteral (p s : string) : option string :=
  match p, s with
  | EmptyString, _ => Some s
  | String a p', String c s' =>
      if Ascii.eqb a c then afterLiteral p' s' else None
  | String _ _, EmptyString => None
  end.

(** The longest run of class characters [s] starts with, and the rest. *)
Fixpoint mimeRun (s : string) : string * string :=
  match s with
  | String c s' =>
      if isMimeChar c
      then let '(run, rest) := mimeRun s' in (String c run, rest)
      else ("", s)
  | EmptyString => ("", "")
  end.

(** [extractBase64FromDataUrl] of [advancedLeonardoService.ts] (lines
    17-19): [dataUrl.replace(/^data:([A-Za-z-+/]+);base64,/, '')].  The
    class does not hold the semicolon, so the greedy run is the only one
    that can be followed by [;base64,]. *)
Definition stripDataUrlPrefix (dataUrl : string) : string :=
  match afterLiteral "data:" dataUrl with
  | Some rest =>
      match mimeRun rest with
      | (String _ _, rest') =>
          match afterLiteral ";base64," rest' with
          | Some payload => payload
          | None => dataUrl
          end
      | (EmptyString, _) => dataUrl
      end
  | None => dataUrl
  end.

(** [base64WithPrefix] of [analyzeImageWithOpenAI] (lines 24-26). *)
Definition base64WithPrefix (imageBase64 : string) : string :=
  if prefix "data:" imageBase64 then imageBase64
  else "data:image/jpeg;base64," ++ imageBase64.

(** [base64Data] of [processImageWithLeonardo] (lines 211-213) and of
    [createInitialImageFromBase64] (lines 743-745). *)
Definition base64Data (imageBase64 : string) : string :=
  if prefix "data:" imageBase64 then extractBase64FromDataUrl imageBase64
  else imageBase64.

(** The image handed to the chat API by the page (index page, lines
    388-389 and 504-508): [analyzeImageWithOpenAI] is called with
    [extractBase64FromDataUrl(imageUrl)]. *)
Definition analyzedImage (imageUrl : string) : string :=
  base64WithPrefix (extractBase64FromDataUrl imageUrl).

Fixpoint hasComma (s : string) : bool :=
  match s with
  | String c s' => Ascii.eqb c "," || hasComma s'
  | EmptyString => false
  end.

Fixpoint allMimeChars (s : string) : bool :=
  match s with
  | String c s' => isMimeChar c && allMimeChars s'
  | EmptyString => true
  end.

End DataUrl.

(* ================================================================= *)
(** ** The advanced service *)

(** [getGenerationResult] and [waitForGenerationCompletion] of
    [advancedLeonardoService.ts], over the same world.  These call [fetch]
    directly, without the retry wrapper. *)
Module AdvancedService.

Import Http Polling.
Local Open Scope string_scope.
Local Open Scope async_scope.

(** The [status] of a [getGenerationResult] answer. *)
Inductive ResultStatus := complete | failedStatus | pending | errorStatus.

(** The text of a status, as it is put into an error message. *)
Definition statusText (s : ResultStatus) : string :=
  match s with
  | complete => "complete"
  | failedStatus => "failed"
  | pending => "pending"
  | errorStatus => "error"
  end.

(** What [getGenerationResult] returns; an absent [imageUrl] or [imageId]
    is the empty string, as in [GeneratedImage]. *)
Record GenerationResult := {
  result_status : ResultStatus;
  result_imageUrl : string;
  result_imageId : string
}.

Definition only (s : ResultStatus) : GenerationResult :=
  {| result_status := s; result_imageUrl := ""; result_imageId := "" |}.

(** [getGenerationResult] (lines 147-193). *)
Definition getGenerationResult (generationId : string)
  : Async GenerationResult :=
  try_catch
    (logger Info "获取生成任务结果" ;;
     response <- fetch (GenerationUrl generationId) ;;
     if negb (ok response) then
       _ <- json response ;;
       logger Error "获取生成任务结果失败" ;;
       ret (only errorStatus)
     else
       data <- json response ;;
       match generations_by_pk data with
       | Some g =>
           match status g with
           | COMPLETE =>
               match generated_images g with
               | img :: _ =>
                   ret {| result_status := complete;
                          result_imageUrl := url img;
                          result_imageId := id img |}
               | [] => ret (only complete)
               end
           | FAILED => ret (only failedStatus)
           | _ => ret (only pending)
           end
       | None => ret (only pending)
       end)
    (fun _ =>
       logger Error "获取生成任务结果过程中出错" ;;
       ret (only errorStatus)).

(** The [for] loop of [waitForGenerationCompletion] (lines 209-231), with
    [left] turns to go. *)
Fixpoint waitForGenerationCompletion_loop (generationId : string)
    (interval : number) (left : nat) : Async LeonardoResponse :=
  match left with
  | O =>
      logger Error "生成任务超时" ;;
      ret (failed "生成任务超时")
  | S left' =>
      sleep interval ;;
      result <- getGenerationResult generationId ;;
      match result_status result with
      | complete =>
          if truthyString (result_imageUrl result) then
            logger Info "生成任务完成" ;;
            ret (succeeded (result_imageUrl result))
          else
            logger Debug "等待生成任务完成，尝试" ;;
            waitForGenerationCompletion_loop generationId interval left'
      | failedStatus | errorStatus =>
          logger Error "生成任务失败" ;;
          ret (failed ("生成任务失败: " ++ statusText (result_status result)))
      | pending =>
          logger Debug "等待生成任务完成，尝试" ;;
          waitForGenerationCompletion_loop generationId interval left'
      end
  end.

(** [waitForGenerationCompletion] (lines 202-238); [maxAttempts] is the
    number of turns the loop may take (30 by default), [interval] the wait
    in front of every status request (2000 by default). *)
Definition waitForGenerationCompletion (generationId : string)
    (maxAttempts : nat) (interval : number) : Async LeonardoResponse :=
  logger Info "等待生成任务完成" ;;
  waitForGenerationCompletion_loop generationId interval maxAttempts.

(** A status request answered with a finished generation that lists no
    image address. *)
Definition completeWithoutImage (o : FetchOutcome) : bool :=
  match o with
  | Resolves r =>
      ok r &&
      match body r with
      | Some {| generations_by_pk :=
                  Some {| status := COMPLETE; generated_images := images |} |} =>
          match images with
          | img :: _ => String.eqb (url img) ""
          | [] => true
          end
      | _ => false
      end
  | Rejects _ => false
  end.

(** A status request that fails: it is rejected, its status is not 2xx, or
    its body cannot be read. *)
Definition failedRequest (o : FetchOutcome) : bool :=
  match o with
  | Resolves r =>
      negb (ok r) || match body r with Some _ => false | None => true end
  | Rejects _ => true
  end.

End AdvancedService.

(* ================================================================= *)
(** ** The logger *)

(** [logger.ts]: the threshold, and what reaches the console. *)
Module Logger.

Local Open Scope string_scope.

Inductive LogLevel := DEBUG | INFO | WARN | ERROR | NONE.

(** The number an enum member stands for. *)
Definition rank (l : LogLevel) : Z :=
  match l with
  | DEBUG => 0 | INFO => 1 | WARN => 2 | ERROR => 3 | NONE => 4
  end.

(** [LogLevel[level]], the name of a member. *)
Definition levelName (l : LogLevel) : string :=
  match l with
  | DEBUG => "DEBUG" | INFO => "INFO" | WARN => "WARN" | ERROR => "ERROR"
  | NONE => "NONE"
  end.

Definition LOG_STYLES (l : LogLevel) : string :=
  match l with
  | DEBUG => "color: #6c757d; font-weight: bold"
  | INFO => "color: #0d6efd; font-weight: bold"
  | WARN => "color: #fd7e14; font-weight: bold"
  | ERROR => "color: #dc3545; font-weight: bold"
  | NONE => ""
  end.

Definition LOG_PREFIX (l : LogLevel) : string :=
  match l with
  | DEBUG => "🔍 DEBUG"
  | INFO => "📘 INFO"
  | WARN => "⚠️ WARN"
  | ERROR => "❌ ERROR"
  | NONE => "NONE"
  end.

Inductive ConsoleMethod :=
| console_log | console_info | console_warn | console_error
| console_groupCollapsed | console_groupEnd.

(** The optional [data] argument: whether it is falsy, and the text the
    console shows for it. *)
Record Data := { falsy : bool; shown : string }.

(** The module's state and its surroundings: the console calls have the
    most recent one first. *)
Record State := {
  currentLogLevel : LogLevel;
  hasWindow : bool;          (* typeof window !== 'undefined' && window.console *)
  clock : nat -> string;     (* the n-th [new Date().toISOString()] *)
  ticks : nat;               (* how often the clock has been read *)
  console : list (ConsoleMethod * list string)
}.

(** The initial threshold (lines 35-37). *)
Definition initialLogLevel (production : bool) : LogLevel :=
  if production then WARN else DEBUG.

(** [log] (lines 63-107). *)
Definition log (level : LogLevel) (module message : string)
    (data : option Data) (st : State) : State :=
  if (rank level <? rank (currentLogLevel st))%Z then st
  else
    match level with
    | NONE => st
    | _ =>
        let timestamp := clock st (ticks st) in
        let prefix := LOG_PREFIX level in
        let moduleFormatted := "[" ++ module ++ "]" in
        let calls :=
          if hasWindow st then
            let head := "%c" ++ prefix ++ "%c " ++ moduleFormatted ++ " "
                        ++ message in
            match data with
            | Some d =>
                [ (console_groupEnd, []);
                  (console_log, ["详情:"; shown d]);
                  (console_log, ["时间:"; timestamp]);
                  (console_groupCollapsed,
                   [head; LOG_STYLES level; "color: inherit"]) ]
            | None =>
                [ (console_log, [head; LOG_STYLES level; "color: inherit"]) ]
            end
          else
            let logMessage := timestamp ++ " " ++ prefix ++ " "
                              ++ moduleFormatted ++ " " ++ message in
            let extra :=
              match data with
              | Some d => if falsy d then "" else shown d
              | None => ""
              end in
            [ (match level with
               | ERROR => console_error
               | WARN => console_warn
               | INFO => console_info
               | _ => console_log
               end, [logMessage; extra]) ] in
        {| currentLogLevel := currentLogLevel st;
           hasWindow := hasWindow st;
           clock := clock st;
           ticks := S (ticks st);
           console := (calls ++ console st)%list |}
    end.

(** [setLogLevel] (lines 43-46). *)
Definition setLogLevel (level : LogLevel) (st : State) : State :=
  log INFO "Logger" ("日志级别已设置为: " ++ levelName level) None
    {| currentLogLevel := level;
       hasWindow := hasWindow st;
       clock := clock st;
       ticks := ticks st;
       console := console st |}.

(** [getLogLevel] (lines 52-54). *)
Definition getLogLevel (st : State) : LogLevel := currentLogLevel st.

(** The four methods of the object [createLogger] returns. *)
Inductive Method := debug | info | warn | error.

Definition levelOf (m : Method) : LogLevel :=
  match m with
  | debug => DEBUG | info => INFO | warn => WARN | error => ERROR
  end.

(** One call [createLogger(moduleName).m(message, data)]. *)
Record Call := {
  call_module : string;
  call_method : Method;
  call_message : string;
  call_data : option Data
}.

Definition perform (c : Call) (st : State) : State :=
  log (levelOf (call_method c)) (call_module c) (call_message c)
      (call_data c) st.

(** A sequence of calls, the first one first. *)
Definition performAll (calls : list Call) (st : State) : State :=
  fold_left (fun st c => perform c st) calls st.

(** The state with another threshold. *)
Definition withLevel (level : LogLevel) (st : State) : State :=
  {| currentLogLevel := level;
     hasWindow := hasWindow st;
     clock := clock st;
     ticks := ticks st;
     console := console st |}.

(** The calls a threshold lets through. *)
Definition passes (level : LogLevel) (c : Call) : bool :=
  (rank level <=? rank (levelOf (call_method c)))%Z.

(** A server-side logger in development, with nothing written yet. *)
Definition quietServer : State :=
  {| currentLogLevel := DEBUG; hasWindow := false;
     clock := fun _ => "2025-01-01T00:00:00.000Z"; ticks := 0;
     console := [] |}.

End Logger.

(* ================================================================= *)
(** ** Spellings of a marker *)

Module Markers.

Import Text.

(** [m] is the marker [p] in some mixture of upper and lower case: what a
    pattern with the flag [i] matches. *)
Fixpoint spelling (p m : jsstring) : bool :=
  match p, m with
  | [], [] => true
  | a :: p', c :: m' => eqIgnoreCase a c && spelling p' m'
  | _, _ => false
  end.

(** A description as the chat model is asked to write it: a Chinese part
    and an English part, each behind its marker. *)
Definition tagged (chineseTag chinese englishTag english : jsstring)
  : jsstring :=
  chineseTag ++ chinese ++ englishTag ++ english.

End Markers.

(* ================================================================= *)
(** ** The two halves of the size computation *)

Module Sizing.

Import Dimensions.

(** Lines 547-594 (and 1102-1150): the two sides fitted to the aspect
    ratio, the shorter one at the minimum. *)
Definition fitToAspect (width height : number) : number * number :=
  let aspectRatio := div width height in
  if ge aspectRatio (ofZ 1) then
    let outputHeight := Math_max minDimension (floor8 minDimension) in
    let outputWidth := floor8 (mul outputHeight aspectRatio) in
    if gt outputWidth maxDimension then
      let outputWidth := floor8 maxDimension in
      let outputHeight := floor8 (div outputWidth aspectRatio) in
      if lt outputHeight minDimension
      then (outputWidth, floor8 minDimension)
      else (outputWidth, outputHeight)
    else (outputWidth, outputHeight)
  else
    let outputWidth := Math_max minDimension (floor8 minDimension) in
    let outputHeight := floor8 (div outputWidth aspectRatio) in
    if gt outputHeight maxDimension then
      let outputHeight := floor8 maxDimension in
      let outputWidth := floor8 (mul outputHeight aspectRatio) in
      if lt outputWidth minDimension
      then (floor8 minDimension, outputHeight)
      else (outputWidth, outputHeight)
    else (outputWidth, outputHeight).

(** Lines 596-632 (and 1152-1188): the pixel budget. *)
Definition limitPixels (size : number * number) : number * number :=
  let '(outputWidth, outputHeight) := size in
  let pixelCount := mul outputWidth outputHeight in
  if gt pixelCount pixelLimit then
    let scaleFactor := Math_sqrt (div pixelLimit pixelCount) in
    let outputWidth := floor8 (mul outputWidth scaleFactor) in
    let outputHeight := floor8 (mul outputHeight scaleFactor) in
    let outputWidth :=
      if lt outputWidth minDimension then floor8 minDimension else outputWidth in
    let outputHeight :=
      if lt outputHeight minDimension then floor8 minDimension else outputHeight in
    (outputWidth, outputHeight)
  else (outputWidth, outputHeight).

(** The aspect ratios at which the longer side reaches the maximum. *)
Definition wideTurn : number := ratio false 3 2.
Definition tallTurn : number := ratio false 43 64.

(** The size the request is sent with, for the multiple [8 * j] on the
    longer side. *)
Definition sized (wide : bool) (j : Z) : number * number :=
  if wide then (ofZ (8 * j), ofZ 512) else (ofZ 512, ofZ (8 * j)).

End Sizing.

(* ================================================================= *)
(** ** Numbers that are not NaN *)

Module Proper.

(** [x] is not NaN: a zero, an infinity, or a finite number. *)
Definition isNumber (x : number) : bool :=
  match x with
  | S754_nan => false
  | _ => true
  end.

(** A number in canonical form that is not NaN. *)
Definition proper (x : number) : Prop :=
  isNumber x = true /\ valid_binary prec emax x = true.

End Proper.

(* ================================================================= *)
(** ** Numbers that are not positive *)

Module Negative.

(** [+0], a positive finite number in canonical form, or [+Infinity]. *)
Definition notNegative (x : number) : Prop :=
  zeroOrPos x \/ x = S754_infinity false.

(** The opposite of such a number: [-0], a negative finite number, or
    [-Infinity]. *)
Definition notPositive (x : number) : Prop :=
  exists p, x = SFopp p /\ notNegative p.

End Negative.

(* ================================================================= *)
(** * Theorems *)

(* ================================================================= *)
(** ** Running asynchronous code *)

Section AsyncLaws.

Import Http.
Context {A B : Type}.

Lemma bind_normal (m : Async A) (k : A -> Async B) w a w1 :
  m w = (Normal a, w1) -> bind m k w = k a w1.
Proof. intros H; unfold bind; now rewrite H. Qed.

Lemma bind_throw (m : Async A) (k : A -> Async B) w e w1 :
  m w = (Throw e, w1) -> bind m k w = (Throw e, w1).
Proof. intros H; unfold bind; now rewrite H. Qed.

Lemma try_catch_normal (m : Async A) h w a w1 :
  m w = (Normal a, w1) -> try_catch m h w = (Normal a, w1).
Proof. intros H; unfold try_catch; now rewrite H. Qed.

Lemma try_catch_throw (m : Async A) h w e w1 :
  m w = (Throw e, w1) -> try_catch m h w = h e w1.
Proof. intros H; unfold try_catch; now rewrite H. Qed.

End AsyncLaws.

(* ================================================================= *)
(** ** The retry wrapper *)

Section Retry.

Import Http Scenario.
Local Open Scope string_scope.

(** C1 (the code departs from it).  The claim: a request that fails with
    401 is attempted exactly once.  The code: the [throw] of the
    authentication error sits inside the [try] of the loop, so the loop's own
    [catch] takes it and goes round again; against a server that always
    answers 401 the default call makes three requests, with two waits in
    between, before the error leaves the function. *)
Theorem C1_auth_failure_is_retried :
  fst (fetchWithRetry_default InitImageUrl (initial unauthorized))
    = Throw (AuthError 401)
  /\ fetches (snd (fetchWithRetry_default InitImageUrl (initial unauthorized)))
     = 3%nat
  /\ timers (snd (fetchWithRetry_default InitImageUrl (initial unauthorized)))
     = [ofZ 1000; ofZ 1000].
Proof. vm_compute. auto. Qed.

(** The same for [403], and only the last turn lets the error through:
    with a single attempt allowed the request is made once. *)
Lemma forbidden_is_retried_too :
  fetches (snd (fetchWithRetry_default InitImageUrl
                  (initial (serving [] (refused 403) (XhrDone 204)))))
  = 3%nat
  /\ fetches (snd (fetchWithRetry InitImageUrl 1 (ofZ 1000)
                     (initial unauthorized))) = 1%nat.
Proof. vm_compute. auto. Qed.

(** In general: against a server that always answers 401, every one of the
    [retries] attempts is made. *)
Lemma auth_failure_uses_every_attempt u retries delay b :
  (forall n, network b n = refused 401) ->
  forall left i w,
    browser w = b -> (i + S left = retries)%nat ->
    exists w',
      fetchWithRetry_from u retries delay i (S left) w
      = (Throw (AuthError 401), w')
      /\ browser w' = b
      /\ fetches w' = (fetches w + S left)%nat.
Proof.
  intros Hb left. induction left as [|left IH]; intros i w Hw Hi.
  - cbn [fetchWithRetry_from]. unfold bind at 1, try_catch at 1.
    unfold bind at 1. unfold logger at 1. unfold bind at 1, fetch at 1.
    cbn [browser requests]. rewrite Hw, Hb. cbn.
    replace (Nat.eqb i (retries - 1)) with true
      by (symmetry; apply Nat.eqb_eq; lia).
    eexists. split; [reflexivity|]. cbn. split; [reflexivity|].
    unfold fetches. cbn. lia.
  - remember (S left) as k eqn:Ek.
    cbn [fetchWithRetry_from]. unfold bind at 1, try_catch at 1.
    unfold bind at 1. unfold logger at 1. unfold bind at 1, fetch at 1.
    cbn [browser requests]. rewrite Hw, Hb. cbn.
    replace (Nat.eqb i (retries - 1)) with false
      by (symmetry; apply Nat.eqb_neq; lia).
    cbn. subst k.
    match goal with
    | |- exists w', fetchWithRetry_from _ _ _ _ _ ?w1 = _ /\ _ =>
        destruct (IH (S i) w1) as (w' & E & Eb & Ef);
          [reflexivity | lia |]
    end.
    exists w'. split; [exact E|]. split; [exact Eb|].
    rewrite Ef. unfold fetches. cbn. lia.
Qed.

End Retry.

(* ================================================================= *)
(** ** The polling waiters *)

Section Waiters.

Import Http Polling Scenario.
Local Open Scope string_scope.

(** C4.  With the statuses PENDING, PENDING, COMPLETE and [maxPolls = 5]
    [waitForGenerationCompletion] returns the image after exactly three
    status fetches; with PENDING for ever and [maxPolls = 3] it gives up
    after exactly three status fetches, logging the timeout and returning
    [null].  [waitForGenerationResultUrl] (whose budget is the constant 40)
    succeeds on the first sequence after exactly three fetches as well. *)
Theorem C4_polling_scenarios :
  (let run := waitForGenerationCompletion "job" (pollOptions 5)
                (initial twoPendingThenComplete) in
   fst run = Normal (Some "image-1") /\ fetches (snd run) = 3%nat)
  /\ (let run := waitForGenerationCompletion "job" (pollOptions 3)
                   (initial alwaysPending) in
      fst run = Normal None /\ fetches (snd run) = 3%nat
      /\ hd_error (logged (snd run)) = Some (Error, "等待生成超时"))
  /\ (let run := waitForGenerationResultUrl "job"
                   (initial twoPendingThenComplete) in
      fst run = Normal (succeeded "https://cdn.example/image-1.jpg")
      /\ fetches (snd run) = 3%nat).
Proof. vm_compute. repeat split. Qed.

Lemma result_loop_unsettled :
  forall generationId k left pollCount w,
    (forall i, (i < k)%nat ->
       unsettled (network (browser w) (fetches w + i)) = true) ->
    exists w',
      waitForGenerationResultUrl_loop generationId (k + left) pollCount w
      = waitForGenerationResultUrl_loop generationId left (k + pollCount) w'
      /\ browser w' = browser w /\ fetches w' = (fetches w + k)%nat.
Proof.
  intros generationId k; induction k as [|k IH]; intros left pollCount w H.
  - exists w. rewrite Nat.add_0_r. auto.
  - assert (H0 := H 0%nat ltac:(lia)). rewrite Nat.add_0_r in H0.
    cbn [Nat.add waitForGenerationResultUrl_loop].
    unfold bind at 1, fetch at 1. unfold fetches in H0.
    destruct (network (browser w) (List.length (requests w))) as [r|e];
      [|discriminate].
    cbn [unsettled] in H0.
    assert (Hnext : forall w2, browser w2 = browser w ->
              fetches w2 = S (fetches w) ->
              exists w',
                waitForGenerationResultUrl_loop generationId (k + left)
                  (S pollCount) w2
                = waitForGenerationResultUrl_loop generationId left
                    (S (k + pollCount)) w'
                /\ browser w' = browser w
                /\ fetches w' = (fetches w + S k)%nat).
    { intros w2 Hb Hf.
      destruct (IH left (S pollCount) w2) as [w' [E [Eb Ef]]].
      - intros i Hi. rewrite Hb, Hf.
        replace (S (fetches w) + i)%nat with (fetches w + S i)%nat by lia.
        apply H. lia.
      - exists w'. rewrite E.
        replace (k + S pollCount)%nat with (S (k + pollCount)) by lia.
        repeat split; [congruence | lia]. }
    destruct (ok r) eqn:Hok; cbn [negb].
    + destruct (body r) as [j|] eqn:Hbody; [|discriminate].
      unfold json. rewrite Hbody. unfold bind at 1, ret at 1.
      destruct (generations_by_pk j) as [g|].
      * destruct (status g); try discriminate; apply Hnext; reflexivity.
      * apply Hnext; reflexivity.
    + apply Hnext; reflexivity.
Qed.

Lemma result_loop_failed :
  forall generationId left pollCount w,
    reportsFailed (network (browser w) (fetches w)) = true ->
    exists w',
      waitForGenerationResultUrl_loop generationId (S left) pollCount w
      = (Normal (failed "生成失败"), w')
      /\ fetches w' = S (fetches w).
Proof.
  intros generationId left pollCount w H.
  cbn [waitForGenerationResultUrl_loop].
  unfold bind at 1, fetch at 1. unfold fetches in H.
  destruct (network (browser w) (List.length (requests w))) as [r|e];
    [|discriminate].
  cbn [reportsFailed] in H. apply andb_prop in H as [Hok H].
  rewrite Hok. cbn [negb].
  destruct (body r) as [j|] eqn:Hbody; [|discriminate].
  unfold json; rewrite Hbody. unfold bind at 1, ret at 1.
  destruct j as [[g|] u]; [|discriminate].
  destruct g as [s imgs]. destruct s; try discriminate.
  cbn. eexists; split; reflexivity.
Qed.

(** C5 (counterexample).  [waitForGenerationCompletion] gives the same
    result, [null], for a job that failed and for a poll budget that ran
    out: its callers cannot tell the two apart. *)
Lemma C5_completion_outcomes_coincide :
  let failedRun := waitForGenerationCompletion "job" (pollOptions 3)
                     (initial (serving [failedJob] pending (XhrDone 204))) in
  let timedOut := waitForGenerationCompletion "job" (pollOptions 3)
                    (initial alwaysPending) in
  fst failedRun = Normal None /\ fst timedOut = Normal None
  /\ fst failedRun = fst timedOut.
Proof. vm_compute. repeat split. Qed.

(** C5 (amended).  [waitForGenerationResultUrl] tells the two apart: after
    [k] unsettled status fetches, a fetch reporting FAILED ends the wait
    with the error message of a failed generation, and when all 40 polls
    are used up the wait ends with the (different) message of a timeout.
    [waitForGenerationCompletion] returns [null] both when the budget is
    used up and when the fetched status is FAILED. *)
Theorem C5_failure_and_timeout_outcomes :
  forall generationId b k,
    (forall i, (i < k)%nat -> unsettled (network b i) = true) ->
    (reportsFailed (network b k) = true -> (k < MAX_POLLS)%nat ->
       fst (waitForGenerationResultUrl generationId (initial b))
       = Normal (failed "生成失败"))
    /\ (k = MAX_POLLS ->
       fst (waitForGenerationResultUrl generationId (initial b))
       = Normal (failed "等待生成超时"))
    /\ failed "生成失败" <> failed "等待生成超时"
    /\ (forall options pollCount delay w,
         fst (waitForGenerationCompletion_loop generationId options 0
                pollCount delay w) = Normal None)
    /\ (forall options left pollCount delay w j g w1,
         bind (fetchWithRetry_default (GenerationUrl generationId)) json w
           = (Normal j, w1) ->
         generations_by_pk j = Some g -> status g = FAILED ->
         fst (waitForGenerationCompletion_loop generationId options (S left)
                pollCount delay w) = Normal None).
Proof.
  intros generationId b k Hk.
  assert (Hrun : forall left, exists w',
            waitForGenerationResultUrl_loop generationId (k + left) 0
              (initial b)
            = waitForGenerationResultUrl_loop generationId left (k + 0) w'
            /\ browser w' = b /\ fetches w' = k).
  { intros left.
    destruct (result_loop_unsettled generationId k left 0 (initial b))
      as [w' [E [Eb Ef]]].
    - intros i Hi. cbn. apply Hk, Hi.
    - exists w'. repeat split; assumption. }
  split; [|split; [|split; [|split]]].
  - intros Hf Hlt.
    destruct (Hrun (MAX_POLLS - k)%nat) as [w' [E [Eb Ef]]].
    replace (k + (MAX_POLLS - k))%nat with MAX_POLLS in E by lia.
    destruct (MAX_POLLS - k)%nat as [|left] eqn:Hleft; [lia|].
    destruct (result_loop_failed generationId left (k + 0) w')
      as [w2 [E2 _]].
    { rewrite Eb, Ef. exact Hf. }
    unfold waitForGenerationResultUrl, try_catch. rewrite E, E2. reflexivity.
  - intros ->.
    destruct (Hrun 0%nat) as [w' [E [Eb Ef]]].
    rewrite Nat.add_0_r in E at 1.
    unfold waitForGenerationResultUrl, try_catch. rewrite E. reflexivity.
  - discriminate.
  - intros. reflexivity.
  - intros options left pollCount delay w j g w1 H Hg Hs.
    cbn [waitForGenerationCompletion_loop].
    unfold bind at 1. unfold try_catch at 1. unfold bind at 1.
    unfold bind in H.
    destruct (fetchWithRetry_default (GenerationUrl generationId) w)
      as [[response|e'] w']; [|discriminate].
    unfold bind at 1. rewrite H.
    unfold bind at 1. rewrite Hg, Hs.
    reflexivity.
Qed.

Lemma C5_failure_and_timeout_outcomes_witness :
  fst (waitForGenerationResultUrl "job" (initial failingThird))
  = Normal (failed "生成失败")
  /\ fst (waitForGenerationResultUrl "job" (initial alwaysPending))
     = Normal (failed "等待生成超时").
Proof.
  split.
  - refine (proj1 (C5_failure_and_timeout_outcomes "job" failingThird 2 _) _ _).
    + intros [|[|i]] Hi; [reflexivity | reflexivity | lia].
    + reflexivity.
    + unfold MAX_POLLS; lia.
  - refine (proj1 (proj2
              (C5_failure_and_timeout_outcomes "job" alwaysPending 40 _)) _).
    + intros i Hi. unfold alwaysPending, serving; cbn.
      destruct i as [|i]; reflexivity.
    + reflexivity.
Defined.

(** C6 (counterexample).  In [waitForGenerationResultUrl] a status fetch
    that throws is caught outside the loop: the wait ends there with a
    failure, after one fetch, although the next fetch would have found the
    generation complete and 39 polls were left.  And an error status is
    followed by the same fixed interval every time: against a server that
    always answers 503 the 40 waits are all of 3000 ms. *)
Lemma C6_rejected_fetch_ends_result_wait :
  (let run := waitForGenerationResultUrl "job" (initial dropsOnce) in
   fst run = Normal (failed "Failed to fetch")
   /\ fetches (snd run) = 1%nat
   /\ timers (snd run) = [])
  /\ (let run := waitForGenerationResultUrl "job" (initial overloaded) in
      fst run = Normal (failed "等待生成超时")
      /\ fetches (snd run) = 40%nat
      /\ timers (snd run) = repeat POLL_INTERVAL 40).
Proof. vm_compute. repeat split. Qed.

(** C6 (amended).  In [waitForGenerationCompletion] a turn whose status
    fetch throws (the request after its retries, or the reading of the
    body) is one more poll: the loop goes on with one poll less to go, the
    delay doubled up to [maxDelay], and the error logged.  In
    [waitForGenerationResultUrl] a status fetch answered with an error
    status is one more poll too: the loop goes on with one poll less to
    go, after the fixed poll interval. *)
Theorem C6_failed_status_fetch_is_one_tick :
  forall generationId left pollCount w,
    (forall options currentDelay e w1,
       bind (fetchWithRetry_default (GenerationUrl generationId)) json w
         = (Throw e, w1) ->
       waitForGenerationCompletion_loop generationId options (S left)
         pollCount currentDelay w
       = waitForGenerationCompletion_loop generationId options left
           (S pollCount)
           (Math_min (mul currentDelay (ofZ 2)) (maxDelay options))
           (afterLog Error "轮询过程出错" w1))
    /\ (forall response w1,
          fetch (GenerationUrl generationId) w = (Normal response, w1) ->
          ok response = false ->
          waitForGenerationResultUrl_loop generationId (S left) pollCount w
          = waitForGenerationResultUrl_loop generationId left (S pollCount)
              (afterSleep POLL_INTERVAL
                 (afterLog Error "获取生成状态失败" w1))).
Proof.
  intros generationId left pollCount w. split.
  - intros options currentDelay e w1 H.
    cbn [waitForGenerationCompletion_loop].
    unfold bind at 1. unfold try_catch at 1.
    unfold bind at 1.
    unfold bind in H.
    destruct (fetchWithRetry_default (GenerationUrl generationId) w)
      as [[response|e'] w'].
    + unfold bind at 1. rewrite H. reflexivity.
    + inversion H; subst. reflexivity.
  - intros response w1 H Hok.
    cbn [waitForGenerationResultUrl_loop].
    unfold bind at 1. rewrite H, Hok. reflexivity.
Qed.

Lemma C6_failed_status_fetch_is_one_tick_witness :
  (exists w1,
     waitForGenerationCompletion_loop "job" (pollOptions 5) 5 0 (ofZ 3000)
       (initial offline)
     = waitForGenerationCompletion_loop "job" (pollOptions 5) 4 1 (ofZ 6000)
         (afterLog Error "轮询过程出错" w1)
     /\ fetches w1 = 3%nat)
  /\ (exists w1,
        waitForGenerationResultUrl_loop "job" 40 0 (initial overloaded)
        = waitForGenerationResultUrl_loop "job" 39 1
            (afterSleep POLL_INTERVAL (afterLog Error "获取生成状态失败" w1))
        /\ fetches w1 = 1%nat).
Proof.
  split.
  - eexists. split.
    + refine (proj1 (C6_failed_status_fetch_is_one_tick "job" 4 0
                       (initial offline)) (pollOptions 5) (ofZ 3000)
                (Raised "Failed to fetch") _ _).
      vm_compute. reflexivity.
    + reflexivity.
  - eexists. split.
    + refine (proj2 (C6_failed_status_fetch_is_one_tick "job" 39 0
                       (initial overloaded)) _ _ _ _).
      * vm_compute. reflexivity.
      * reflexivity.
    + reflexivity.
Defined.

End Waiters.

(* ================================================================= *)
(** ** The image upload *)

Section Uploading.

Import Http Upload Scenario.
Local Open Scope string_scope.

Lemma transferToTarget_spec uploadId uploadUrl fieldsString w :
  fst (transferToTarget uploadId uploadUrl fieldsString w) = Normal (Some uploadId)
  /\ exists entries,
       logged (snd (transferToTarget uploadId uploadUrl fieldsString w))
       = (entries ++ logged w)%list
       /\ (transferFailed (browser w) (List.length (uploads w)) fieldsString = true ->
           existsb problem entries = true).
Proof.
  unfold transferToTarget, try_catch, bind, theBrowser, transferFailed.
  destruct (JSON_parse (browser w) fieldsString); cbn.
  - unfold xhrPost. cbn.
    destruct (transfer (browser w) (List.length (uploads w))) as [st| |e]; cbn.
    + destruct ((200 <=? st)%Z && (st <? 300)%Z); cbn.
      * split; [reflexivity|].
        eexists [_; _; _]. split; [reflexivity|]. discriminate.
      * split; [reflexivity|].
        eexists [_; _; _]. split; [reflexivity|]. reflexivity.
    + split; [reflexivity|].
      eexists [_; _; _]. split; [reflexivity|]. reflexivity.
    + split; [reflexivity|].
      eexists [_; _]. split; [reflexivity|]. reflexivity.
  - split; [reflexivity|]. eexists [_]. split; [reflexivity|]. reflexivity.
Qed.

(** C7.  Once the pre-signed upload target is obtained, [uploadImage]
    returns its [uploadId] whatever the transfer to the pre-signed URL does:
    the fields may fail to parse, the XMLHttpRequest may throw, error out or
    end with any status.  A failed transfer leaves a warning or an error in
    the log and nothing else. *)
Theorem C7_uploadImage_returns_reserved_id :
  forall imageBase64 w uploadId uploadUrl fieldsString w1,
    prepareUpload imageBase64 w
      = (Normal (Some (uploadId, uploadUrl, fieldsString)), w1) ->
    fst (uploadImage imageBase64 w) = Normal (Some uploadId)
    /\ exists entries,
         logged (snd (uploadImage imageBase64 w)) = (entries ++ logged w1)%list
         /\ (transferFailed (browser w1) (List.length (uploads w1)) fieldsString
               = true ->
             existsb problem entries = true).
Proof.
  intros imageBase64 w uploadId uploadUrl fieldsString w1 H.
  destruct (transferToTarget_spec uploadId uploadUrl fieldsString w1) as [T L].
  unfold uploadImage, try_catch, bind. rewrite H.
  destruct (transferToTarget uploadId uploadUrl fieldsString w1) as [[r|e] w2];
    cbn in T; [|discriminate].
  cbn [fst snd] in *. split; [exact T|exact L].
Qed.

Lemma C7_uploadImage_returns_reserved_id_witness :
  fst (uploadImage "aGVsbG8=" (initial uploadRefused)) = Normal (Some "upload-7")
  /\ fst (uploadImage "aGVsbG8=" (initial uploadDropped)) = Normal (Some "upload-7").
Proof.
  split.
  - eapply (proj1 (C7_uploadImage_returns_reserved_id "aGVsbG8="
                     (initial uploadRefused) "upload-7" _ _ _ _)).
  - eapply (proj1 (C7_uploadImage_returns_reserved_id "aGVsbG8="
                     (initial uploadDropped) "upload-7" _ _ _ _)).
  Unshelve.
  all: try (vm_compute; reflexivity).
Defined.

(** C10.  Called with the empty string, [uploadImage] returns [null] at
    once: no request is fetched and no XMLHttpRequest is sent. *)
Theorem C10_uploadImage_empty_string :
  forall w,
    fst (uploadImage "" w) = Normal None
    /\ requests (snd (uploadImage "" w)) = requests w
    /\ uploads (snd (uploadImage "" w)) = uploads w.
Proof. intros w. cbn. auto. Qed.

End Uploading.


(* ================================================================= *)
(** ** Splitting the description *)

Section Splitting.

Import Text.

Lemma afterMarker_absent p text :
  ~ occursIn p text -> afterMarker p text = None.
Proof.
  induction text as [|c text IH]; intros H; cbn.
  - destruct (startsWithIgnoreCase p []) eqn:E; [|reflexivity].
    exfalso; apply H. exists [], []. auto.
  - destruct (startsWithIgnoreCase p (c :: text)) eqn:E.
    + exfalso; apply H. exists [], (c :: text). auto.
    + apply IH. intros (pre & post & -> & Hp).
      apply H. exists (c :: pre), post. auto.
Qed.

Lemma afterMarker_present p text :
  afterMarker p text = None -> ~ occursIn p text.
Proof.
  intros H (pre & post & -> & Hp).
  induction pre as [|c pre IH]; cbn [app] in H.
  - destruct post; cbn in H; rewrite Hp in H; discriminate.
  - cbn in H. destruct (startsWithIgnoreCase p (c :: pre ++ post)); [discriminate|].
    apply IH, H.
Qed.

Lemma findEnglish_absent lines :
  forall before,
    (forall line, In line lines -> startsEnglish line = false) ->
    findEnglish before lines = None.
Proof.
  induction lines as [|line lines IH]; intros before H; cbn; [reflexivity|].
  rewrite (H line) by (left; reflexivity).
  apply IH. intros l Hl. apply H. right; exact Hl.
Qed.

Lemma replaceBlankLines_same fuel :
  forall s, ~ hasBlankLine s -> replaceBlankLines fuel s = s.
Proof.
  induction fuel as [|fuel IH]; intros s H; [destruct s; reflexivity|].
  destruct s as [|c s]; [reflexivity|]. cbn.
  assert (Hs : ~ hasBlankLine s).
  { intros (pre & post & n & -> & Hn). apply H.
    exists (c :: pre), post, n. auto. }
  destruct (c =? NL) eqn:Ec.
  - apply Z.eqb_eq in Ec; subst c.
    destruct (spacesThenNewline s) as [n|] eqn:En.
    + exfalso; apply H. exists [], s, n. auto.
    + now rewrite IH.
  - now rewrite IH.
Qed.

Lemma leadingNewlines_blank s :
  (2 <= leadingNewlines s)%nat -> hasBlankLine s.
Proof.
  destruct s as [|a [|b s]]; cbn.
  - lia.
  - destruct (a =? NL); cbn; lia.
  - destruct (a =? NL) eqn:Ea; [|lia].
    destruct (b =? NL) eqn:Eb; [|lia].
    intros _. apply Z.eqb_eq in Ea, Eb; subst.
    exists [], (NL :: s).
    cbn. destruct (spacesThenNewline s) as [n|]; eauto.
Qed.

Lemma replaceNewlineRuns_same fuel :
  forall s, ~ hasBlankLine s -> replaceNewlineRuns fuel s = s.
Proof.
  induction fuel as [|fuel IH]; intros s H; [destruct s; reflexivity|].
  destruct s as [|c s]; [reflexivity|].
  cbn [replaceNewlineRuns].
  destruct (3 <=? leadingNewlines (c :: s))%nat eqn:E.
  - exfalso; apply H, leadingNewlines_blank.
    apply Nat.leb_le in E. lia.
  - rewrite IH; [reflexivity|].
    intros (pre & post & n & -> & Hn). apply H.
    exists (c :: pre), post, n. auto.
Qed.

Lemma compress_same s : ~ hasBlankLine s -> compress s = s.
Proof.
  intros H. unfold compress.
  rewrite (replaceBlankLines_same _ s H).
  apply replaceNewlineRuns_same, H.
Qed.

(** C9 (counterexample).  A text with no marker and no long ASCII line, but
    with an empty line in it: both segments come back without the empty
    line, so neither equals the text. *)
Lemma C9_blank_line_is_dropped :
  ~ occursIn chineseMarker twoParagraphs
  /\ ~ occursIn englishMarker twoParagraphs
  /\ noLongAsciiLine twoParagraphs
  /\ chineseText (separateChineseAndEnglishText twoParagraphs) <> twoParagraphs
  /\ englishText (separateChineseAndEnglishText twoParagraphs) <> twoParagraphs.
Proof.
  split; [|split; [|split; [|split]]].
  - apply afterMarker_present. reflexivity.
  - apply afterMarker_present. reflexivity.
  - intros line [<-|[<-|[<-|[]]]]; reflexivity.
  - vm_compute. discriminate.
  - vm_compute. discriminate.
Qed.

(** C9 (amended).  For a text in which neither marker occurs (case ignored)
    and no line passes the English-line test with more than ten characters
    after trimming, both segments are the text with its blank lines
    compressed; they are the text itself when it has no blank line. *)
Theorem C9_unsplit_text_is_compressed :
  forall text,
    ~ occursIn chineseMarker text ->
    ~ occursIn englishMarker text ->
    (forall line, In line (splitLines text) -> startsEnglish line = false) ->
    separateChineseAndEnglishText text
    = {| chineseText := compress text; englishText := compress text |}
    /\ (~ hasBlankLine text -> compress text = text).
Proof.
  intros text Hc He Hl. split; [|apply compress_same].
  unfold separateChineseAndEnglishText, chineseMatch, englishMatch.
  rewrite (afterMarker_absent _ _ Hc), (afterMarker_absent _ _ He).
  cbn [option_map nonEmpty negb andb].
  now rewrite (findEnglish_absent _ [] Hl).
Qed.

Lemma C9_unsplit_text_is_compressed_witness :
  separateChineseAndEnglishText greeting
  = {| chineseText := greeting; englishText := greeting |}.
Proof.
  destruct (C9_unsplit_text_is_compressed greeting) as [E C].
  - apply afterMarker_present. reflexivity.
  - apply afterMarker_present. reflexivity.
  - intros line [<-|[]]. reflexivity.
  - rewrite E, C; [reflexivity|].
    intros (pre & post & n & E' & _).
    destruct pre as [|a [|b [|c [|d [|e [|f pre]]]]]]; discriminate E'.
Defined.

End Splitting.


(* ================================================================= *)
(** ** Rounding to binary64 *)

(** The operations of [SpecFloat] round the exact result to the nearest
    binary64 number.  What the claims need of this is monotonicity: a bound
    that is itself a binary64 number survives the rounding. *)

Local Open Scope Z_scope.

(** *** Powers of two *)

Lemma pow2_pos e : (0 < pow2 e)%R.
Proof. apply powerRZ_lt; lra. Qed.

Lemma pow2_add a b : pow2 (a + b) = (pow2 a * pow2 b)%R.
Proof. apply powerRZ_add; lra. Qed.

Lemma pow2_0 : pow2 0 = 1%R.
Proof. reflexivity. Qed.

Lemma pow2_opp a : pow2 (- a) = (/ pow2 a)%R.
Proof. apply powerRZ_neg'. Qed.

Lemma pow2_sub a b : pow2 (a - b) = (pow2 a / pow2 b)%R.
Proof. unfold Z.sub. rewrite pow2_add, pow2_opp. reflexivity. Qed.

Lemma pow2_IZR n : 0 <= n -> pow2 n = IZR (2 ^ n).
Proof.
  intros H. unfold pow2. rewrite <- (Z2Nat.id n H) at 1.
  rewrite <- pow_powerRZ. rewrite pow_IZR. now rewrite Z2Nat.id.
Qed.

Lemma pow2_succ a : pow2 (a + 1) = (2 * pow2 a)%R.
Proof. rewrite pow2_add. change (pow2 1) with (2 * 1)%R. lra. Qed.

Lemma pow2_le a b : a <= b -> (pow2 a <= pow2 b)%R.
Proof.
  intros H. replace b with (a + (b - a)) by lia.
  rewrite pow2_add, (pow2_IZR (b - a)) by lia.
  assert (H0 : 1 <= 2 ^ (b - a)) by (pose proof (Z.pow_pos_nonneg 2 (b - a)); lia).
  apply IZR_le in H0. pose proof (pow2_pos a). nra.
Qed.

Lemma pow2_lt a b : a < b -> (pow2 a < pow2 b)%R.
Proof.
  intros H. replace b with (a + (b - a)) by lia.
  rewrite pow2_add, (pow2_IZR (b - a)) by lia.
  assert (2 ^ 1 <= 2 ^ (b - a)) by (apply Z.pow_le_mono_r; lia).
  change (2 ^ 1) with 2 in H0.
  apply IZR_le in H0. pose proof (pow2_pos a). nra.
Qed.

(** *** Binary digits *)

Lemma digits2_pos_size p : digits2_pos p = Pos.size p.
Proof. induction p; cbn; congruence. Qed.

Lemma digits2_pos_bounds p :
  2 ^ (Zpos (digits2_pos p) - 1) <= Zpos p < 2 ^ Zpos (digits2_pos p).
Proof.
  rewrite digits2_pos_size. split.
  - pose proof (Pos.size_le p) as H.
    assert (2 ^ Zpos (Pos.size p) <= 2 * Zpos p).
    { change (2 * Zpos p) with (Zpos p~0). 
      rewrite <- Pos2Z.inj_pow. apply Pos2Z.pos_le_pos. exact H. }
    replace (Zpos (Pos.size p)) with (Zpos (Pos.size p) - 1 + 1) in H0 by lia.
    rewrite Z.pow_add_r in H0 by lia. lia.
  - pose proof (Pos.size_gt p) as H.
    rewrite <- Pos2Z.inj_pow. apply Pos2Z.pos_lt_pos. exact H.
Qed.

Lemma Zdigits2_bounds m :
  0 < m -> 2 ^ (Zdigits2 m - 1) <= m < 2 ^ Zdigits2 m.
Proof. destruct m; try lia. intros _. apply digits2_pos_bounds. Qed.

Lemma Zdigits2_nonneg m : 0 <= Zdigits2 m.
Proof. destruct m; cbn; lia. Qed.

Lemma Zdigits2_unique m d :
  0 < m -> 2 ^ (d - 1) <= m < 2 ^ d -> Zdigits2 m = d.
Proof.
  intros Hm [H1 H2]. pose proof (Zdigits2_bounds m Hm) as [H3 H4].
  pose proof (Zdigits2_nonneg m).
  assert (0 <= d). { destruct (Z_lt_le_dec d 0); [|lia]. rewrite Z.pow_neg_r in H2; lia. }
  destruct (Z_lt_le_dec (Zdigits2 m) d).
  - assert (2 ^ Zdigits2 m <= 2 ^ (d - 1)) by (apply Z.pow_le_mono_r; lia). lia.
  - destruct (Z_lt_le_dec d (Zdigits2 m)); [|lia].
    assert (2 ^ d <= 2 ^ (Zdigits2 m - 1)) by (apply Z.pow_le_mono_r; lia). lia.
Qed.

Lemma shr_1_inv r y :
  shr_inv r y -> shr_inv (shr_1 r) (y / 2) /\ shr_m (shr_1 r) = shr_m r / 2.
Proof.
  destruct r as [m rb sb]. unfold shr_inv. cbn [shr_m]. intros [Hm Hl].
  destruct m as [|p|p]; [| |lia].
  - cbn. repeat split; try lia.
    destruct rb, sb; cbn in *; lra.
  - assert (E : forall q, IZR (Zpos q~0) = (2 * IZR (Zpos q))%R) by (intros; apply IZR_POS_xO).
    assert (E1 : forall q, IZR (Zpos q~1) = (1 + 2 * IZR (Zpos q))%R) by (intros; apply IZR_POS_xI).
    destruct p as [q|q|]; cbn [shr_1 shr_m].
    + split; [split; [lia|]|].
      * destruct rb, sb; cbn in *; rewrite E1 in Hl; lra.
      * rewrite Pos2Z.inj_xI. apply Z.div_unique with (r := 1); lia.
    + split; [split; [lia|]|].
      * destruct rb, sb; cbn in *; rewrite E in Hl; lra.
      * rewrite Pos2Z.inj_xO. apply Z.div_unique with (r := 0); lia.
    + split; [split; [lia|]|].
      * destruct rb, sb; cbn in *; lra.
      * reflexivity.
Qed.

Lemma iter_pos_shr_1 p : forall r y,
  shr_inv r y ->
  shr_inv (iter_pos shr_1 p r) (y / IZR (2 ^ Zpos p))
  /\ shr_m (iter_pos shr_1 p r) = shr_m r / 2 ^ Zpos p.
Proof.
  induction p as [p IH|p IH|]; intros r y H; cbn [iter_pos].
  - destruct (shr_1_inv r y H) as [H1 E1].
    destruct (IH _ _ H1) as [H2 E2].
    destruct (IH _ _ H2) as [H3 E3].
    assert (P : 2 ^ Zpos p~1 = 2 * 2 ^ Zpos p * 2 ^ Zpos p).
    { replace (Zpos p~1) with (Zpos p + Zpos p + 1) by lia.
      rewrite !Z.pow_add_r by lia. change (2 ^ 1) with 2. ring. }
    assert (0 < 2 ^ Zpos p) by (apply Z.pow_pos_nonneg; lia).
    split.
    + rewrite P. rewrite !mult_IZR.
      replace (y / (2 * IZR (2 ^ Zpos p) * IZR (2 ^ Zpos p)))%R
        with (y / 2 / IZR (2 ^ Zpos p) / IZR (2 ^ Zpos p))%R; [exact H3|].
      apply IZR_lt in H0. field. lra.
    + rewrite E3, E2, E1, P. rewrite !Z.div_div by lia. f_equal; ring.
  - destruct (IH _ _ H) as [H2 E2].
    destruct (IH _ _ H2) as [H3 E3].
    assert (P : 2 ^ Zpos p~0 = 2 ^ Zpos p * 2 ^ Zpos p).
    { replace (Zpos p~0) with (Zpos p + Zpos p) by lia.
      now rewrite Z.pow_add_r by lia. }
    assert (0 < 2 ^ Zpos p) by (apply Z.pow_pos_nonneg; lia).
    split.
    + rewrite P. rewrite !mult_IZR.
      replace (y / (IZR (2 ^ Zpos p) * IZR (2 ^ Zpos p)))%R
        with (y / IZR (2 ^ Zpos p) / IZR (2 ^ Zpos p))%R; [exact H3|].
      apply IZR_lt in H0. field. lra.
    + rewrite E3, E2, P. rewrite !Z.div_div by lia. reflexivity.
  - change (2 ^ 1) with 2. apply shr_1_inv, H.
Qed.

Lemma fexp64_eq e : fexp64 e = Z.max (e - 53) (-1074).
Proof. reflexivity. Qed.

Lemma loc_of_shr_record_of_loc m l :
  loc_of_shr_record (shr_record_of_loc m l) = l.
Proof. destruct l as [|[]]; reflexivity. Qed.

Lemma shr_m_shr_record_of_loc m l : shr_m (shr_record_of_loc m l) = m.
Proof. destruct l as [|[]]; reflexivity. Qed.

Lemma shr_spec m e l y n :
  0 <= m -> located m l y ->
  exists r,
    shr (shr_record_of_loc m l) e n = (r, e + Z.max n 0)
    /\ shr_inv r (y / IZR (2 ^ Z.max n 0))
    /\ shr_m r = m / 2 ^ Z.max n 0.
Proof.
  intros Hm Hl.
  assert (I : shr_inv (shr_record_of_loc m l) y).
  { split; rewrite ?shr_m_shr_record_of_loc, ?loc_of_shr_record_of_loc; assumption. }
  destruct n as [|p|p]; cbn [shr].
  - exists (shr_record_of_loc m l). rewrite Z.max_id. cbn [Z.pow].
    rewrite Z.add_0_r, Z.div_1_r, shr_m_shr_record_of_loc.
    repeat split; try apply I. 
    + destruct I as [_ I]. replace (y / 1)%R with y by field. exact I.
  - exists (iter_pos shr_1 p (shr_record_of_loc m l)).
    replace (Z.max (Zpos p) 0) with (Zpos p) by lia.
    destruct (iter_pos_shr_1 p _ _ I) as [I' E].
    rewrite shr_m_shr_record_of_loc in E. auto.
  - exists (shr_record_of_loc m l).
    replace (Z.max (Zneg p) 0) with 0 by lia. cbn [Z.pow].
    rewrite Z.add_0_r, Z.div_1_r, shr_m_shr_record_of_loc.
    repeat split; try apply I.
    destruct I as [_ I]. replace (y / 1)%R with y by field. exact I.
Qed.

Lemma round_nearest_even_located m l y :
  located m l y ->
  let m1 := round_nearest_even m l in
  m <= m1 <= m + 1
  /\ (forall k, (y <= IZR k)%R -> m1 <= k)
  /\ (forall k, (IZR k <= y)%R -> k <= m1).
Proof.
  intros H. cbn zeta.
  assert (A : forall k, (y < IZR k + 1)%R -> (IZR m <= y)%R -> m <= k).
  { intros k H1 H2. apply Z.lt_succ_r. apply lt_IZR. rewrite succ_IZR. lra. }
  assert (B : forall k, (IZR k <= y)%R -> (y < IZR m + 1)%R -> k <= m).
  { intros k H1 H2. apply Z.lt_succ_r. apply lt_IZR. rewrite succ_IZR. lra. }
  assert (C : forall k, (y <= IZR k)%R -> (IZR m < y)%R -> m + 1 <= k).
  { intros k H1 H2. apply Z.le_succ_l. apply lt_IZR. lra. }
  destruct l as [|[]]; cbn in *.
  - subst y. repeat split; try lia; intros k Hk; apply le_IZR; lra.
  - destruct (Z.even m); repeat split; try lia; intros k Hk.
    + apply A; lra.
    + apply B; lra.
    + apply C; lra.
    + pose proof (B k Hk ltac:(lra)). lia.
  - repeat split; try lia; intros k Hk.
    + apply A; lra.
    + apply B; lra.
  - repeat split; try lia; intros k Hk.
    + apply C; lra.
    + pose proof (B k Hk ltac:(lra)). lia.
Qed.

Lemma Zdigits2_le m d : 0 <= d -> 0 <= m < 2 ^ d -> Zdigits2 m <= d.
Proof.
  intros Hd [H0 H1]. destruct (Z.eq_dec m 0) as [->|Hm]; [cbn; lia|].
  pose proof (Zdigits2_bounds m ltac:(lia)) as [H2 _].
  destruct (Z_lt_le_dec d (Zdigits2 m)); [|lia].
  assert (2 ^ d <= 2 ^ (Zdigits2 m - 1)) by (apply Z.pow_le_mono_r; lia). lia.
Qed.

Lemma Zdigits2_ge m d : 0 <= d -> 2 ^ d <= m -> d + 1 <= Zdigits2 m.
Proof.
  intros Hd H. assert (0 < m) by (pose proof (Z.pow_pos_nonneg 2 d); lia).
  pose proof (Zdigits2_bounds m H0) as [_ H2].
  pose proof (Zdigits2_nonneg m).
  destruct (Z_lt_le_dec (Zdigits2 m) (d + 1)); [|lia].
  assert (2 ^ Zdigits2 m <= 2 ^ d) by (apply Z.pow_le_mono_r; lia). lia.
Qed.

Theorem binary_round_aux_spec s m e l y :
  0 <= m -> located m l y -> e <= fexp64 (Zdigits2 m + e) ->
  let e1 := fexp64 (Zdigits2 m + e) in
  exists m1,
    binary_round_aux prec emax s m e l = pack s m1 e1
    /\ 0 <= m1 <= 2 ^ prec
    /\ (emin64 < e1 ->
        2 ^ (prec - 1) <= m1
        /\ (IZR (2 ^ (prec - 1)) * pow2 e1 <= y * pow2 e)%R)
    /\ (forall k, (y * pow2 e <= IZR k * pow2 e1)%R -> m1 <= k)
    /\ (forall k, (IZR k * pow2 e1 <= y * pow2 e)%R -> k <= m1).
Proof.
  intros Hm Hl Hn e1.
  set (n := e1 - e). assert (Hn0 : 0 <= n) by (unfold n, e1; lia).
  destruct (shr_spec m e l y n Hm Hl) as [r [E [[Hr0 Hrl] Hrm]]].
  replace (Z.max n 0) with n in * by lia.
  replace (e + n) with e1 in E by (unfold n; lia).
  pose proof (Zdigits2_nonneg m) as Hd0.
  assert (P2n : 0 < 2 ^ n) by (apply Z.pow_pos_nonneg; lia).
  (* the shifted mantissa has at most [prec] digits *)
  assert (Hlt : shr_m r < 2 ^ prec).
  { rewrite Hrm. apply Z.div_lt_upper_bound; [lia|].
    rewrite <- Z.pow_add_r by (unfold prec; lia).
    destruct (Z.eq_dec m 0) as [->|Hm0].
    - apply Z.pow_pos_nonneg; unfold prec; lia.
    - pose proof (Zdigits2_bounds m ltac:(lia)) as [_ Hb].
      eapply Z.lt_le_trans; [exact Hb|].
      apply Z.pow_le_mono_r; [lia|].
      unfold n, e1. rewrite fexp64_eq. unfold prec. lia. }
  destruct (round_nearest_even_located _ _ _ Hrl) as [Hm1 [Hup Hlo]].
  set (m1 := round_nearest_even (shr_m r) (loc_of_shr_record r)) in *.
  assert (Hy : (y * pow2 e = y / IZR (2 ^ n) * pow2 e1)%R).
  { replace e1 with (e + n) by (unfold n; lia).
    rewrite pow2_add, (pow2_IZR n Hn0).
    apply IZR_lt in P2n. field. lra. }
  exists m1. split; [|split; [lia|split; [|split]]].
  - (* the shape of the result *)
    unfold binary_round_aux, shr_fexp. fold (fexp64 (Zdigits2 m + e)). fold e1. fold n.
    rewrite E. fold m1.
    destruct (shr_spec m1 e1 loc_Exact (IZR m1)
                (fexp prec emax (Zdigits2 m1 + e1) - e1) ltac:(lia) eq_refl)
      as [r2 [E2 [_ Hr2]]].
    rewrite E2.
    assert (He1 : emin64 <= e1) by (unfold e1; rewrite fexp64_eq; unfold emin64, emin, emax, prec; lia).
    destruct (Z.eq_dec m1 (2 ^ prec)) as [Htop|Htop].
    + rewrite Htop in *.
      replace (fexp prec emax (Zdigits2 (2 ^ prec) + e1) - e1) with 1 in *.
      2:{ change (Zdigits2 (2 ^ prec)) with 54. fold (fexp64 (54 + e1)).
          rewrite fexp64_eq. unfold emin64, emin, emax, prec in He1. lia. }
      change (Z.max 1 0) with 1 in *. rewrite Hr2.
      change (2 ^ prec / 2 ^ 1) with (2 ^ (prec - 1)).
      unfold pack. change (2 ^ prec) with (Zpos (Z.to_pos (2 ^ prec))).
      cbv iota. rewrite Z.eqb_refl. reflexivity.
    + assert (Hd1 : Zdigits2 m1 <= prec) by (apply Zdigits2_le; unfold prec in *; lia).
      replace (Z.max (fexp prec emax (Zdigits2 m1 + e1) - e1) 0) with 0 in *.
      2:{ fold (fexp64 (Zdigits2 m1 + e1)). rewrite fexp64_eq.
          unfold emin64, emin, emax, prec in *. lia. }
      cbn [Z.pow] in Hr2. rewrite Z.div_1_r in Hr2. rewrite Hr2, Z.add_0_r.
      unfold pack. destruct m1 as [|p|p]; [reflexivity| |lia].
      apply Z.eqb_neq in Htop. rewrite Htop. reflexivity.
  - (* a normal exponent: the mantissa has [prec] digits *)
    intros He. 
    assert (En : e1 = Zdigits2 m + e - prec).
    { unfold e1 in *. rewrite fexp64_eq in *. unfold emin64, emin, emax, prec in *. lia. }
    assert (Hmpos : 0 < m).
    { destruct (Z.eq_dec m 0) as [->|]; [|lia].
      cbn in En. unfold n in Hn0. unfold prec in En. lia. }
    pose proof (Zdigits2_bounds m Hmpos) as [Hb _].
    assert (Hs : 2 ^ (prec - 1) <= shr_m r).
    { rewrite Hrm. apply Z.div_le_lower_bound; [lia|].
      rewrite Z.mul_comm, <- Z.pow_add_r by (unfold prec; lia).
      replace (prec - 1 + n) with (Zdigits2 m - 1) by (unfold n; lia).
      exact Hb. }
    split; [lia|].
    rewrite Hy. apply IZR_le in Hs.
    assert ((IZR (shr_m r) <= y / IZR (2 ^ n))%R).
    { destruct (loc_of_shr_record r) as [|[]]; cbn in Hrl; lra. }
    pose proof (pow2_pos e1). nra.
  - intros k Hk. apply Hup. rewrite Hy in Hk.
    pose proof (pow2_pos e1). nra.
  - intros k Hk. apply Hlo. rewrite Hy in Hk.
    pose proof (pow2_pos e1). nra.
Qed.

Lemma bounded_spec m e :
  bounded prec emax m e = true <->
  fexp64 (Zpos (digits2_pos m) + e) = e /\ e <= emax - prec.
Proof.
  unfold bounded, canonical_mantissa. rewrite andb_true_iff, Z.eqb_eq, Z.leb_le.
  reflexivity.
Qed.

Lemma bounded_facts m e :
  bounded prec emax m e = true ->
  Zpos m < 2 ^ prec /\ emin64 <= e <= emax - prec
  /\ (emin64 < e -> 2 ^ (prec - 1) <= Zpos m).
Proof.
  rewrite bounded_spec. intros [H1 H2].
  pose proof (digits2_pos_bounds m) as [Hb1 Hb2].
  rewrite fexp64_eq in H1. unfold emin64, emin, emax, prec in *.
  assert (Hd : Zpos (digits2_pos m) <= 53) by lia.
  split; [|split; [lia|]].
  - eapply Z.lt_le_trans; [exact Hb2|]. apply Z.pow_le_mono_r; lia.
  - intros He. assert (Zpos (digits2_pos m) = 53) by lia.
    rewrite H in Hb1. exact Hb1.
Qed.

Lemma valueOf_pos m e : (0 < valueOf (S754_finite false m e))%R.
Proof.
  cbn. pose proof (pow2_pos e). assert (0 < IZR (Zpos m))%R by (apply IZR_lt; lia). nra.
Qed.

Lemma finitePos_pos x : finitePos x -> (0 < valueOf x)%R.
Proof. intros (m & e & -> & _). apply valueOf_pos. Qed.

(** Canonical numbers are ordered first by exponent. *)
Lemma canonical_exponent_lt m1 e1 m2 e2 :
  bounded prec emax m1 e1 = true -> bounded prec emax m2 e2 = true ->
  e1 < e2 ->
  (IZR (Zpos m1) * pow2 e1 < IZR (Zpos m2) * pow2 e2)%R.
Proof.
  intros H1 H2 He.
  destruct (bounded_facts _ _ H1) as [A1 [B1 _]].
  destruct (bounded_facts _ _ H2) as [_ [B2 C2]].
  specialize (C2 ltac:(lia)).
  apply IZR_lt in A1. apply IZR_le in C2.
  replace e2 with (e1 + 1 + (e2 - e1 - 1)) by lia.
  rewrite !pow2_add. change (pow2 1) with (2 * 1)%R.
  assert (1 <= pow2 (e2 - e1 - 1))%R.
  { change 1%R with (pow2 0). apply pow2_le. lia. }
  pose proof (pow2_pos e1).
  change (2 ^ prec) with (2 * 2 ^ (prec - 1)) in A1. rewrite mult_IZR in A1.
  assert (0 < IZR (2 ^ (prec - 1)))%R by (apply IZR_lt; reflexivity).
  assert (0 < IZR (Zpos m1))%R by (apply IZR_lt; lia).
  set (t := pow2 e1) in *. set (q := pow2 (e2 - e1 - 1)) in *.
  set (P := IZR (2 ^ (prec - 1))) in *.
  set (a := IZR (Zpos m1)) in *. set (b := IZR (Zpos m2)) in *.
  assert (a * t < 2 * P * t)%R by nra.
  assert (2 * P * t <= 2 * b * t)%R by nra.
  assert (0 < b * t)%R by nra.
  assert (2 * (b * t) * 1 <= 2 * (b * t) * q)%R by nra.
  nra.
Qed.

Lemma SFcompare_finite m1 e1 m2 e2 :
  bounded prec emax m1 e1 = true -> bounded prec emax m2 e2 = true ->
  match SFcompare (S754_finite false m1 e1) (S754_finite false m2 e2) with
  | Some Lt => (valueOf (S754_finite false m1 e1) < valueOf (S754_finite false m2 e2))%R
  | Some Eq => S754_finite false m1 e1 = S754_finite false m2 e2
  | Some Gt => (valueOf (S754_finite false m2 e2) < valueOf (S754_finite false m1 e1))%R
  | None => False
  end.
Proof.
  intros H1 H2. cbn [SFcompare valueOf signed].
  destruct (Z.compare_spec e1 e2) as [->|He|He].
  - fold (Pos.compare m1 m2).
    destruct (Pos.compare_spec m1 m2) as [->|Hm|Hm].
    + reflexivity.
    + pose proof (pow2_pos e2). assert (IZR (Zpos m1) < IZR (Zpos m2))%R by (apply IZR_lt; lia). nra.
    + pose proof (pow2_pos e2). assert (IZR (Zpos m2) < IZR (Zpos m1))%R by (apply IZR_lt; lia). nra.
  - apply canonical_exponent_lt; assumption.
  - apply canonical_exponent_lt; assumption.
Qed.

Lemma SFleb_finite x y :
  finitePos x -> finitePos y ->
  SFleb x y = true <-> (valueOf x <= valueOf y)%R.
Proof.
  intros (m1 & e1 & -> & H1) (m2 & e2 & -> & H2).
  pose proof (SFcompare_finite m1 e1 m2 e2 H1 H2) as H.
  unfold SFleb.
  destruct (SFcompare (S754_finite false m1 e1) (S754_finite false m2 e2)) as [[]|].
  - rewrite H. split; [lra|reflexivity].
  - split; [lra|reflexivity].
  - split; [discriminate|lra].
  - contradiction.
Qed.

Lemma SFltb_finite x y :
  finitePos x -> finitePos y ->
  SFltb x y = true <-> (valueOf x < valueOf y)%R.
Proof.
  intros (m1 & e1 & -> & H1) (m2 & e2 & -> & H2).
  pose proof (SFcompare_finite m1 e1 m2 e2 H1 H2) as H.
  unfold SFltb.
  destruct (SFcompare (S754_finite false m1 e1) (S754_finite false m2 e2)) as [[]|].
  - rewrite H. split; [discriminate|lra].
  - split; [lra|reflexivity].
  - split; [discriminate|lra].
  - contradiction.
Qed.

(** What [pack] returns. *)
Lemma pack_cases m1 e1 :
  0 <= m1 <= 2 ^ prec -> emin64 <= e1 ->
  (emin64 < e1 -> 2 ^ (prec - 1) <= m1) ->
  (m1 = 0 /\ pack false m1 e1 = S754_zero false)
  \/ (pack false m1 e1 = S754_infinity false
      /\ (pow2 emax <= IZR m1 * pow2 e1)%R)
  \/ (finitePos (pack false m1 e1)
      /\ valueOf (pack false m1 e1) = (IZR m1 * pow2 e1)%R).
Proof.
  intros Hm He Hn.
  destruct m1 as [|p|p]; [left; auto| |lia].
  right. unfold pack.
  destruct (Z.eqb_spec (Zpos p) (2 ^ prec)) as [E|E].
  - rewrite E.
    destruct (Z.leb_spec (e1 + 1) (emax - prec)) as [L|L].
    + right. split.
      * eexists _, _. split; [reflexivity|].
        apply bounded_spec. split; [|exact L].
        change (Zpos (digits2_pos (Z.to_pos (2 ^ (prec - 1))))) with 53.
        rewrite fexp64_eq. unfold emin64, emin, emax, prec in *. lia.
      * cbn [valueOf signed]. rewrite pow2_succ.
        change (Zpos (Z.to_pos (2 ^ (prec - 1)))) with (2 ^ (prec - 1)).
        change (2 ^ prec) with (2 * 2 ^ (prec - 1)). rewrite mult_IZR. ring.
    + left. split; [reflexivity|].
      replace emax with (prec + (emax - prec)) at 1 by lia.
      rewrite pow2_add, (pow2_IZR prec) by (unfold prec; lia).
      assert (pow2 (emax - prec) <= pow2 e1)%R by (apply pow2_le; lia).
      assert (0 < IZR (2 ^ prec))%R by (apply IZR_lt; reflexivity).
      nra.
  - destruct (Z.leb_spec e1 (emax - prec)) as [L|L].
    + right. split.
      * eexists _, _. split; [reflexivity|].
        apply bounded_spec. split; [|exact L].
        fold (Zdigits2 (Zpos p)).
        rewrite fexp64_eq.
        assert (Hd : Zdigits2 (Zpos p) <= prec) by (apply Zdigits2_le; unfold prec in *; lia).
        destruct (Z.eq_dec e1 emin64) as [Ee|Ee].
        -- unfold emin64, emin, emax, prec in *. lia.
        -- specialize (Hn ltac:(lia)).
           pose proof (Zdigits2_ge (Zpos p) (prec - 1) ltac:(unfold prec; lia) Hn).
           unfold emin64, emin, emax, prec in *. lia.
      * reflexivity.
    + left. split; [reflexivity|].
      specialize (Hn ltac:(unfold emin64, emin, emax, prec in *; lia)).
      replace emax with (prec - 1 + (emax - prec + 1)) at 1 by lia.
      rewrite pow2_add, (pow2_IZR (prec - 1)) by (unfold prec; lia).
      assert (pow2 (emax - prec + 1) <= pow2 e1)%R by (apply pow2_le; lia).
      apply IZR_le in Hn.
      assert (0 < IZR (2 ^ (prec - 1)))%R by (apply IZR_lt; reflexivity).
      pose proof (pow2_pos (emax - prec + 1)).
      nra.
Qed.

Lemma finitePos_below_overflow x : finitePos x -> (valueOf x < pow2 emax)%R.
Proof.
  intros (m & e & -> & H). destruct (bounded_facts _ _ H) as [A [B _]].
  cbn [valueOf signed].
  replace emax with (prec + (emax - prec)) by lia.
  rewrite pow2_add, (pow2_IZR prec) by (unfold prec; lia).
  apply IZR_lt in A.
  assert (pow2 e <= pow2 (emax - prec))%R by (apply pow2_le; lia).
  pose proof (pow2_pos e).
  assert (0 < IZR (Zpos m))%R by (apply IZR_lt; lia).
  nra.
Qed.

(** A canonical number on the grid of a smaller exponent. *)
Lemma on_grid m e e1 :
  e1 <= e ->
  (IZR (Zpos m * 2 ^ (e - e1)) * pow2 e1 = IZR (Zpos m) * pow2 e)%R.
Proof.
  intros H. rewrite mult_IZR, <- (pow2_IZR (e - e1)) by lia.
  assert (E : pow2 e = (pow2 (e - e1) * pow2 e1)%R)
    by (rewrite <- pow2_add; f_equal; lia).
  rewrite E. ring.
Qed.

Section Rounding.

Variables (m e : Z) (l : location) (y : R).
Hypothesis Hm : 0 <= m.
Hypothesis Hl : located m l y.
Hypothesis He : e <= fexp64 (Zdigits2 m + e).

Theorem round_atMost b :
  finitePos b -> (y * pow2 e <= valueOf b)%R ->
  atMost (binary_round_aux prec emax false m e l) (valueOf b).
Proof.
  intros Hb Hx.
  destruct (binary_round_aux_spec false m e l y Hm Hl He)
    as (m1 & -> & Hm1 & Hnorm & Hup & Hlo).
  set (e1 := fexp64 (Zdigits2 m + e)) in *.
  assert (He1 : emin64 <= e1)
    by (unfold e1; rewrite fexp64_eq; unfold emin64, emin, emax, prec; lia).
  pose proof (finitePos_below_overflow b Hb) as Hov.
  pose proof (finitePos_pos b Hb) as Hbpos.
  destruct Hb as (mb & eb & -> & Hbb).
  destruct (bounded_facts _ _ Hbb) as [Ab [Bb Cb]].
  assert (Hle : (IZR m1 * pow2 e1 <= valueOf (S754_finite false mb eb))%R).
  { destruct (Z_le_gt_dec e1 eb) as [G|G].
    - pose proof (Hup (Zpos mb * 2 ^ (eb - e1))) as K.
      rewrite on_grid in K by lia. specialize (K Hx).
      apply IZR_le in K. cbn [valueOf signed].
      rewrite <- (on_grid mb eb e1) by lia.
      pose proof (pow2_pos e1). nra.
    - exfalso. destruct (Hnorm ltac:(lia)) as [_ Hbig].
      assert (valueOf (S754_finite false mb eb) < IZR (2 ^ (prec - 1)) * pow2 e1)%R; [|lra].
      cbn [valueOf signed]. apply IZR_lt in Ab.
      change (2 ^ prec) with (2 * 2 ^ (prec - 1)) in Ab. rewrite mult_IZR in Ab.
      assert (pow2 (eb + 1) <= pow2 e1)%R by (apply pow2_le; lia).
      rewrite pow2_succ in H. pose proof (pow2_pos eb).
      assert (0 < IZR (2 ^ (prec - 1)))%R by (apply IZR_lt; reflexivity).
      assert (0 < IZR (Zpos mb))%R by (apply IZR_lt; lia).
      nra. }
  destruct (pack_cases m1 e1 Hm1 He1 (fun h => proj1 (Hnorm h)))
    as [[-> ->]|[[-> Hinf]|[Hfin Hval]]].
  - split; [left; reflexivity|]. cbn [valueOf] in *. lra.
  - exfalso. lra.
  - split; [right; exact Hfin|]. rewrite Hval. exact Hle.
Qed.

Theorem round_atLeast b :
  finitePos b -> (valueOf b <= y * pow2 e)%R ->
  atLeast (binary_round_aux prec emax false m e l) (valueOf b).
Proof.
  intros Hb Hx.
  destruct (binary_round_aux_spec false m e l y Hm Hl He)
    as (m1 & -> & Hm1 & Hnorm & Hup & Hlo).
  set (e1 := fexp64 (Zdigits2 m + e)) in *.
  assert (He1 : emin64 <= e1)
    by (unfold e1; rewrite fexp64_eq; unfold emin64, emin, emax, prec; lia).
  pose proof (finitePos_pos b Hb) as Hbpos.
  destruct Hb as (mb & eb & -> & Hbb).
  destruct (bounded_facts _ _ Hbb) as [Ab [Bb Cb]].
  assert (Hle : (valueOf (S754_finite false mb eb) <= IZR m1 * pow2 e1)%R).
  { destruct (Z_le_gt_dec e1 eb) as [G|G].
    - pose proof (Hlo (Zpos mb * 2 ^ (eb - e1))) as K.
      rewrite on_grid in K by lia. specialize (K Hx).
      apply IZR_le in K. cbn [valueOf signed].
      rewrite <- (on_grid mb eb e1) by lia.
      pose proof (pow2_pos e1). nra.
    - destruct (Hnorm ltac:(lia)) as [Hbig _].
      cbn [valueOf signed]. apply IZR_lt in Ab. apply IZR_le in Hbig.
      change (2 ^ prec) with (2 * 2 ^ (prec - 1)) in Ab. rewrite mult_IZR in Ab.
      assert (pow2 (eb + 1) <= pow2 e1)%R by (apply pow2_le; lia).
      rewrite pow2_succ in H. pose proof (pow2_pos eb).
      assert (0 < IZR (2 ^ (prec - 1)))%R by (apply IZR_lt; reflexivity).
      assert (0 < IZR (Zpos mb))%R by (apply IZR_lt; lia).
      nra. }
  destruct (pack_cases m1 e1 Hm1 He1 (fun h => proj1 (Hnorm h)))
    as [[-> ->]|[[-> Hinf]|[Hfin Hval]]].
  - exfalso. cbn [IZR] in Hle. lra.
  - left; reflexivity.
  - right. split; [exact Hfin|]. rewrite Hval. exact Hle.
Qed.

End Rounding.

Lemma fexp64_mono a b : a <= b -> fexp64 a <= fexp64 b.
Proof. rewrite !fexp64_eq. lia. Qed.

Lemma fexp64_ge_emin a : emin64 <= fexp64 a.
Proof. rewrite fexp64_eq. unfold emin64, emin, emax, prec. lia. Qed.

(** *** Multiplication *)

Lemma mul_exponent_ok mx ex my ey :
  bounded prec emax mx ex = true -> bounded prec emax my ey = true ->
  ex + ey <= fexp64 (Zdigits2 (Zpos (mx * my)) + (ex + ey)).
Proof.
  intros Hx Hy.
  destruct (bounded_facts _ _ Hx) as [_ [Bx Cx]].
  destruct (bounded_facts _ _ Hy) as [_ [By Cy]].
  rewrite fexp64_eq.
  destruct (Z.eq_dec ex emin64) as [Ex|Ex]; [destruct (Z.eq_dec ey emin64) as [Ey|Ey]|].
  - unfold emin64, emin, emax, prec in *. lia.
  - specialize (Cy ltac:(lia)).
    assert (prec - 1 + 1 <= Zdigits2 (Zpos (mx * my))).
    { apply Zdigits2_ge; [unfold prec; lia|]. rewrite Pos2Z.inj_mul. nia. }
    unfold emin64, emin, emax, prec in *. lia.
  - specialize (Cx ltac:(lia)).
    assert (prec - 1 + 1 <= Zdigits2 (Zpos (mx * my))).
    { apply Zdigits2_ge; [unfold prec; lia|]. rewrite Pos2Z.inj_mul. nia. }
    unfold emin64, emin, emax, prec in *. lia.
Qed.

Lemma mul_value mx ex my ey :
  (IZR (Zpos (mx * my)) * pow2 (ex + ey)
   = valueOf (S754_finite false mx ex) * valueOf (S754_finite false my ey))%R.
Proof.
  cbn [valueOf signed]. rewrite Pos2Z.inj_mul, mult_IZR, pow2_add. ring.
Qed.

Theorem mul_atLeast x y vx vy b :
  atLeast x vx -> atLeast y vy -> (0 < vx)%R -> (0 < vy)%R ->
  finitePos b -> (valueOf b <= vx * vy)%R ->
  atLeast (mul x y) (valueOf b).
Proof.
  intros [->|[(mx & ex & -> & Hx) Vx]] [->|[(my & ey & -> & Hy) Vy]] Px Py Hb Hv;
    try (left; reflexivity).
  unfold mul. cbn [SFmul xorb].
  apply (round_atLeast _ _ _ (IZR (Zpos (mx * my)))); try reflexivity.
  - lia.
  - apply mul_exponent_ok; assumption.
  - exact Hb.
  - rewrite mul_value. nra.
Qed.

Theorem mul_atMost x y vx vy b :
  atMost x vx -> atMost y vy ->
  finitePos b -> (vx * vy <= valueOf b)%R ->
  atMost (mul x y) (valueOf b).
Proof.
  intros [[->|(mx & ex & -> & Hx)] Vx] [[->|(my & ey & -> & Hy)] Vy] Hb Hv;
    pose proof (finitePos_pos b Hb) as Pb; unfold mul; cbn [SFmul xorb];
    try (split; [left; reflexivity|cbn [valueOf]; lra]).
  apply (round_atMost _ _ _ (IZR (Zpos (mx * my)))); try reflexivity.
  - lia.
  - apply mul_exponent_ok; assumption.
  - exact Hb.
  - rewrite mul_value.
    pose proof (valueOf_pos mx ex). pose proof (valueOf_pos my ey). nra.
Qed.

(** *** Division *)

Lemma new_location_located d r q :
  0 < d -> 0 <= r < d ->
  located q (new_location d r) (IZR (d * q + r) / IZR d).
Proof.
  intros Hd Hr.
  assert (Pd : (0 < IZR d)%R) by (apply IZR_lt; lia).
  assert (E : (IZR (d * q + r) / IZR d = IZR q + IZR r / IZR d)%R).
  { rewrite plus_IZR, mult_IZR. field. lra. }
  rewrite E.
  assert (F : forall c : R, (IZR r / IZR d < c)%R <-> (IZR r < c * IZR d)%R).
  { intros c. split; intros H.
    - apply (Rmult_lt_compat_r (IZR d)) in H; [|lra].
      unfold Rdiv in H. rewrite Rmult_assoc, Rinv_l, Rmult_1_r in H by lra. exact H.
    - apply (Rmult_lt_reg_r (IZR d)); [lra|].
      unfold Rdiv. rewrite Rmult_assoc, Rinv_l, Rmult_1_r by lra. exact H. }
  assert (G : forall c : R, (c < IZR r / IZR d)%R <-> (c * IZR d < IZR r)%R).
  { intros c. split; intros H.
    - apply (Rmult_lt_compat_r (IZR d)) in H; [|lra].
      unfold Rdiv in H. rewrite Rmult_assoc, Rinv_l, Rmult_1_r in H by lra. exact H.
    - apply (Rmult_lt_reg_r (IZR d)); [lra|].
      unfold Rdiv. rewrite Rmult_assoc, Rinv_l, Rmult_1_r by lra. exact H. }
  assert (Pr : (0 <= IZR r)%R) by (apply IZR_le; lia).
  assert (Ld : (IZR r < IZR d)%R) by (apply IZR_lt; lia).
  unfold new_location, new_location_even, new_location_odd. cbv beta.
  change IntDef.Z.eqb with Z.eqb. change IntDef.Z.compare with Z.compare.
  change IntDef.Z.mul with Z.mul. change IntDef.Z.add with Z.add.
  change IntDef.Z.even with Z.even.
  destruct (Z.eq_dec r 0) as [->|Hr0].
  - destruct (Z.even d); cbn [Z.eqb located]; unfold Rdiv; lra.
  - assert (Pr' : (0 < IZR r)%R) by (apply IZR_lt; lia).
    assert (T : (0 < IZR r / IZR d)%R) by (apply G; lra).
    assert (U : (IZR r / IZR d < 1)%R) by (apply F; lra).
    destruct (Z.even d) eqn:Ev; cbv beta; rewrite (proj2 (Z.eqb_neq r 0) Hr0).
    + destruct (Z.compare_spec (2 * r) d) as [C|C|C]; cbn [located].
      * assert (IZR r / IZR d = / 2)%R; [|lra].
        rewrite <- C, mult_IZR. field. lra.
      * split; [lra|]. apply Rplus_lt_compat_l. apply F.
        apply IZR_lt in C. rewrite mult_IZR in C. lra.
      * split; [|lra]. apply Rplus_lt_compat_l. apply G.
        apply IZR_lt in C. rewrite mult_IZR in C. lra.
    + assert (Hodd : 2 * r <> d).
      { intros <-. rewrite Z.even_mul in Ev. discriminate. }
      destruct (Z.compare_spec (2 * r + 1) d) as [C|C|C]; cbn [located].
      * split; [lra|]. apply Rplus_lt_compat_l. apply F.
        assert (2 * r < d) by lia. apply IZR_lt in H. rewrite mult_IZR in H. lra.
      * split; [lra|]. apply Rplus_lt_compat_l. apply F.
        assert (2 * r < d) by lia. apply IZR_lt in H. rewrite mult_IZR in H. lra.
      * split; [|lra]. apply Rplus_lt_compat_l. apply G.
        assert (d < 2 * r) by lia. apply IZR_lt in H. rewrite mult_IZR in H. lra.
Qed.

Ltac stdZ :=
  change IntDef.Z.eqb with Z.eqb in *;
  change IntDef.Z.compare with Z.compare in *;
  change IntDef.Z.mul with Z.mul in *;
  change IntDef.Z.add with Z.add in *;
  change IntDef.Z.sub with Z.sub in *;
  change IntDef.Z.opp with Z.opp in *;
  change IntDef.Z.min with Z.min in *;
  change IntDef.Z.max with Z.max in *;
  change IntDef.Z.even with Z.even in *;
  change IntDef.Z.leb with Z.leb in *;
  change IntDef.Z.shiftl with Z.shiftl in *;
  change IntDef.Z.div_eucl with Z.div_eucl in *.

Lemma div_core_spec m1 e1 m2 e2 :
  0 < m1 -> 0 < m2 ->
  exists q e' l yq,
    SFdiv_core_binary prec emax m1 e1 m2 e2 = (q, e', l)
    /\ 0 <= q /\ located q l yq
    /\ (yq * pow2 e' = (IZR m1 * pow2 e1) / (IZR m2 * pow2 e2))%R
    /\ e' <= fexp64 (Zdigits2 q + e').
Proof.
  intros H1 H2. unfold SFdiv_core_binary. stdZ.
  fold (fexp64 (Zdigits2 m1 + e1 - (Zdigits2 m2 + e2))).
  set (X := Zdigits2 m1 + e1 - (Zdigits2 m2 + e2)).
  set (e' := Z.min (fexp64 X) (e1 - e2)).
  set (s := e1 - e2 - e').
  assert (Hs : 0 <= s) by (unfold s, e'; lia).
  set (m' := match s with Zpos _ => Z.shiftl m1 s | 0 => m1 | Zneg _ => 0 end).
  assert (Hm' : m' = m1 * 2 ^ s).
  { unfold m'. destruct s as [|p|p]; [cbn; lia| |lia].
    apply Z.shiftl_mul_pow2. lia. }
  assert (P2s : 0 < 2 ^ s) by (apply Z.pow_pos_nonneg; lia).
  pose proof (Z_div_mod m' m2 ltac:(lia)) as D.
  destruct (Z.div_eucl m' m2) as [q r]. destruct D as [D Hr].
  assert (Hq : 0 <= q) by nia.
  exists q, e', (new_location m2 r), (IZR m' / IZR m2)%R.
  split; [reflexivity|]. split; [exact Hq|]. split; [|split].
  - rewrite D. apply new_location_located; lia.
  - rewrite Hm', mult_IZR, <- (pow2_IZR s Hs).
    assert (E : pow2 e1 = (pow2 s * pow2 e' * pow2 e2)%R).
    { rewrite <- !pow2_add. f_equal. unfold s. lia. }
    rewrite E. pose proof (pow2_pos e2). pose proof (pow2_pos e').
    assert (0 < IZR m2)%R by (apply IZR_lt; lia).
    field. split; lra.
  - destruct (Z_le_gt_dec e' emin64) as [L|G].
    + pose proof (fexp64_ge_emin (Zdigits2 q + e')). lia.
    + assert (HX : fexp64 X = X - prec).
      { assert (e' <= fexp64 X) by (unfold e'; lia).
        rewrite fexp64_eq in *. unfold emin64, emin, emax, prec in *. lia. }
      assert (He' : e' <= X - prec) by (unfold e'; lia).
      pose proof (Zdigits2_bounds m1 H1) as [B1 _].
      pose proof (Zdigits2_bounds m2 H2) as [_ B2].
      pose proof (Zdigits2_nonneg m1). pose proof (Zdigits2_nonneg m2).
      set (d1 := Zdigits2 m1) in *. set (d2 := Zdigits2 m2) in *.
      assert (Hk : 0 <= d1 - 1 + s - d2) by (unfold s, X, prec in *; lia).
      assert (Hd1 : 1 <= d1).
      { destruct (Z_lt_le_dec d1 1); [|lia].
        replace d1 with 0 in B1 by lia. cbn in B1.
        pose proof (Zdigits2_bounds m1 H1) as [_ B]. fold d1 in B.
        replace d1 with 0 in B by lia. cbn in B. lia. }
      assert (Hpow : 2 ^ (d1 - 1) * 2 ^ s = 2 ^ (d1 - 1 + s - d2) * 2 ^ d2).
      { rewrite <- !Z.pow_add_r by lia. f_equal. lia. }
      assert (Hbig : 2 ^ (d1 - 1 + s - d2) <= q).
      { assert (0 < 2 ^ (d1 - 1 + s - d2)) by (apply Z.pow_pos_nonneg; lia).
        assert (0 < 2 ^ d2) by (apply Z.pow_pos_nonneg; lia).
        nia. }
      pose proof (Zdigits2_ge q _ Hk Hbig) as Hdq.
      eapply Z.le_trans; [|apply fexp64_mono with (a := X)].
      * unfold e'. lia.
      * unfold X. fold d1 d2. unfold s in Hdq. lia.
Qed.

Lemma div_finite mx ex my ey :
  exists q e' l yq,
    div (S754_finite false mx ex) (S754_finite false my ey)
    = binary_round_aux prec emax false q e' l
    /\ 0 <= q /\ located q l yq
    /\ (yq * pow2 e'
        = valueOf (S754_finite false mx ex) / valueOf (S754_finite false my ey))%R
    /\ e' <= fexp64 (Zdigits2 q + e').
Proof.
  destruct (div_core_spec (Zpos mx) ex (Zpos my) ey) as (q & e' & l & yq & E & R);
    try lia.
  exists q, e', l, yq. split; [|exact R].
  unfold div. cbn [SFdiv xorb]. rewrite E. reflexivity.
Qed.

Theorem div_atLeast x y vx vy b :
  atLeast x vx -> atMost y vy -> (0 < vx)%R ->
  finitePos b -> (valueOf b * vy <= vx)%R ->
  atLeast (div x y) (valueOf b).
Proof.
  intros [->|[(mx & ex & -> & Hx) Vx]] [[->|(my & ey & -> & Hy)] Vy] Px Hb Hv;
    try (left; reflexivity).
  destruct (div_finite mx ex my ey) as (q & e' & l & yq & -> & Hq & Hl & Hval & He).
  apply (round_atLeast q e' l yq Hq Hl He b Hb).
  rewrite Hval.
  pose proof (valueOf_pos my ey) as Py. pose proof (finitePos_pos b Hb) as Pb.
  set (Y := valueOf (S754_finite false my ey)) in *.
  set (X := valueOf (S754_finite false mx ex)) in *.
  apply (Rmult_le_reg_r Y); [exact Py|].
  unfold Rdiv. rewrite Rmult_assoc, Rinv_l, Rmult_1_r by lra. nra.
Qed.

Theorem div_atMost x y vx vy b :
  atMost x vx -> atLeast y vy -> (0 < vy)%R ->
  finitePos b -> (vx <= valueOf b * vy)%R ->
  atMost (div x y) (valueOf b).
Proof.
  intros [[->|(mx & ex & -> & Hx)] Vx] [->|[(my & ey & -> & Hy) Vy]] Py Hb Hv;
    pose proof (finitePos_pos b Hb) as Pb;
    try (split; [left; reflexivity|unfold div; cbn [SFdiv xorb valueOf]; lra]).
  destruct (div_finite mx ex my ey) as (q & e' & l & yq & -> & Hq & Hl & Hval & He).
  apply (round_atMost q e' l yq Hq Hl He b Hb).
  rewrite Hval.
  pose proof (valueOf_pos my ey) as PY.
  set (Y := valueOf (S754_finite false my ey)) in *.
  set (X := valueOf (S754_finite false mx ex)) in *.
  apply (Rmult_le_reg_r Y); [exact PY|].
  unfold Rdiv. rewrite Rmult_assoc, Rinv_l, Rmult_1_r by lra. nra.
Qed.

(** *** Integers as numbers *)

Lemma iter_xO mx d : Zpos (Pos.iter xO mx d) = Zpos mx * 2 ^ Zpos d.
Proof.
  change (Pos.iter xO mx d) with (shift_pos d mx).
  rewrite shift_pos_correct. unfold Zpower_pos.
  rewrite Z.mul_comm. f_equal.
Qed.

Lemma Zdigits2_shift m d :
  0 < m -> 0 <= d -> Zdigits2 (m * 2 ^ d) = Zdigits2 m + d.
Proof.
  intros Hm Hd. pose proof (Zdigits2_bounds m Hm) as [B1 B2].
  assert (0 < 2 ^ d) by (apply Z.pow_pos_nonneg; lia).
  assert (1 <= Zdigits2 m).
  { pose proof (Zdigits2_nonneg m). destruct (Z.eq_dec (Zdigits2 m) 0) as [E|]; [|lia].
    rewrite E in B2. cbn in B2. lia. }
  apply Zdigits2_unique; [nia|].
  replace (Zdigits2 m + d - 1) with (Zdigits2 m - 1 + d) by lia.
  rewrite !Z.pow_add_r by lia. nia.
Qed.

Lemma shl_align_spec mx ex ex' :
  exists mz ez,
    shl_align mx ex ex' = (mz, ez)
    /\ ez = Z.min ex ex'
    /\ Zpos mz = Zpos mx * 2 ^ (ex - ez).
Proof.
  unfold shl_align. stdZ. change (@PosDef.Pos.iter) with (@Pos.iter).
  destruct (ex' - ex) as [|d|d] eqn:E.
  - exists mx, ex. repeat split; [lia|].
    replace (ex - ex) with 0 by lia. cbn. lia.
  - exists mx, ex. repeat split; [lia|].
    replace (ex - ex) with 0 by lia. cbn. lia.
  - exists (Pos.iter xO mx d), ex'. repeat split; [lia|].
    rewrite iter_xO. f_equal. f_equal. lia.
Qed.

Lemma binary_round_spec p e :
  exists mz ez,
    binary_round prec emax false p e
    = binary_round_aux prec emax false (Zpos mz) ez loc_Exact
    /\ (IZR (Zpos mz) * pow2 ez = IZR (Zpos p) * pow2 e)%R
    /\ ez <= fexp64 (Zdigits2 (Zpos mz) + ez).
Proof.
  unfold binary_round. stdZ.
  fold (Zdigits2 (Zpos p)). fold (fexp64 (Zdigits2 (Zpos p) + e)).
  destruct (shl_align_spec p e (fexp64 (Zdigits2 (Zpos p) + e)))
    as (mz & ez & E & Hez & Hmz).
  rewrite E. exists mz, ez. split; [reflexivity|].
  assert (Hd : 0 <= e - ez) by lia.
  split.
  - rewrite Hmz, mult_IZR, <- (pow2_IZR (e - ez)) by lia.
    assert (X : pow2 e = (pow2 (e - ez) * pow2 ez)%R)
      by (rewrite <- pow2_add; f_equal; lia).
    rewrite X. ring.
  - rewrite Hmz, Zdigits2_shift by lia.
    replace (Zdigits2 (Zpos p) + (e - ez) + ez) with (Zdigits2 (Zpos p) + e) by lia.
    lia.
Qed.

Theorem ofZ_atLeast z b :
  0 < z -> finitePos b -> (valueOf b <= IZR z)%R ->
  atLeast (ofZ z) (valueOf b).
Proof.
  intros Hz Hb Hv. destruct z as [|p|p]; try lia.
  unfold ofZ. cbn [binary_normalize].
  destruct (binary_round_spec p 0) as (mz & ez & -> & Hval & He).
  apply (round_atLeast (Zpos mz) ez loc_Exact (IZR (Zpos mz))
           ltac:(lia) eq_refl He b Hb).
  rewrite Hval, pow2_0. lra.
Qed.

Theorem ofZ_atMost z b :
  0 <= z -> finitePos b -> (IZR z <= valueOf b)%R ->
  atMost (ofZ z) (valueOf b).
Proof.
  intros Hz Hb Hv. pose proof (finitePos_pos b Hb).
  destruct z as [|p|p]; try lia.
  - split; [left; reflexivity|]. cbn. lra.
  - unfold ofZ. cbn [binary_normalize].
    destruct (binary_round_spec p 0) as (mz & ez & -> & Hval & He).
    apply (round_atMost (Zpos mz) ez loc_Exact (IZR (Zpos mz))
             ltac:(lia) eq_refl He b Hb).
    rewrite Hval, pow2_0. lra.
Qed.

(** *** Math.floor *)

Lemma floor_finitePos x :
  finitePos x ->
  (exists j, 0 <= j /\ Math_floor x = ofZ j
             /\ (IZR j <= valueOf x < IZR j + 1)%R)
  \/ (Math_floor x = x /\ (IZR (2 ^ 52) <= valueOf x)%R).
Proof.
  intros (m & e & -> & H). destruct (bounded_facts _ _ H) as [A [B C]].
  cbn [Math_floor valueOf signed].
  destruct (Z.leb_spec 0 e) as [L|L].
  - right. split; [reflexivity|].
    specialize (C ltac:(unfold emin64, emin, emax, prec in *; lia)).
    apply IZR_le in C. change (prec - 1) with 52 in C.
    assert (1 <= pow2 e)%R by (change 1%R with (pow2 0); apply pow2_le; lia).
    assert (0 < IZR (2 ^ 52))%R by (apply IZR_lt; reflexivity).
    nra.
  - left. exists (Zpos m / 2 ^ (- e)).
    assert (P : 0 < 2 ^ (- e)) by (apply Z.pow_pos_nonneg; lia).
    split; [apply Z.div_pos; lia|]. split; [reflexivity|].
    assert (E : pow2 e = (/ IZR (2 ^ (- e)))%R).
    { rewrite <- pow2_IZR by lia. rewrite <- pow2_opp. f_equal. lia. }
    rewrite E. apply IZR_lt in P as P'.
    pose proof (Z.mul_div_le (Zpos m) (2 ^ (- e)) P) as D1.
    pose proof (Z.mul_succ_div_gt (Zpos m) (2 ^ (- e)) P) as D2.
    apply IZR_le in D1. apply IZR_lt in D2.
    rewrite mult_IZR in D1. rewrite mult_IZR, succ_IZR in D2.
    set (j := IZR (Zpos m / 2 ^ (- e))) in *.
    set (t := IZR (2 ^ (- e))) in *.
    set (a := IZR (Zpos m)) in *.
    split.
    + apply (Rmult_le_reg_r t); [exact P'|].
      rewrite Rmult_assoc, Rinv_l, Rmult_1_r by lra. lra.
    + apply (Rmult_lt_reg_r t); [exact P'|].
      rewrite Rmult_assoc, Rinv_l, Rmult_1_r by lra. lra.
Qed.

(** *** Comparisons *)

Lemma gt_of_atLeast d v b :
  atLeast d v -> finitePos b -> (valueOf b < v)%R -> gt d b = true.
Proof.
  intros [->|[Hd Hv]] Hb Hlt; unfold gt.
  - destruct Hb as (m & e & -> & _). reflexivity.
  - apply SFltb_finite; [assumption..|]. lra.
Qed.

Lemma lt_of_atMost d v b :
  atMost d v -> finitePos b -> (v < valueOf b)%R -> lt d b = true.
Proof.
  intros [[->|Hd] Hv] Hb Hlt; unfold lt.
  - destruct Hb as (m & e & -> & _). reflexivity.
  - apply SFltb_finite; [assumption..|]. lra.
Qed.

Lemma atMost_of_not_gt d v b :
  atLeast d v -> finitePos b -> gt d b = false ->
  finitePos d /\ (valueOf d <= valueOf b)%R.
Proof.
  intros [->|[Hd Hv]] Hb Hgt; unfold gt in Hgt.
  - destruct Hb as (m & e & -> & _). discriminate.
  - split; [exact Hd|].
    destruct (Rle_or_lt (valueOf d) (valueOf b)) as [L|L]; [exact L|].
    apply (SFltb_finite b d Hb Hd) in L. congruence.
Qed.

(** *** The class of a rounded result *)

Lemma round_class m e l y :
  0 <= m -> located m l y -> e <= fexp64 (Zdigits2 m + e) ->
  zeroOrPos (binary_round_aux prec emax false m e l)
  \/ binary_round_aux prec emax false m e l = S754_infinity false.
Proof.
  intros Hm Hl He.
  destruct (binary_round_aux_spec false m e l y Hm Hl He)
    as (m1 & -> & Hm1 & Hnorm & _).
  destruct (pack_cases m1 (fexp64 (Zdigits2 m + e)) Hm1 (fexp64_ge_emin _)
              (fun h => proj1 (Hnorm h)))
    as [[_ ->]|[[-> _]|[Hfin _]]].
  - left; left; reflexivity.
  - right; reflexivity.
  - left; right; exact Hfin.
Qed.

Lemma div_class x y :
  finitePos x -> finitePos y ->
  zeroOrPos (div x y) \/ div x y = S754_infinity false.
Proof.
  intros (mx & ex & -> & Hx) (my & ey & -> & Hy).
  destruct (div_finite mx ex my ey) as (q & e' & l & yq & -> & Hq & Hl & _ & He).
  apply (round_class q e' l yq); assumption.
Qed.

Lemma ge_cases r b :
  zeroOrPos r \/ r = S754_infinity false -> finitePos b ->
  if ge r b then atLeast r (valueOf b) else atMost r (valueOf b).
Proof.
  intros [[->|Hr]| ->] Hb; pose proof (finitePos_pos b Hb) as Pb.
  - destruct Hb as (m & e & -> & Hb). cbn.
    split; [left; reflexivity|]. cbn [valueOf signed] in Pb |- *. lra.
  - unfold ge. destruct (SFleb b r) eqn:E.
    + right. split; [exact Hr|]. apply (SFleb_finite b r); assumption.
    + split; [right; exact Hr|].
      destruct (Rle_or_lt (valueOf r) (valueOf b)) as [L|L]; [exact L|].
      assert (valueOf b <= valueOf r)%R by lra.
      apply (SFleb_finite b r Hb Hr) in H. congruence.
  - destruct Hb as (m & e & -> & Hb). cbn. left; reflexivity.
Qed.

Lemma isRatio_value x n d :
  isRatio x n d = true -> valueOf x = (IZR n / IZR d)%R.
Proof.
  destruct x as [| | |[] m e]; try discriminate. cbn [isRatio].
  rewrite !andb_true_iff, Z.leb_le, Z.ltb_lt, Z.eqb_eq. intros [[He Hd] Hm].
  cbn [valueOf signed].
  assert (P : (0 < IZR (2 ^ (- e)))%R) by (apply IZR_lt, Z.pow_pos_nonneg; lia).
  assert (E : pow2 e = (/ IZR (2 ^ (- e)))%R).
  { rewrite <- pow2_IZR by lia. rewrite <- pow2_opp. f_equal. lia. }
  rewrite E. apply IZR_lt in Hd.
  apply (f_equal IZR) in Hm. rewrite !mult_IZR in Hm.
  apply (Rmult_eq_reg_r (IZR d * IZR (2 ^ (- e)))); [|nra].
  field_simplify; [|lra|lra]. rewrite Hm. field.
Qed.

Lemma ratio_constant x n d :
  isRatio x n d = true -> valid_binary prec emax x = true ->
  finitePos x /\ valueOf x = (IZR n / IZR d)%R.
Proof.
  intros H V. split; [|apply isRatio_value, H].
  destruct x as [| | |[] m e]; try discriminate.
  exists m, e. split; [reflexivity|exact V].
Qed.

(** *** Subtraction *)

Theorem sub_atMost x y b :
  finitePos x -> finitePos y -> (valueOf y <= valueOf x)%R ->
  finitePos b -> (valueOf x - valueOf y <= valueOf b)%R ->
  atMost (sub x y) (valueOf b).
Proof.
  intros (mx & ex & -> & Hx) (my & ey & -> & Hy) Hle Hb Hv.
  pose proof (finitePos_pos b Hb) as Pb.
  unfold sub. cbn [SFsub cond_Zopp]. stdZ.
  set (ez := Z.min ex ey).
  destruct (shl_align_spec mx ex ez) as (mzx & ezx & Ex & Hezx & Hmzx).
  destruct (shl_align_spec my ey ez) as (mzy & ezy & Ey & Hezy & Hmzy).
  rewrite Ex, Ey. cbn [fst].
  replace ezx with ez in * by (unfold ez in *; lia).
  replace ezy with ez in * by (unfold ez in *; lia).
  assert (Vx : valueOf (S754_finite false mx ex) = (IZR (Zpos mzx) * pow2 ez)%R).
  { cbn [valueOf signed]. rewrite Hmzx, mult_IZR, <- (pow2_IZR (ex - ez)) by (unfold ez; lia).
    rewrite Rmult_assoc, <- pow2_add. do 2 f_equal. lia. }
  assert (Vy : valueOf (S754_finite false my ey) = (IZR (Zpos mzy) * pow2 ez)%R).
  { cbn [valueOf signed]. rewrite Hmzy, mult_IZR, <- (pow2_IZR (ey - ez)) by (unfold ez; lia).
    rewrite Rmult_assoc, <- pow2_add. do 2 f_equal. lia. }
  rewrite Vx, Vy in Hle, Hv. pose proof (pow2_pos ez) as Pz.
  assert (D : Zpos mzy <= Zpos mzx).
  { apply le_IZR. nra. }
  destruct (Zpos mzx - Zpos mzy) as [|p|p] eqn:Ed; [| |lia].
  - split; [left; reflexivity|]. cbn [binary_normalize valueOf]. lra.
  - cbn [binary_normalize].
    destruct (binary_round_spec p ez) as (mz & e' & -> & Hval & He).
    apply (round_atMost (Zpos mz) e' loc_Exact (IZR (Zpos mz))
             ltac:(lia) eq_refl He b Hb).
    rewrite Hval, <- Ed, minus_IZR. lra.
Qed.

(** *** Math.round *)

Lemma round_small x v k :
  atMost x v -> (v < IZR k + / 2)%R -> k < 2 ^ 52 ->
  exists j, 0 <= j <= k /\ Math_round x = ofZ j.
Proof.
  intros [[->|(m & e & -> & H)] Hv] Hk Hsmall.
  - exists 0. cbn [valueOf] in Hv.
    split; [|reflexivity].
    split; [lia|]. apply le_IZR. 
    assert (- / 2 < IZR k)%R by lra.
    destruct (Z_le_gt_dec 0 k) as [L|G]; [apply IZR_le; exact L|].
    assert (k <= -1) by lia. apply IZR_le in H0. lra.
  - destruct (bounded_facts _ _ H) as [A [B C]].
    cbn [Math_round valueOf signed] in *.
    destruct (Z.leb_spec 0 e) as [L|L].
    + exfalso.
      specialize (C ltac:(unfold emin64, emin, emax, prec in *; lia)).
      apply IZR_le in C. change (prec - 1) with 52 in C.
      assert (1 <= pow2 e)%R by (change 1%R with (pow2 0); apply pow2_le; lia).
      assert (0 < IZR (2 ^ 52))%R by (apply IZR_lt; reflexivity).
      assert (Hk1 : k <= 2 ^ 52 - 1) by lia.
      apply IZR_le in Hk1. rewrite minus_IZR in Hk1.
      assert (IZR (Zpos m) * 1 <= IZR (Zpos m) * pow2 e)%R by nra.
      lra.
    + rewrite andb_false_r.
      set (z := (2 * Zpos m + 2 ^ (- e)) / 2 ^ (1 - e)).
      assert (P : 0 < 2 ^ (- e)) by (apply Z.pow_pos_nonneg; lia).
      assert (P1 : 2 ^ (1 - e) = 2 * 2 ^ (- e)).
      { replace (1 - e) with (1 + - e) by lia. rewrite Z.pow_add_r by lia. reflexivity. }
      exists z. split; [|reflexivity].
      assert (Hz0 : 0 <= z) by (apply Z.div_pos; lia).
      split; [exact Hz0|].
      assert (E : pow2 e = (/ IZR (2 ^ (- e)))%R).
      { rewrite <- pow2_IZR by lia. rewrite <- pow2_opp. f_equal. lia. }
      rewrite E in Hv.
      pose proof (Z.mul_div_le (2 * Zpos m + 2 ^ (- e)) (2 ^ (1 - e)) ltac:(lia)) as D1.
      fold z in D1. rewrite P1 in D1.
      apply IZR_le in D1. rewrite plus_IZR, !mult_IZR in D1.
      apply IZR_lt in P as P'.
      set (t := IZR (2 ^ (- e))) in *. set (a := IZR (Zpos m)) in *.
      assert (Ha : (a <= v * t)%R).
      { apply (Rmult_le_compat_r t) in Hv; [|lra].
        rewrite Rmult_assoc, Rinv_l, Rmult_1_r in Hv by lra. exact Hv. }
      assert (z < k + 1); [|lia].
      apply lt_IZR. rewrite plus_IZR.
      apply (Rmult_lt_reg_r (2 * t)); [lra|]. nra.
Qed.


(* ================================================================= *)
(** ** The output dimensions *)

Import Dimensions.

Lemma sameNumber_eq x y : sameNumber x y = true -> x = y.
Proof.
  destruct x as [s|s| |s m e], y as [t|t| |t n f]; cbn; try discriminate;
    try reflexivity.
  - intros H. apply Bool.eqb_prop in H. congruence.
  - intros H. apply Bool.eqb_prop in H. congruence.
  - rewrite !andb_true_iff. intros [[H1 H2] H3].
    apply Bool.eqb_prop in H1. apply Pos.eqb_eq in H2. apply Z.eqb_eq in H3.
    congruence.
Qed.

Lemma holdsFrom_spec lo n f :
  holdsFrom lo n f = true ->
  forall j, lo <= j < lo + Z.of_nat n -> f j = true.
Proof.
  unfold holdsFrom. rewrite forallb_forall. intros H j Hj.
  replace j with (lo + Z.of_nat (Z.to_nat (j - lo))) by lia.
  apply H. apply in_seq. lia.
Qed.

Lemma isInteger_value x z : isInteger x z = true -> valueOf x = IZR z.
Proof.
  destruct x as [| | |[] m e]; try discriminate. cbn [isInteger].
  rewrite andb_true_iff, Z.leb_le, Z.eqb_eq. intros [He Hm].
  cbn [valueOf signed]. rewrite Hm, mult_IZR.
  rewrite <- (pow2_IZR (- e)) by lia. rewrite Rmult_assoc, <- pow2_add.
  replace (- e + e) with 0 by lia. rewrite pow2_0. ring.
Qed.

Lemma grid_checked : holdsFrom 0 97 gridCheck = true.
Proof. vm_compute. reflexivity. Qed.

Lemma grid j :
  0 <= j <= 96 ->
  mul (ofZ j) (ofZ 8) = ofZ (8 * j)
  /\ lt (ofZ (8 * j)) minDimension = (j <? 64)
  /\ gt (ofZ (8 * j)) maxDimension = false
  /\ (64 <= j ->
      valueOf (ofZ (8 * j)) = IZR (8 * j)
      /\ gt (mul (ofZ (8 * j)) (ofZ 512)) pixelLimit = false
      /\ gt (mul (ofZ 512) (ofZ (8 * j))) pixelLimit = false
      /\ gt (mul (ofZ 768) (ofZ (8 * j))) pixelLimit = false
      /\ gt (mul (ofZ (8 * j)) (ofZ 768)) pixelLimit = false).
Proof.
  intros Hj.
  pose proof (holdsFrom_spec 0 97 gridCheck grid_checked j ltac:(lia)) as H.
  unfold gridCheck in H. rewrite !andb_true_iff in H.
  destruct H as [[[H1 H2] H3] H4].
  split; [apply sameNumber_eq, H1|].
  split; [apply Bool.eqb_prop, H2|].
  split; [apply negb_true_iff, H3|].
  intros J. apply orb_true_iff in H4. destruct H4 as [H4|H4].
  - apply Z.ltb_lt in H4. lia.
  - rewrite !andb_true_iff in H4. destruct H4 as [[[[A B] C] D] E].
    repeat split; try (apply negb_true_iff; assumption).
    apply isInteger_value, A.
Qed.

Lemma integer_constant z :
  isInteger (ofZ z) z = true -> valid_binary prec emax (ofZ z) = true ->
  finitePos (ofZ z) /\ valueOf (ofZ z) = IZR z.
Proof.
  intros H V. split; [|apply isInteger_value, H].
  destruct (ofZ z) as [| | |[] m e]; try discriminate.
  exists m, e. split; [reflexivity|exact V].
Qed.

Ltac constant z :=
  let F := fresh "F" in let V := fresh "V" in
  destruct (integer_constant z ltac:(vm_compute; reflexivity)
              ltac:(vm_compute; reflexivity)) as [F V].

Lemma atLeast_constant z :
  isInteger (ofZ z) z = true -> valid_binary prec emax (ofZ z) = true ->
  atLeast (ofZ z) (IZR z).
Proof.
  intros H V. destruct (integer_constant z H V) as [F E].
  right. split; [exact F|]. rewrite E. lra.
Qed.

Lemma atMost_constant z :
  isInteger (ofZ z) z = true -> valid_binary prec emax (ofZ z) = true ->
  atMost (ofZ z) (IZR z).
Proof.
  intros H V. destruct (integer_constant z H V) as [F E].
  split; [right; exact F|]. rewrite E. lra.
Qed.

Lemma floor8_atMost x :
  atMost x 768 -> exists j, 0 <= j <= 96 /\ floor8 x = ofZ (8 * j).
Proof.
  intros Hx. unfold floor8.
  constant 96.
  assert (Hb : atMost (div x (ofZ 8)) (valueOf (ofZ 96))).
  { apply div_atMost with (vx := 768%R) (vy := 8%R); try assumption.
    - apply (atLeast_constant 8); vm_compute; reflexivity.
    - lra.
    - rewrite V. lra. }
  rewrite V in Hb. destruct Hb as [[Hz|Hf] Hv].
  - rewrite Hz. exists 0. split; [lia|]. reflexivity.
  - destruct (floor_finitePos _ Hf) as [(j & Hj0 & Ej & Hj1 & Hj2)|[_ Hbig]].
    + assert (j <= 96) by (apply le_IZR; lra).
      exists j. split; [lia|]. rewrite Ej. apply grid. lia.
    + exfalso. change (2 ^ 52) with 4503599627370496 in Hbig. lra.
Qed.

Lemma floor8_atLeast x :
  atLeast x 512 ->
  (exists j, 64 <= j <= 96 /\ floor8 x = ofZ (8 * j))
  \/ gt (floor8 x) maxDimension = true.
Proof.
  intros Hx. unfold floor8.
  constant 64. constant 97. constant 776. constant 768.
  assert (A8 : atLeast (ofZ 8) 8)
    by (apply (atLeast_constant 8); vm_compute; reflexivity).
  assert (Hb : atLeast (div x (ofZ 8)) (valueOf (ofZ 64))).
  { apply div_atLeast with (vx := 512%R) (vy := 8%R); try assumption.
    - apply (atMost_constant 8); vm_compute; reflexivity.
    - lra.
    - rewrite V. lra. }
  rewrite V in Hb.
  assert (Big : forall c, atLeast c 97 -> gt (mul c (ofZ 8)) maxDimension = true).
  { intros c Hc. apply gt_of_atLeast with (v := valueOf (ofZ 776)).
    - apply (mul_atLeast c (ofZ 8) 97 8 (ofZ 776) Hc A8
               ltac:(lra) ltac:(lra) F1).
      rewrite V1. lra.
    - exact F2.
    - change maxDimension with (ofZ 768). rewrite V1, V2. lra. }
  destruct Hb as [Hinf|[Hf Hv]].
  - right. rewrite Hinf. reflexivity.
  - destruct (floor_finitePos _ Hf) as [(j & Hj0 & Ej & Hj1 & Hj2)|[Efl Hbig]].
    + assert (64 <= j).
      { assert (63 < j); [|lia]. apply lt_IZR. lra. }
      rewrite Ej. destruct (Z_le_gt_dec j 96) as [L|G].
      * left. exists j. split; [lia|]. apply grid. lia.
      * right. apply Big.
        rewrite <- V0. apply ofZ_atLeast; [lia|exact F0|].
        rewrite V0. apply IZR_le. lia.
    + right. apply Big. rewrite Efl. right. split; [exact Hf|].
      change (2 ^ 52) with 4503599627370496 in Hbig. lra.
Qed.

Lemma positive_finitePos x :
  valid_binary prec emax x = true -> isFinite x = true ->
  gt x (ofZ 0) = true -> finitePos x.
Proof.
  destruct x as [s|s| |[] m e]; cbn; try discriminate.
  intros V _ _. exists m, e. auto.
Qed.

Theorem fitDimensions_on_grid width height :
  finitePos width -> finitePos height ->
  exists a b,
    fitDimensions width height = (ofZ (8 * a), ofZ (8 * b))
    /\ 64 <= a <= 96 /\ 64 <= b <= 96.
Proof.
  intros Hw Hh.
  constant 1. constant 512. constant 768.
  assert (E1 : Math_max minDimension (floor8 minDimension) = ofZ 512)
    by (vm_compute; reflexivity).
  assert (E2 : floor8 maxDimension = ofZ 768) by (vm_compute; reflexivity).
  assert (E3 : floor8 minDimension = ofZ 512) by (vm_compute; reflexivity).
  destruct (grid 64 ltac:(lia)) as (_ & _ & _ & G64).
  specialize (G64 ltac:(lia)). change (8 * 64) with 512 in G64.
  destruct G64 as (_ & P1 & _ & P3 & P4).
  unfold fitDimensions. rewrite E1, E2, E3.
  pose proof (ge_cases (div width height) (ofZ 1) (div_class _ _ Hw Hh) F) as Hr.
  set (r := div width height) in *.
  destruct (ge r (ofZ 1)); rewrite V in Hr.
  - (* wide *)
    assert (A : atLeast (mul (ofZ 512) r) 512).
    { rewrite <- V0.
      apply (mul_atLeast (ofZ 512) r 512 1 (ofZ 512)); try assumption; try lra.
      right. split; [exact F0|]. lra. }
    destruct (floor8_atLeast _ A) as [(j & Hj & ->)|G].
    + destruct (grid j ltac:(lia)) as (_ & _ & -> & Gj).
      destruct (Gj ltac:(lia)) as (_ & -> & _).
      exists j, 64. repeat split; lia.
    + rewrite G.
      assert (B : atMost (div (ofZ 768) r) 768).
      { rewrite <- V1.
        apply (div_atMost (ofZ 768) r 768 1 (ofZ 768)); try assumption; try lra.
        split; [right; exact F1|]. lra. }
      destruct (floor8_atMost _ B) as (j & Hj & ->).
      destruct (grid j ltac:(lia)) as (_ & -> & _ & Gj).
      destruct (Z.ltb_spec j 64) as [L|L].
      * rewrite P3. exists 96, 64. repeat split; lia.
      * destruct (Gj L) as (_ & _ & _ & -> & _).
        exists 96, j. repeat split; lia.
  - (* tall *)
    assert (A : atLeast (div (ofZ 512) r) 512).
    { rewrite <- V0.
      apply (div_atLeast (ofZ 512) r 512 1 (ofZ 512)); try assumption; try lra.
      right. split; [exact F0|]. lra. }
    destruct (floor8_atLeast _ A) as [(j & Hj & ->)|G].
    + destruct (grid j ltac:(lia)) as (_ & _ & -> & Gj).
      destruct (Gj ltac:(lia)) as (_ & _ & -> & _).
      exists 64, j. repeat split; lia.
    + rewrite G.
      assert (B : atMost (mul (ofZ 768) r) 768).
      { rewrite <- V1.
        apply (mul_atMost (ofZ 768) r 768 1 (ofZ 768)); try assumption; try lra.
        split; [right; exact F1|]. lra. }
      destruct (floor8_atMost _ B) as (j & Hj & ->).
      destruct (grid j ltac:(lia)) as (_ & -> & _ & Gj).
      destruct (Z.ltb_spec j 64) as [L|L].
      * rewrite P4. exists 64, 96. repeat split; lia.
      * destruct (Gj L) as (_ & _ & _ & _ & ->).
        exists j, 96. repeat split; lia.
Qed.

(** C2.  For every finite width and height greater than zero, the size
    computation returns two integers that are multiples of 8, each between
    512 and 768, whose product is at most 589824.  (The two provisos of the
    claim never apply: no result falls below 512 or exceeds 768.) *)
Theorem C2_output_dimensions_within_limits :
  forall width height,
    valid_binary prec emax width = true -> isFinite width = true ->
    valid_binary prec emax height = true -> isFinite height = true ->
    gt width (ofZ 0) = true -> gt height (ofZ 0) = true ->
    exists w' h' : Z,
      fitDimensions width height = (ofZ w', ofZ h')
      /\ valueOf (ofZ w') = IZR w' /\ valueOf (ofZ h') = IZR h'
      /\ (8 | w') /\ (8 | h')
      /\ 512 <= w' <= 768 /\ 512 <= h' <= 768
      /\ w' * h' <= 589824.
Proof.
  intros width height Vw Fw Vh Fh Pw Ph.
  destruct (fitDimensions_on_grid width height) as (a & b & E & Ha & Hb).
  - apply positive_finitePos; assumption.
  - apply positive_finitePos; assumption.
  - exists (8 * a), (8 * b). split; [exact E|].
    destruct (grid a ltac:(lia)) as (_ & _ & _ & Ga).
    destruct (grid b ltac:(lia)) as (_ & _ & _ & Gb).
    destruct (Ga ltac:(lia)) as [Va _]. destruct (Gb ltac:(lia)) as [Vb _].
    repeat split; try assumption; try lia.
    + exists a. lia.
    + exists b. lia.
    + nia.
Qed.

Lemma C2_output_dimensions_within_limits_witness :
  exists w' h' : Z,
    fitDimensions (ofZ 1920) (ofZ 1080) = (ofZ w', ofZ h')
    /\ valueOf (ofZ w') = IZR w' /\ valueOf (ofZ h') = IZR h'
    /\ (8 | w') /\ (8 | h')
    /\ 512 <= w' <= 768 /\ 512 <= h' <= 768
    /\ w' * h' <= 589824.
Proof.
  apply (C2_output_dimensions_within_limits (ofZ 1920) (ofZ 1080));
    vm_compute; reflexivity.
Defined.

(** C3 (the code departs from it).  The claim: the size computation returns
    its own output unchanged.  The code: 512 x 745 gives 512 x 744, and
    512 x 744 gives 512 x 736.  In the tall branch the height is
    [512 / (512 / 744)], which in binary64 is 743.9999999999999 (one unit in
    the last place below 744), so that [Math.floor] of its eighth is 92 and
    not 93.  The wide branch multiplies by the ratio and has no such case. *)
Theorem C3_normalization_not_idempotent :
  fitDimensions (ofZ 512) (ofZ 745) = (ofZ 512, ofZ 744)
  /\ fitDimensions (ofZ 512) (ofZ 744) = (ofZ 512, ofZ 736)
  /\ div (ofZ 512) (div (ofZ 512) (ofZ 744))
     = S754_finite false 6544293208522751 (-43)
  /\ ofZ 744 = S754_finite false 6544293208522752 (-43)
  /\ fitDimensions (ofZ 744) (ofZ 512) = (ofZ 744, ofZ 512).
Proof. vm_compute. repeat split. Qed.

(** How far the departure goes.  Of the sizes the computation can return,
    [8j x 512] and [512 x 8j] for [j] from 64 to 96, every wide one is kept,
    and every tall one but [512 x 744]. *)
Lemma wide_sizes_are_kept :
  holdsFrom 64 33 (fun j => keepsSize (8 * j) 512) = true.
Proof. vm_compute. reflexivity. Qed.

Lemma tall_sizes_are_kept_but_one :
  holdsFrom 64 33
    (fun j => Bool.eqb (keepsSize 512 (8 * j)) (negb (j =? 93))) = true.
Proof. vm_compute. reflexivity. Qed.

(* ================================================================= *)
(** ** The element weights *)

Import Elements.

Lemma sameNumber_refl x : sameNumber x x = true.
Proof.
  destruct x as [s|s| |s m e]; cbn; rewrite ?Bool.eqb_reflx, ?Pos.eqb_refl, ?Z.eqb_refl;
    reflexivity.
Qed.

Lemma distinct_NoDup l : distinct l = true -> NoDup l.
Proof.
  induction l as [|x l IH]; cbn; [constructor|].
  rewrite andb_true_iff, negb_true_iff. intros [H1 H2].
  constructor; [|apply IH, H2].
  intros Hin. assert (existsb (sameNumber x) l = true); [|congruence].
  apply existsb_exists. exists x. split; [exact Hin|apply sameNumber_refl].
Qed.

Lemma le_finitePos a w :
  finitePos a -> valid_binary prec emax w = true -> le a w = true ->
  w = S754_infinity false \/ (finitePos w /\ (valueOf a <= valueOf w)%R).
Proof.
  intros Ha V H. pose proof Ha as (ma & ea & -> & Hb).
  destruct w as [s|[]| |[] m e]; try discriminate; [left; reflexivity|].
  right. assert (Hw : finitePos (S754_finite false m e)) by (exists m, e; auto).
  split; [exact Hw|]. apply (SFleb_finite _ _ Ha Hw). exact H.
Qed.

Lemma cute_emotes_maximum ids element :
  In element (getAvailableElements ids) -> elementMaxWeight element = ofZ 2.
Proof. intros [<-|[]]. reflexivity. Qed.

Lemma weights_checked :
  holdsFrom 0 51 (weightCheck (ratio false 3 4) (ofZ 2)) = true
  /\ holdsFrom 0 51 (weightCheck (ratio false 1 2) (ofZ 2)) = true
  /\ distinct (allowedWeights (ratio false 3 4) (ofZ 2)) = true
  /\ distinct (allowedWeights (ratio false 1 2) (ofZ 2)) = true.
Proof. vm_compute. auto. Qed.

Ltac value_of x :=
  let s := eval vm_compute in x in
  lazymatch s with
  | S754_finite false ?m ?e =>
      let d := eval vm_compute in (2 ^ (- e)) in
      let F := fresh "F" in let V := fresh "V" in
      destruct (ratio_constant x (Zpos m) d ltac:(vm_compute; reflexivity)
                  ltac:(vm_compute; reflexivity)) as [F V]
  end.

Lemma steps_in_range isLeonardoProcess weight :
  valid_binary prec emax weight = true ->
  le (modeMinWeight isLeonardoProcess) weight = true ->
  le weight (ofZ 2) = true ->
  exists j,
    0 <= j <= 50
    /\ Math_round (div (sub weight (modeMinWeight isLeonardoProcess))
                       (stepSize (modeMinWeight isLeonardoProcess) (ofZ 2)))
       = ofZ j.
Proof.
  intros Vw Hmin Hmax.
  constant 2.
  value_of (ratio false 201 4).
  destruct isLeonardoProcess; cbn [modeMinWeight] in *.
  - value_of (ratio false 3 4).
    value_of (sub (ofZ 2) (ratio false 3 4)).
    value_of (stepSize (ratio false 3 4) (ofZ 2)).
    destruct (le_finitePos _ _ F1 Vw Hmin) as [->|[Fw Lw]]; [discriminate|].
    assert (Uw : (valueOf weight <= valueOf (ofZ 2))%R)
      by (apply (SFleb_finite _ _ Fw F); exact Hmax).
    assert (D : atMost (sub weight (ratio false 3 4))
                  (valueOf (sub (ofZ 2) (ratio false 3 4)))).
    { apply sub_atMost; try assumption. lra. }
    assert (Q : atMost (div (sub weight (ratio false 3 4))
                          (stepSize (ratio false 3 4) (ofZ 2)))
                  (valueOf (ratio false 201 4))).
    { eapply div_atMost with (vy := valueOf (stepSize (ratio false 3 4) (ofZ 2)));
        [exact D| | | exact F0 |].
      - right. split; [exact F3|lra].
      - rewrite V3. lra.
      - rewrite V2, V0, V3. lra. }
    apply (round_small _ _ 50 Q); [lra|reflexivity].
  - value_of (ratio false 1 2).
    value_of (sub (ofZ 2) (ratio false 1 2)).
    value_of (stepSize (ratio false 1 2) (ofZ 2)).
    destruct (le_finitePos _ _ F1 Vw Hmin) as [->|[Fw Lw]]; [discriminate|].
    assert (Uw : (valueOf weight <= valueOf (ofZ 2))%R)
      by (apply (SFleb_finite _ _ Fw F); exact Hmax).
    assert (D : atMost (sub weight (ratio false 1 2))
                  (valueOf (sub (ofZ 2) (ratio false 1 2)))).
    { apply sub_atMost; try assumption. lra. }
    assert (Q : atMost (div (sub weight (ratio false 1 2))
                          (stepSize (ratio false 1 2) (ofZ 2)))
                  (valueOf (ratio false 201 4))).
    { eapply div_atMost with (vy := valueOf (stepSize (ratio false 1 2) (ofZ 2)));
        [exact D| | | exact F0 |].
      - right. split; [exact F3|lra].
      - rewrite V3. lra.
      - rewrite V2, V0, V3. lra. }
    apply (round_small _ _ 50 Q); [lra|reflexivity].
Qed.

(** C8.  For the style element of [getAvailableElements], in either mode,
    and for every weight between the mode's minimum and the element's
    maximum, the weight [safelyAddElements] pushes lies between the minimum
    and the maximum and is one of the 51 snapped step values, which are 51
    different numbers. *)
Theorem C8_element_weight_snapped :
  forall ids isLeonardoProcess element weight,
    In element (getAvailableElements ids) ->
    valid_binary prec emax weight = true ->
    le (modeMinWeight isLeonardoProcess) weight = true ->
    le weight (elementMaxWeight element) = true ->
    let minWeight := modeMinWeight isLeonardoProcess in
    let maxWeight := elementMaxWeight element in
    let result := safeWeight isLeonardoProcess element weight in
    le minWeight result = true /\ le result maxWeight = true
    /\ In result (allowedWeights minWeight maxWeight)
    /\ List.length (allowedWeights minWeight maxWeight) = 51%nat
    /\ NoDup (allowedWeights minWeight maxWeight).
Proof.
  intros ids isLeonardoProcess element weight Hel Vw Hmin Hmax. cbv zeta.
  unfold safeWeight. rewrite (cute_emotes_maximum ids element Hel) in *.
  destruct (steps_in_range isLeonardoProcess weight Vw Hmin Hmax) as (j & Hj & ->).
  fold (snappedWeight (modeMinWeight isLeonardoProcess) (ofZ 2) j).
  destruct weights_checked as (C1 & C2 & D1 & D2).
  assert (C : weightCheck (modeMinWeight isLeonardoProcess) (ofZ 2) j = true).
  { destruct isLeonardoProcess; cbn [modeMinWeight].
    - apply (holdsFrom_spec 0 51 _ C1). lia.
    - apply (holdsFrom_spec 0 51 _ C2). lia. }
  unfold weightCheck in C. apply andb_prop in C as [Ca Cb].
  split; [exact Ca|]. split; [exact Cb|]. split; [|split].
  - unfold allowedWeights.
    replace j with (Z.of_nat (Z.to_nat j)) by lia.
    apply (in_map (fun k => snappedWeight _ _ (Z.of_nat k))).
    apply in_seq. lia.
  - unfold allowedWeights. now rewrite length_map, length_seq.
  - apply distinct_NoDup. destruct isLeonardoProcess; assumption.
Qed.

Lemma C8_element_weight_snapped_witness :
  le (ratio false 3 4)
     (safeWeight true (cuteEmotes defaultModelIds) (ratio false 6 5)) = true
  /\ le (safeWeight true (cuteEmotes defaultModelIds) (ratio false 6 5))
        (ofZ 2) = true.
Proof.
  destruct (C8_element_weight_snapped defaultModelIds true
              (cuteEmotes defaultModelIds) (ratio false 6 5))
    as (A & B & _).
  - left. reflexivity.
  - vm_compute. reflexivity.
  - vm_compute. reflexivity.
  - vm_compute. reflexivity.
  - split; assumption.
Defined.

(* ================================================================= *)
(** ** The retry wrapper, in general *)

Section RetryInGeneral.

Import Http Scenario Attempt.
Local Open Scope string_scope.
Local Open Scope list_scope.

Variables (u : Url) (retries : nat) (delay : number).

Lemma turn_ok i left w r :
  network (browser w) (fetches w) = Resolves r -> ok r = true ->
  fetchWithRetry_from u retries delay i (S left) w = (Normal r, sent u w).
Proof.
  intros H Hok. cbn [fetchWithRetry_from].
  unfold bind at 1, try_catch at 1. unfold bind at 1. unfold logger at 1.
  unfold bind at 1, fetch at 1. cbn [browser requests].
  unfold fetches in H. rewrite H, Hok. reflexivity.
Qed.

Lemma turn_rate_limited i left w r :
  network (browser w) (fetches w) = Resolves r -> http_status r = 429%Z ->
  fetchWithRetry_from u retries delay i (S left) w
  = fetchWithRetry_from u retries delay (S i) left
      (afterSleep (mul delay (ofZ 2)) (afterLog Error "请求失败:" (sent u w))).
Proof.
  intros H Hst. cbn [fetchWithRetry_from].
  unfold bind at 1, try_catch at 1. unfold bind at 1. unfold logger at 1.
  unfold bind at 1, fetch at 1. cbn [browser requests].
  unfold fetches in H. rewrite H. unfold ok. rewrite Hst. reflexivity.
Qed.

Lemma turn_failure i left w e :
  failure (network (browser w) (fetches w)) = Some e ->
  let caught :=
    afterLog Error "请求出错:"
      (match network (browser w) (fetches w) with
       | Resolves _ => afterLog Error "请求失败:" (sent u w)
       | Rejects _ => sent u w
       end) in
  fetchWithRetry_from u retries delay i (S left) w
  = if Nat.eqb i (retries - 1) then (Throw e, caught)
    else fetchWithRetry_from u retries delay (S i) left
           (afterSleep delay caught).
Proof.
  intros H. cbn [fetchWithRetry_from].
  unfold bind at 1, try_catch at 1. unfold bind at 1. unfold logger at 1.
  unfold bind at 1, fetch at 1. cbn [browser requests].
  unfold fetches in *.
  destruct (network (browser w) (List.length (requests w))) as [r|e'];
    cbn [failure] in H.
  - destruct (ok r); [discriminate|].
    destruct (http_status r =? 401)%Z eqn:H1;
      [|destruct (http_status r =? 403)%Z eqn:H3;
        [|destruct (http_status r =? 429)%Z eqn:H9]];
      cbn [orb] in H; try discriminate; injection H as <-;
      cbn; rewrite ?H1, ?H3, ?H9; cbn;
      destruct (Nat.eqb i (retries - 1)); reflexivity.
  - injection H as <-. cbn.
    destruct (Nat.eqb i (retries - 1)); reflexivity.
Qed.

(** Every outcome of a fetch is of one of the three kinds. *)
Lemma outcome_cases o :
  (exists r, o = Resolves r /\ ok r = true)
  \/ (exists r, o = Resolves r /\ ok r = false /\ http_status r = 429%Z)
  \/ (exists e, failure o = Some e).
Proof.
  destruct o as [r|e]; [|right; right; exists e; reflexivity].
  cbn [failure]. destruct (ok r) eqn:Hok; [left; eauto|].
  destruct ((http_status r =? 401) || (http_status r =? 403))%Z eqn:Ha;
    [right; right; eauto|].
  destruct (http_status r =? 429)%Z eqn:Hr; [|right; right; eauto].
  right; left. exists r. split; [reflexivity|]. split; [exact Hok|]. now apply Z.eqb_eq.
Qed.

Lemma repeat_snoc {A} (a : A) k l : repeat a k ++ a :: l = a :: repeat a k ++ l.
Proof. induction k as [|k IH]; cbn; [reflexivity|]. now rewrite IH. Qed.

Lemma returns_ok_only_from r w' :
  forall left i w,
    fetchWithRetry_from u retries delay i left w = (Normal r, w') ->
    ok r = true.
Proof.
  induction left as [|left IH]; intros i w H; [discriminate|].
  destruct (outcome_cases (network (browser w) (fetches w)))
    as [(r0 & E & Hok)|[(r0 & E & _ & Hst)|(e & E)]].
  - rewrite (turn_ok _ _ _ _ E Hok) in H. now injection H as <- _.
  - rewrite (turn_rate_limited _ _ _ _ E Hst) in H. eapply IH, H.
  - rewrite (turn_failure _ _ _ _ E) in H.
    destruct (Nat.eqb i (retries - 1)); [discriminate|]. eapply IH, H.
Qed.

(** X1.  Whatever the network does, a response that [fetchWithRetry]
    returns has a 2xx status: every other status ends in a retry or in an
    exception. *)
Theorem fetchWithRetry_returns_ok_only w r w' :
  fetchWithRetry u retries delay w = (Normal r, w') -> ok r = true.
Proof. apply returns_ok_only_from. Qed.

Lemma request_budget_from :
  forall left i w,
    let run := fetchWithRetry_from u retries delay i left w in
    exists k waits,
      (k <= left)%nat
      /\ requests (snd run) = repeat u k ++ requests w
      /\ timers (snd run) = waits ++ timers w
      /\ (List.length waits <= k)%nat
      /\ Forall (fun t => t = delay \/ t = mul delay (ofZ 2)) waits
      /\ uploads (snd run) = uploads w
      /\ browser (snd run) = browser w.
Proof.
  induction left as [|left IH]; intros i w; cbn zeta.
  - exists 0%nat, []. cbn. repeat split; auto.
  - assert (Step : forall w1 t,
              browser w1 = browser w -> requests w1 = u :: requests w ->
              uploads w1 = uploads w -> timers w1 = t :: timers w ->
              t = delay \/ t = mul delay (ofZ 2) ->
              let run := fetchWithRetry_from u retries delay (S i) left w1 in
              exists k waits,
                (k <= S left)%nat
                /\ requests (snd run) = repeat u k ++ requests w
                /\ timers (snd run) = waits ++ timers w
                /\ (List.length waits <= k)%nat
                /\ Forall (fun t => t = delay \/ t = mul delay (ofZ 2)) waits
                /\ uploads (snd run) = uploads w
                /\ browser (snd run) = browser w).
    { intros w1 t Hb Hr Hu Ht Hd. cbn zeta.
      destruct (IH (S i) w1) as (k & waits & Hk & Er & Et & Hl & Hf & Eu & Eb).
      exists (S k), (waits ++ [t]).
      rewrite Er, Et, Eu, Eb, Hr, Ht, Hu, Hb.
      repeat split; try lia.
      - now rewrite repeat_snoc.
      - now rewrite <- app_assoc.
      - rewrite length_app. cbn. lia.
      - apply Forall_app. split; [exact Hf|]. now constructor. }
    destruct (outcome_cases (network (browser w) (fetches w)))
      as [(r0 & E & Hok)|[(r0 & E & _ & Hst)|(e & E)]].
    + rewrite (turn_ok _ _ _ _ E Hok). exists 1%nat, [].
      cbn. repeat split; auto; lia.
    + rewrite (turn_rate_limited _ _ _ _ E Hst).
      apply (Step _ (mul delay (ofZ 2))); auto.
    + rewrite (turn_failure _ _ _ _ E).
      destruct (Nat.eqb i (retries - 1)).
      * exists 1%nat, [].
        destruct (network (browser w) (fetches w));
          cbn; repeat split; auto; lia.
      * destruct (network (browser w) (fetches w));
          apply (Step _ delay); auto.
Qed.

(** X2.  Whatever the network does, a call of [fetchWithRetry] sends at
    most [retries] requests, all of them to the given URL, and waits at most
    once per request, for [delay] or for twice [delay]; it sends no upload. *)
Theorem fetchWithRetry_request_budget w :
  let run := fetchWithRetry u retries delay w in
  exists k waits,
    (k <= retries)%nat
    /\ requests (snd run) = repeat u k ++ requests w
    /\ timers (snd run) = waits ++ timers w
    /\ (List.length waits <= k)%nat
    /\ Forall (fun t => t = delay \/ t = mul delay (ofZ 2)) waits
    /\ uploads (snd run) = uploads w
    /\ browser (snd run) = browser w.
Proof. apply request_budget_from. Qed.

Lemma gives_up_from b (err : nat -> JsError) :
  (forall n, failure (network b n) = Some (err n)) ->
  forall left i w,
    browser w = b -> (i + S left = retries)%nat ->
    let run := fetchWithRetry_from u retries delay i (S left) w in
    fst run = Throw (err (fetches w + left)%nat)
    /\ requests (snd run) = repeat u (S left) ++ requests w
    /\ timers (snd run) = repeat delay left ++ timers w.
Proof.
  intros Hb. induction left as [|left IH]; intros i w Hw Hi; cbn zeta.
  - rewrite (turn_failure i 0 w (err (fetches w))) by (rewrite Hw; apply Hb).
    replace (Nat.eqb i (retries - 1)) with true
      by (symmetry; apply Nat.eqb_eq; lia).
    rewrite Nat.add_0_r.
    destruct (network (browser w) (fetches w)); cbn; auto.
  - rewrite (turn_failure i (S left) w (err (fetches w)))
      by (rewrite Hw; apply Hb).
    replace (Nat.eqb i (retries - 1)) with false
      by (symmetry; apply Nat.eqb_neq; lia).
    match goal with
    | |- context [fetchWithRetry_from _ _ _ _ _ ?w1] =>
        destruct (IH (S i) w1) as (E1 & E2 & E3);
          [destruct (network (browser w) (fetches w)); exact Hw | lia |];
          assert (Hf : fetches w1 = S (fetches w))
            by (destruct (network (browser w) (fetches w)); reflexivity);
          assert (Hr : requests w1 = u :: requests w)
            by (destruct (network (browser w) (fetches w)); reflexivity);
          assert (Ht : timers w1 = delay :: timers w)
            by (destruct (network (browser w) (fetches w)); reflexivity)
    end.
    rewrite E1, E2, E3, Hf, Hr, Ht. repeat split.
    + f_equal. f_equal. lia.
    + change (repeat u (S (S left))) with (u :: repeat u (S left)).
      now rewrite repeat_snoc.
    + change (repeat delay (S left)) with (delay :: repeat delay left).
      now rewrite repeat_snoc.
Qed.

(** X3.  When every attempt fails (the fetch is rejected, or the status is
    neither 2xx nor 429), [fetchWithRetry] uses all of its [retries]
    attempts, waits [delay] between two of them, and throws the error of
    the last attempt; the earlier errors are only logged. *)
Theorem fetchWithRetry_throws_last_error b (err : nat -> JsError) w :
  (forall n, failure (network b n) = Some (err n)) ->
  browser w = b -> (1 <= retries)%nat ->
  let run := fetchWithRetry u retries delay w in
  fst run = Throw (err (fetches w + retries - 1)%nat)
  /\ requests (snd run) = repeat u retries ++ requests w
  /\ timers (snd run) = repeat delay (retries - 1) ++ timers w.
Proof.
  intros Hb Hw Hr. unfold fetchWithRetry. cbn zeta.
  pose proof (gives_up_from b err Hb (retries - 1) 0%nat w Hw ltac:(lia)) as G.
  cbn zeta in G. replace (S (retries - 1)) with retries in G by lia.
  replace (fetches w + retries - 1)%nat with (fetches w + (retries - 1))%nat
    by lia.
  exact G.
Qed.

Lemma rate_limited_from b :
  (forall n, rateLimited (network b n) = true) ->
  forall left i w,
    browser w = b ->
    let run := fetchWithRetry_from u retries delay i left w in
    fst run = Throw MaxRetriesError
    /\ requests (snd run) = repeat u left ++ requests w
    /\ timers (snd run) = repeat (mul delay (ofZ 2)) left ++ timers w.
Proof.
  intros Hb. induction left as [|left IH]; intros i w Hw; cbn zeta.
  - cbn. auto.
  - pose proof (Hb (fetches w)) as H. rewrite <- Hw in H.
    destruct (network (browser w) (fetches w)) as [r|e] eqn:E;
      [|discriminate]. cbn in H. apply Z.eqb_eq in H.
    rewrite (turn_rate_limited _ _ _ _ E H).
    match goal with
    | |- context [fetchWithRetry_from _ _ _ _ _ ?w1] =>
        destruct (IH (S i) w1) as (E1 & E2 & E3); [exact Hw|]
    end.
    rewrite E1, E2, E3. cbn [afterSleep afterLog snd sleep logger requests timers sent].
    repeat split.
    + change (repeat u (S left)) with (u :: repeat u left).
      now rewrite repeat_snoc.
    + change (repeat (mul delay (ofZ 2)) (S left))
        with (mul delay (ofZ 2) :: repeat (mul delay (ofZ 2)) left).
      now rewrite repeat_snoc.
Qed.

(** X4.  Against a server that answers every request with 429,
    [fetchWithRetry] uses all of its attempts, waits twice [delay] after
    each of them (the last one too), and then throws the error of the
    exhausted retries, not one that names the status. *)
Theorem fetchWithRetry_rate_limited_throughout b w :
  (forall n, rateLimited (network b n) = true) -> browser w = b ->
  let run := fetchWithRetry u retries delay w in
  fst run = Throw MaxRetriesError
  /\ message MaxRetriesError = "Maximum retries reached"
  /\ requests (snd run) = repeat u retries ++ requests w
  /\ timers (snd run) = repeat (mul delay (ofZ 2)) retries ++ timers w.
Proof.
  intros Hb Hw. cbn zeta.
  destruct (rate_limited_from b Hb retries 0%nat w Hw) as (E1 & E2 & E3).
  unfold fetchWithRetry. rewrite E1, E2, E3. auto.
Qed.

End RetryInGeneral.

(* ================================================================= *)
(** ** The polling waiters, in general *)

Section WaitersInGeneral.

Import Http Polling Scenario Attempt.
Local Open Scope string_scope.
Local Open Scope list_scope.

Variable generationId : string.

(** The handler of a [catch] that logs and returns leaves the requests, the
    timers and the uploads as the body left them. *)
Lemma caught_world {A} (m : Async A) l msg (k : JsError -> A) w :
  let run := try_catch m (fun e => bind (logger l msg) (fun _ => ret (k e))) w in
  requests (snd run) = requests (snd (m w))
  /\ timers (snd run) = timers (snd (m w))
  /\ uploads (snd run) = uploads (snd (m w))
  /\ browser (snd run) = browser (snd (m w))
  /\ exists a, fst run = Normal a.
Proof.
  unfold try_catch. destruct (m w) as [[a|e] w1]; cbn; eauto 10.
Qed.

(** The shape of a result: a success with an address, or a failure with a
    message. *)
Lemma result_loop_shape :
  forall left pollCount w r w',
    waitForGenerationResultUrl_loop generationId left pollCount w
    = (Normal r, w') ->
    (exists address, address <> "" /\ r = succeeded address)
    \/ (exists msg, r = failed msg).
Proof.
  induction left as [|left IH]; intros pollCount w r w' H.
  - cbn in H. injection H as <- _. right. eauto.
  - cbn [waitForGenerationResultUrl_loop] in H.
    unfold bind at 1, fetch at 1 in H.
    destruct (network (browser w) (List.length (requests w))) as [resp|e];
      [|discriminate].
    destruct (ok resp); cbn [negb] in H.
    + unfold json in H. destruct (body resp) as [data|]; [|discriminate].
      unfold bind at 1, ret at 1 in H.
      destruct (generations_by_pk data) as [g|].
      * unfold bind at 1, logger at 1 in H.
        destruct (status g).
        -- unfold firstImageUrl, truthyString in H.
           destruct (generated_images g) as [|img imgs].
           ++ cbn in H. injection H as <- _. right. eauto.
           ++ destruct (String.eqb (url img) "") eqn:Hu; cbn in H;
                injection H as <- _; [right; eauto|].
              left. exists (url img). split; [|reflexivity].
              intros E. rewrite E in Hu. discriminate.
        -- cbn in H. injection H as <- _. right. eauto.
        -- eapply IH, H.
        -- eapply IH, H.
      * eapply IH, H.
    + eapply IH, H.
Qed.

(** X5.  [waitForGenerationResultUrl] never throws: whatever the network
    does, it returns a success that carries a non-empty image address, or a
    failure that carries a message. *)
Theorem waitForGenerationResultUrl_always_answers w :
  exists r w',
    waitForGenerationResultUrl generationId w = (Normal r, w')
    /\ ((exists address,
           address <> "" /\ r = succeeded address)
        \/ (exists msg, r = failed msg)).
Proof.
  unfold waitForGenerationResultUrl, try_catch.
  destruct (waitForGenerationResultUrl_loop generationId MAX_POLLS 0 w)
    as [[r|e] w1] eqn:E.
  - exists r, w1. split; [reflexivity|]. eapply result_loop_shape, E.
  - cbn. eexists; eexists. split; [reflexivity|]. right. eauto.
Qed.

Lemma result_loop_budget :
  forall left pollCount w,
    let run := waitForGenerationResultUrl_loop generationId left pollCount w in
    exists k j,
      (k <= left)%nat /\ (j <= k)%nat
      /\ requests (snd run) = repeat (GenerationUrl generationId) k ++ requests w
      /\ timers (snd run) = repeat POLL_INTERVAL j ++ timers w
      /\ uploads (snd run) = uploads w
      /\ browser (snd run) = browser w.
Proof.
  induction left as [|left IH]; intros pollCount w; cbn zeta.
  - exists 0%nat, 0%nat. cbn. auto 10.
  - assert (Stop : forall (run : Completion LeonardoResponse * World),
              requests (snd run) = GenerationUrl generationId :: requests w ->
              timers (snd run) = timers w -> uploads (snd run) = uploads w ->
              browser (snd run) = browser w ->
              exists k j,
                (k <= S left)%nat /\ (j <= k)%nat
                /\ requests (snd run)
                   = repeat (GenerationUrl generationId) k ++ requests w
                /\ timers (snd run) = repeat POLL_INTERVAL j ++ timers w
                /\ uploads (snd run) = uploads w
                /\ browser (snd run) = browser w).
    { intros run Hr Ht Hu Hb. exists 1%nat, 0%nat. cbn.
      repeat split; auto; lia. }
    assert (Step : forall w1 pc,
              browser w1 = browser w ->
              requests w1 = GenerationUrl generationId :: requests w ->
              uploads w1 = uploads w ->
              timers w1 = POLL_INTERVAL :: timers w ->
              let run := waitForGenerationResultUrl_loop generationId left pc w1 in
              exists k j,
                (k <= S left)%nat /\ (j <= k)%nat
                /\ requests (snd run)
                   = repeat (GenerationUrl generationId) k ++ requests w
                /\ timers (snd run) = repeat POLL_INTERVAL j ++ timers w
                /\ uploads (snd run) = uploads w
                /\ browser (snd run) = browser w).
    { intros w1 pc Hb Hr Hu Ht. cbn zeta.
      destruct (IH pc w1) as (k & j & Hk & Hj & Er & Et & Eu & Eb).
      exists (S k), (S j). rewrite Er, Et, Eu, Eb, Hr, Ht, Hu, Hb.
      repeat split; try lia.
      - now rewrite repeat_snoc.
      - now rewrite repeat_snoc. }
    remember (waitForGenerationResultUrl_loop generationId (S left)
                pollCount w) as run eqn:H.
    cbn [waitForGenerationResultUrl_loop] in H.
    unfold bind at 1, fetch at 1 in H.
    destruct (network (browser w) (List.length (requests w))) as [resp|e];
      [|subst run; apply Stop; reflexivity].
    destruct (ok resp); cbn [negb] in H.
    + unfold json in H. destruct (body resp) as [data|];
        [|subst run; apply Stop; reflexivity].
      unfold bind at 1, ret at 1 in H.
      destruct (generations_by_pk data) as [g|].
      * unfold bind at 1, logger at 1 in H.
        destruct (status g).
        -- destruct (firstImageUrl g); subst run; apply Stop; reflexivity.
        -- subst run; apply Stop; reflexivity.
        -- subst run; apply Step; reflexivity.
        -- subst run; apply Step; reflexivity.
      * subst run; apply Step; reflexivity.
    + subst run; apply Step; reflexivity.
Qed.

(** X6.  Whatever the network does, [waitForGenerationResultUrl] sends at
    most 40 requests, all of them status requests for the given generation,
    and waits at most once per request, always for the poll interval of
    3000 ms: a call is over after at most two minutes of waiting. *)
Theorem waitForGenerationResultUrl_budget w :
  let run := waitForGenerationResultUrl generationId w in
  exists k j,
    (k <= 40)%nat /\ (j <= k)%nat
    /\ requests (snd run) = repeat (GenerationUrl generationId) k ++ requests w
    /\ timers (snd run) = repeat (ofZ 3000) j ++ timers w
    /\ uploads (snd run) = uploads w.
Proof.
  cbn zeta. unfold waitForGenerationResultUrl.
  destruct (caught_world (waitForGenerationResultUrl_loop generationId MAX_POLLS 0)
              Error "等待生成过程中出错"
              (fun e => failed (message e)) w)
    as (Er & Et & Eu & _ & _).
  destruct (result_loop_budget MAX_POLLS 0 w)
    as (k & j & Hk & Hj & Er' & Et' & Eu' & _).
  exists k, j. rewrite Er, Et, Eu, Er', Et', Eu'. auto.
Qed.

Lemma completion_loop_answers options :
  forall left pollCount currentDelay w,
    let run := waitForGenerationCompletion_loop generationId options left
                 pollCount currentDelay w in
    exists v k,
      fst run = Normal v
      /\ (forall imageId, v = Some imageId -> imageId <> "")
      /\ (k <= 3 * left)%nat
      /\ requests (snd run) = repeat (GenerationUrl generationId) k ++ requests w
      /\ uploads (snd run) = uploads w
      /\ browser (snd run) = browser w.
Proof.
  induction left as [|left IH]; intros pollCount currentDelay w; cbn zeta.
  - exists None, 0%nat. cbn. repeat split; auto. discriminate.
  - pose proof (request_budget_from (GenerationUrl generationId) 3 (ofZ 1000)
                  3 0 w) as B.
    cbn zeta in B.
    change (fetchWithRetry_from (GenerationUrl generationId) 3 (ofZ 1000) 0 3 w)
      with (fetchWithRetry_default (GenerationUrl generationId) w) in B.
    destruct B as (k0 & waits & Hk0 & Br & _ & _ & _ & Bu & Bb).
    assert (Stop : forall (run : Completion (option string) * World) v,
              fst run = Normal v ->
              (forall imageId, v = Some imageId -> imageId <> "") ->
              requests (snd run)
              = requests (snd (fetchWithRetry_default
                                 (GenerationUrl generationId) w)) ->
              uploads (snd run) = uploads w -> browser (snd run) = browser w ->
              exists v k,
                fst run = Normal v
                /\ (forall imageId, v = Some imageId -> imageId <> "")
                /\ (k <= 3 * S left)%nat
                /\ requests (snd run)
                   = repeat (GenerationUrl generationId) k ++ requests w
                /\ uploads (snd run) = uploads w
                /\ browser (snd run) = browser w).
    { intros run v Hv Hid Hr Hu Hb. exists v, k0.
      rewrite Hr, Br. repeat split; auto. lia. }
    assert (Step : forall w2 pc d,
              requests w2
              = requests (snd (fetchWithRetry_default
                                 (GenerationUrl generationId) w)) ->
              uploads w2 = uploads w -> browser w2 = browser w ->
              let run := waitForGenerationCompletion_loop generationId options
                           left pc d w2 in
              exists v k,
                fst run = Normal v
                /\ (forall imageId, v = Some imageId -> imageId <> "")
                /\ (k <= 3 * S left)%nat
                /\ requests (snd run)
                   = repeat (GenerationUrl generationId) k ++ requests w
                /\ uploads (snd run) = uploads w
                /\ browser (snd run) = browser w).
    { intros w2 pc d Hr Hu Hb. cbn zeta.
      destruct (IH pc d w2) as (v & k & Ev & Hid & Hk & Er & Eu & Eb).
      exists v, (k + k0)%nat. rewrite Er, Eu, Eb, Hr, Br, Hu, Hb.
      repeat split; auto; [lia|].
      now rewrite repeat_app, <- app_assoc. }
    remember (waitForGenerationCompletion_loop generationId options (S left)
                pollCount currentDelay w) as run eqn:H.
    cbn [waitForGenerationCompletion_loop] in H.
    unfold bind at 1, try_catch at 1 in H. unfold bind at 1 in H.
    destruct (fetchWithRetry_default (GenerationUrl generationId) w)
      as [[resp|e] w1]; cbn [snd] in *;
      [|subst run; apply Step; assumption || reflexivity].
    unfold bind at 1, json at 1 in H.
    destruct (body resp) as [data|];
      [|subst run; apply Step; assumption || reflexivity].
    unfold ret at 1 in H. unfold bind at 1 in H.
    destruct (generations_by_pk data) as [g|].
    + unfold bind at 1, logger at 1 in H.
      destruct (status g).
      * unfold firstImageId, Polling.truthyString in H.
        destruct (generated_images g) as [|img imgs].
        -- subst run. eapply Stop; try reflexivity; try assumption.
           discriminate.
        -- destruct (String.eqb (id img) "") eqn:Hi; cbn [negb] in H.
           ++ subst run. eapply Stop; try reflexivity; try assumption.
              discriminate.
           ++ subst run. eapply Stop; try reflexivity; try assumption.
              intros imageId [= <-] E. rewrite E in Hi. discriminate.
      * subst run. eapply Stop; try reflexivity; try assumption. discriminate.
      * subst run; apply Step; assumption || reflexivity.
      * subst run; apply Step; assumption || reflexivity.
    + subst run; apply Step; assumption || reflexivity.
Qed.

(** X7.  [waitForGenerationCompletion] never throws: whatever the network
    does, it returns [null] or a non-empty image id, after at most three
    requests per poll of its budget, all of them status requests for the
    given generation. *)
Theorem waitForGenerationCompletion_always_answers options w :
  let run := waitForGenerationCompletion generationId options w in
  exists v k,
    fst run = Normal v
    /\ (forall imageId, v = Some imageId -> imageId <> "")
    /\ (k <= 3 * maxPolls options)%nat
    /\ requests (snd run) = repeat (GenerationUrl generationId) k ++ requests w
    /\ uploads (snd run) = uploads w.
Proof.
  cbn zeta. unfold waitForGenerationCompletion.
  destruct (completion_loop_answers options (maxPolls options) 0
              (initialDelay options) w) as (v & k & H1 & H2 & H3 & H4 & H5 & _).
  exists v, k. auto.
Qed.

Lemma completion_loop_failing options b (err : nat -> JsError) :
  (forall n, failure (network b n) = Some (err n)) ->
  forall left pollCount currentDelay w,
    browser w = b ->
    let run := waitForGenerationCompletion_loop generationId options left
                 pollCount currentDelay w in
    fst run = Normal None
    /\ requests (snd run)
       = repeat (GenerationUrl generationId) (3 * left) ++ requests w
    /\ timers (snd run) = repeat (ofZ 1000) (2 * left) ++ timers w.
Proof.
  intros Hb. induction left as [|left IH]; intros pollCount currentDelay w Hw;
    cbn zeta.
  - cbn. auto.
  - pose proof (gives_up_from (GenerationUrl generationId) 3 (ofZ 1000) b err
                  Hb 2 0 w Hw eq_refl) as G.
    pose proof (request_budget_from (GenerationUrl generationId) 3 (ofZ 1000)
                  3 0 w) as B.
    cbn zeta in G, B.
    change (fetchWithRetry_from (GenerationUrl generationId) 3 (ofZ 1000) 0 3 w)
      with (fetchWithRetry_default (GenerationUrl generationId) w) in G, B.
    destruct G as (G1 & G2 & G3).
    destruct B as (_ & _ & _ & _ & _ & _ & _ & _ & Bb).
    remember (waitForGenerationCompletion_loop generationId options (S left)
                pollCount currentDelay w) as run eqn:H.
    cbn [waitForGenerationCompletion_loop] in H.
    unfold bind at 1, try_catch at 1 in H. unfold bind at 1 in H.
    destruct (fetchWithRetry_default (GenerationUrl generationId) w)
      as [[resp|e] w1]; cbn [fst snd] in *; [discriminate|].
    cbn in H.
    match type of H with
    | run = waitForGenerationCompletion_loop _ _ _ ?pc ?d ?w2 =>
        destruct (IH pc d w2) as (E1 & E2 & E3);
          [cbn; congruence|]
    end.
    subst run. rewrite E1, E2, E3. cbn [requests timers]. rewrite G2, G3.
    repeat split.
    + replace (3 * S left)%nat with (3 * left + 3)%nat by lia.
      now rewrite repeat_app, <- app_assoc.
    + replace (2 * S left)%nat with (2 * left + 2)%nat by lia.
      now rewrite repeat_app, <- app_assoc.
Qed.

(** X8.  When every request fails (the fetch is rejected, or the status is
    neither 2xx nor 429), [waitForGenerationCompletion] uses up its whole
    poll budget without a single poll wait: it sends three requests per
    poll, waits only the two retry delays of 1000 ms inside each poll, and
    returns [null]. *)
Theorem waitForGenerationCompletion_failing_network options b
    (err : nat -> JsError) w :
  (forall n, failure (network b n) = Some (err n)) -> browser w = b ->
  let run := waitForGenerationCompletion generationId options w in
  fst run = Normal None
  /\ requests (snd run)
     = repeat (GenerationUrl generationId) (3 * maxPolls options) ++ requests w
  /\ timers (snd run) = repeat (ofZ 1000) (2 * maxPolls options) ++ timers w.
Proof.
  intros Hb Hw. apply (completion_loop_failing options b err Hb); exact Hw.
Qed.

End WaitersInGeneral.

(* ================================================================= *)
(** ** The image upload, in general *)

Section UploadingInGeneral.

Import Http Upload Scenario Attempt Blobs.
Local Open Scope string_scope.
Local Open Scope list_scope.

Lemma requestUploadTarget_budget w :
  let run := requestUploadTarget w in
  exists k,
    (k <= 3)%nat
    /\ requests (snd run) = repeat InitImageUrl k ++ requests w
    /\ uploads (snd run) = uploads w
    /\ browser (snd run) = browser w
    /\ (forall uploadId uploadUrl fieldsString,
          fst run = Normal (Some (uploadId, uploadUrl, fieldsString)) ->
          uploadId <> "" /\ uploadUrl <> "").
Proof.
  cbn zeta.
  pose proof (request_budget_from InitImageUrl 3 (ofZ 1000) 3 0 w) as B.
  cbn zeta in B.
  change (fetchWithRetry_from InitImageUrl 3 (ofZ 1000) 0 3 w)
    with (fetchWithRetry_default InitImageUrl w) in B.
  destruct B as (k & waits & Hk & Br & _ & _ & _ & Bu & Bb).
  exists k. split; [exact Hk|].
  remember (requestUploadTarget w) as run eqn:H.
  unfold requestUploadTarget in H. unfold bind at 1 in H.
  destruct (fetchWithRetry_default InitImageUrl w) as [[resp|e] w1];
    cbn [snd] in *; [|subst run; cbn; repeat split; auto; easy].
  destruct (ok resp); cbn [negb] in H;
    [|subst run; cbn; repeat split; auto; easy].
  unfold bind at 1, json at 1 in H.
  destruct (body resp) as [data|];
    [|subst run; cbn; repeat split; auto; easy].
  unfold ret at 1 in H.
  destruct (uploadInitImage data) as [t|].
  - unfold truthyString in H.
    destruct (String.eqb (upload_id t) "") eqn:E1;
      [subst run; cbn; repeat split; auto; easy|].
    destruct (String.eqb (upload_url t) "") eqn:E2;
      [subst run; cbn; repeat split; auto; easy|].
    destruct (String.eqb (upload_fields t) "") eqn:E3;
      [subst run; cbn; repeat split; auto; easy|].
    subst run; cbn. split; [auto|]. split; [auto|]. split; [auto|].
    intros uploadId uploadUrl fieldsString [= <- <- _].
    split; intros E; rewrite E in *; discriminate.
  - subst run; cbn; repeat split; auto; easy.
Qed.

Lemma transferToTarget_world uploadId uploadUrl fieldsString w :
  let run := transferToTarget uploadId uploadUrl fieldsString w in
  fst run = Normal (Some uploadId)
  /\ requests (snd run) = requests w
  /\ (uploads (snd run) = uploads w
      \/ uploads (snd run) = uploadUrl :: uploads w).
Proof.
  cbn zeta. unfold transferToTarget, try_catch, bind, theBrowser.
  destruct (JSON_parse (browser w) fieldsString); cbn; [|auto].
  unfold xhrPost. cbn.
  destruct (transfer (browser w) (List.length (uploads w))) as [st| |e]; cbn;
    [destruct ((200 <=? st)%Z && (st <? 300)%Z)|..]; cbn; auto.
Qed.

Lemma prepareUpload_budget imageBase64 w :
  let run := prepareUpload imageBase64 w in
  exists k,
    (k <= 3)%nat
    /\ requests (snd run) = repeat InitImageUrl k ++ requests w
    /\ uploads (snd run) = uploads w
    /\ (forall uploadId uploadUrl fieldsString,
          fst run = Normal (Some (uploadId, uploadUrl, fieldsString)) ->
          uploadId <> "" /\ uploadUrl <> "")
    /\ (unusable (browser w) imageBase64 = true ->
        fst run = Normal None /\ k = 0%nat).
Proof.
  cbn zeta. unfold unusable.
  remember (prepareUpload imageBase64 w) as run eqn:H.
  unfold prepareUpload in H.
  destruct (String.eqb imageBase64 "") eqn:E0.
  - subst run. exists 0%nat. cbn. repeat split; auto; easy.
  - unfold bind at 1, logger at 1 in H. unfold bind at 1, theBrowser at 1 in H.
    cbn [browser] in H.
    destruct (makeBlob (browser w) imageBase64) as [[[blob|] mimeType] extension].
    + destruct (Nat.eqb (blob_size blob) 0) eqn:Eb0.
      * subst run. exists 0%nat. cbn. repeat split; auto; easy.
      * unfold bind at 1, logger at 1 in H.
        match type of H with
        | run = requestUploadTarget ?w0 =>
            destruct (requestUploadTarget_budget w0)
              as (k & Hk & Er & Eu & Eb & Hid)
        end.
        subst run. exists k. cbn in Er, Eu, Hid |- *.
        split; [exact Hk|]. split; [exact Er|]. split; [exact Eu|].
        split; [exact Hid|]. easy.
    + subst run. exists 0%nat. cbn. repeat split; auto; easy.
Qed.

(** X9.  [uploadImage] never throws: whatever the browser and the network
    do, it returns [null] or a non-empty id, after at most three requests,
    all of them for an upload target, and at most one transfer.  A transfer
    is sent only when an id is returned. *)
Theorem uploadImage_always_answers imageBase64 w :
  let run := uploadImage imageBase64 w in
  exists v k,
    fst run = Normal v
    /\ (forall uploadId, v = Some uploadId -> uploadId <> "")
    /\ (k <= 3)%nat
    /\ requests (snd run) = repeat InitImageUrl k ++ requests w
    /\ (uploads (snd run) = uploads w
        \/ exists uploadUrl uploadId,
             uploadUrl <> "" /\ v = Some uploadId
             /\ uploads (snd run) = uploadUrl :: uploads w).
Proof.
  cbn zeta.
  destruct (prepareUpload_budget imageBase64 w) as (k & Hk & Er & Eu & Hid & _).
  remember (uploadImage imageBase64 w) as run eqn:H.
  unfold uploadImage, try_catch in H. unfold bind at 1 in H.
  destruct (prepareUpload imageBase64 w) as [[[[[uploadId uploadUrl] fields]|]|e] w1];
    cbn [fst snd] in *.
  - destruct (Hid _ _ _ eq_refl) as [Hi Hu].
    destruct (transferToTarget_world uploadId uploadUrl fields w1)
      as (T1 & T2 & T3).
    destruct (transferToTarget uploadId uploadUrl fields w1) as [[v|e] w2];
      cbn [fst snd] in *; [|discriminate].
    injection T1 as ->. subst run. cbn [fst snd].
    exists (Some uploadId), k. repeat split; auto.
    + now intros ? [= <-].
    + congruence.
    + destruct T3 as [T3|T3]; [left; congruence|].
      right. exists uploadUrl, uploadId. repeat split; auto. congruence.
  - subst run. cbn. exists None, k. repeat split; auto. discriminate.
  - subst run. cbn. exists None, k. repeat split; auto. discriminate.
Qed.

(** X10.  Image data of which no non-empty [Blob] can be made (the base64
    text does not decode, or decodes to nothing) is turned down before
    anything is sent: [uploadImage] returns [null] with no request and no
    transfer. *)
Theorem uploadImage_unusable_data imageBase64 w :
  unusable (browser w) imageBase64 = true ->
  let run := uploadImage imageBase64 w in
  fst run = Normal None
  /\ requests (snd run) = requests w
  /\ uploads (snd run) = uploads w.
Proof.
  intros Hu. cbn zeta.
  destruct (prepareUpload_budget imageBase64 w) as (k & _ & Er & Eu & _ & Hn).
  destruct (Hn Hu) as [E ->].
  unfold uploadImage, try_catch, bind.
  destruct (prepareUpload imageBase64 w) as [[v|e] w1]; cbn [fst snd] in *;
    [|discriminate].
  injection E as ->. cbn. rewrite Er, Eu. auto.
Qed.


End UploadingInGeneral.

(* ================================================================= *)
(** ** The elements written to a request *)

Section ElementsWritten.

Import Elements ElementUse.
Local Open Scope string_scope.
Local Open Scope list_scope.

Variable ids : ModelIds.

Lemma findElement_akUUID available elementId element :
  findElement available elementId = Some element ->
  akUUID element = elementId /\ In element available.
Proof.
  unfold findElement. intros H. apply find_some in H as [Hin Heq].
  split; [now apply String.eqb_eq|exact Hin].
Qed.

Lemma compatibleElements_ids selected model isLeonardoProcess :
  map pe_akUUID
    (compatibleElements (getAvailableElements ids) selected model
       isLeonardoProcess)
  = filter (accepted ids model) (map fst selected).
Proof.
  induction selected as [|[elementId w] rest IH]; [reflexivity|].
  cbn [compatibleElements map filter fst]. unfold accepted at 1.
  destruct (findElement (getAvailableElements ids) elementId) as [element|] eqn:E;
    [|exact IH].
  destruct (isCompatible element model); [|exact IH].
  cbn [map pe_akUUID]. rewrite IH.
  now destruct (findElement_akUUID _ _ _ E) as [-> _].
Qed.



Lemma nothing_accepted selected model isLeonardoProcess payload :
  (forall elementId, accepted ids model elementId = false) ->
  safelyAddElements ids payload selected model isLeonardoProcess = payload.
Proof.
  intros H. unfold safelyAddElements.
  destruct selected as [|s rest]; [reflexivity|].
  pose proof (compatibleElements_ids (s :: rest) model isLeonardoProcess) as E.
  replace (filter (accepted ids model) (map fst (s :: rest))) with (@nil string)
    in E.
  - apply map_eq_nil in E. now rewrite E.
  - symmetry. generalize (map fst (s :: rest)) as l.
    induction l as [|x l IH]; cbn; [reflexivity|]. now rewrite H.
Qed.

(** X13.  In [processWithImageToImageAndStyle], the only caller of
    [safelyAddElements], the model is AlbedoBase XL while the one available
    element goes with Anime XL only: unless the two model ids are
    configured to be the same, no selection of elements ever reaches the
    request. *)
Theorem style_request_has_no_elements selectedElements :
  ALBEDO_BASE_XL ids <> ANIME_XL ids ->
  styleRequestElements ids selectedElements
  = {| modelId := ALBEDO_BASE_XL ids; elements := None |}.
Proof.
  intros Hne. unfold styleRequestElements.
  destruct selectedElements as [[|e es]|]; try reflexivity.
  apply nothing_accepted. intros elementId.
  unfold accepted, findElement, getAvailableElements. cbn [find].
  destruct (String.eqb (akUUID (cuteEmotes ids)) elementId); [|reflexivity].
  cbn. rewrite orb_false_r. now apply String.eqb_neq.
Qed.

End ElementsWritten.

(* ================================================================= *)
(** ** Taking a data URL apart *)

Section DataUrls.

Import Upload DataUrl.
Local Open Scope string_scope.

Lemma splitComma_no_comma s : hasComma s = false -> splitComma s = [s].
Proof.
  induction s as [|c s IH]; [reflexivity|].
  cbn. destruct (Ascii.eqb c ","); [discriminate|].
  intros H. now rewrite (IH H).
Qed.

Lemma splitComma_header header rest :
  hasComma header = false ->
  splitComma (header ++ String "," rest) = header :: splitComma rest.
Proof.
  induction header as [|c h IH]; cbn.
  - reflexivity.
  - destruct (Ascii.eqb c ","); [discriminate|].
    intros H. now rewrite (IH H).
Qed.

Lemma splitComma_parts s :
  Forall (fun part => hasComma part = false) (splitComma s)
  /\ splitComma s <> [].
Proof.
  induction s as [|c s [IH Hne]]; cbn.
  - split; [repeat constructor|discriminate].
  - destruct (Ascii.eqb c ",") eqn:E.
    + split; [constructor; [reflexivity|exact IH]|discriminate].
    + destruct (splitComma s) as [|part parts]; [contradiction|].
      split; [|discriminate].
      inversion IH; subst. constructor; [|assumption].
      cbn. now rewrite E.
Qed.

Lemma splitComma_single s part : splitComma s = [part] -> s = part.
Proof.
  revert part. induction s as [|c s IH]; intros part; cbn.
  - now intros [= <-].
  - destruct (Ascii.eqb c ",").
    + destruct (splitComma_parts s) as [_ Hne].
      destruct (splitComma s); [contradiction|discriminate].
    + destruct (splitComma_parts s) as [_ Hne].
      destruct (splitComma s) as [|p [|q ps]]; try discriminate;
        [contradiction|].
      intros [= <-]. now rewrite (IH p eq_refl).
Qed.

(** X14.  What [extractBase64FromDataUrl] returns holds no comma, and the
    function gives it back unchanged when applied again. *)
Theorem extractBase64FromDataUrl_idempotent dataUrl :
  hasComma (extractBase64FromDataUrl dataUrl) = false
  /\ extractBase64FromDataUrl (extractBase64FromDataUrl dataUrl)
     = extractBase64FromDataUrl dataUrl.
Proof.
  assert (Fix : forall s, hasComma s = false -> extractBase64FromDataUrl s = s).
  { intros s H. unfold extractBase64FromDataUrl.
    destruct (String.eqb_spec s ""); [congruence|].
    now rewrite (splitComma_no_comma s H). }
  assert (H : hasComma (extractBase64FromDataUrl dataUrl) = false).
  { unfold extractBase64FromDataUrl.
    destruct (String.eqb dataUrl ""); [reflexivity|].
    destruct (splitComma_parts dataUrl) as [F Hne].
    destruct (splitComma dataUrl) as [|first [|part rest]] eqn:E;
      [contradiction| |].
    - rewrite (splitComma_single dataUrl first) by assumption.
      now inversion F.
    - inversion F as [|? ? _ F']; subst. now inversion F'. }
  split; [exact H|exact (Fix _ H)].
Qed.

Lemma extract_payload header payload :
  hasComma header = false -> hasComma payload = false ->
  extractBase64FromDataUrl (header ++ String "," payload) = payload.
Proof.
  intros Hh Hp. unfold extractBase64FromDataUrl.
  destruct (String.eqb_spec (header ++ String "," payload) "") as [E|_].
  - destruct header; discriminate.
  - now rewrite (splitComma_header _ _ Hh), (splitComma_no_comma _ Hp).
Qed.

(** X15.  Of a data URL whose header and payload hold no comma,
    [extractBase64FromDataUrl] returns the payload, whatever the header
    says. *)
Theorem extractBase64FromDataUrl_payload header payload :
  hasComma header = false -> hasComma payload = false ->
  extractBase64FromDataUrl (header ++ "," ++ payload) = payload.
Proof. apply extract_payload. Qed.

Lemma hasComma_app a b : hasComma (a ++ b) = hasComma a || hasComma b.
Proof.
  induction a as [|c a IH]; cbn; [reflexivity|].
  now rewrite IH, orb_assoc.
Qed.

Lemma append_assoc' (a b c : string) : (a ++ b) ++ c = a ++ b ++ c.
Proof. induction a as [|x a IH]; cbn; [reflexivity|]. now rewrite IH. Qed.

Lemma afterLiteral_app p s : afterLiteral p (p ++ s) = Some s.
Proof.
  induction p as [|a p IH]; cbn; [reflexivity|].
  now rewrite Ascii.eqb_refl.
Qed.

Lemma mimeRun_app mime rest :
  allMimeChars mime = true ->
  mimeRun (mime ++ String ";" rest) = (mime, String ";" rest).
Proof.
  induction mime as [|c m IH]; cbn; [reflexivity|].
  intros H. apply andb_prop in H as [Hc Hm].
  now rewrite Hc, (IH Hm).
Qed.

Lemma allMimeChars_no_comma mime :
  allMimeChars mime = true -> hasComma mime = false.
Proof.
  induction mime as [|c m IH]; cbn; [reflexivity|].
  intros H. apply andb_prop in H as [Hc Hm]. rewrite (IH Hm), orb_false_r.
  destruct (Ascii.eqb_spec c ","); [subst; discriminate|reflexivity].
Qed.

(** X16.  On a data URL of the form [data:<type>;base64,<payload>], where
    the type is a non-empty run of letters and of the marks [-], [+] and
    [/], the version of [advancedLeonardoService.ts] returns the payload;
    when the payload holds no comma the version of [leonardoService.ts]
    and [openaiService.ts] returns the same. *)
Theorem data_url_versions_agree mime payload :
  mime <> "" -> allMimeChars mime = true ->
  let dataUrl := "data:" ++ mime ++ ";base64," ++ payload in
  stripDataUrlPrefix dataUrl = payload
  /\ (hasComma payload = false ->
      extractBase64FromDataUrl dataUrl = payload).
Proof.
  intros Hne Hm. cbn zeta. split.
  - unfold stripDataUrlPrefix.
    rewrite (afterLiteral_app "data:").
    change (";base64," ++ payload) with (String ";" ("base64," ++ payload)).
    rewrite (mimeRun_app _ _ Hm).
    destruct mime as [|c m]; [contradiction|].
    change (String ";" ("base64," ++ payload)) with (";base64," ++ payload).
    now rewrite afterLiteral_app.
  - intros Hp.
    replace ("data:" ++ mime ++ ";base64," ++ payload)
      with (("data:" ++ mime ++ ";base64") ++ String "," payload).
    + apply extract_payload; [|exact Hp].
      rewrite !hasComma_app, (allMimeChars_no_comma _ Hm). reflexivity.
    + rewrite !append_assoc'. reflexivity.
Qed.

(** X17.  The page hands [analyzeImageWithOpenAI] the payload of its data
    URL, and the function puts the JPEG header in front of it: whatever
    type the data URL of the page declared, the image is sent on as
    [image/jpeg]. *)
Theorem analyzed_image_is_labelled_jpeg header payload :
  hasComma header = false -> hasComma payload = false ->
  prefix "data:" payload = false ->
  analyzedImage (header ++ "," ++ payload)
  = "data:image/jpeg;base64," ++ payload.
Proof.
  intros Hh Hp Hd. unfold analyzedImage.
  change ("," ++ payload) with (String "," payload).
  rewrite (extract_payload _ _ Hh Hp). unfold base64WithPrefix.
  now rewrite Hd.
Qed.

End DataUrls.

(* ================================================================= *)
(** ** The waiter of the advanced service *)

Section AdvancedWaiting.

Import Http Polling Scenario AdvancedService.
Local Open Scope string_scope.
Local Open Scope list_scope.

Variable generationId : string.

Lemma getGenerationResult_spec w :
  let run := getGenerationResult generationId w in
  exists result,
    fst run = Normal result
    /\ requests (snd run) = GenerationUrl generationId :: requests w
    /\ timers (snd run) = timers w
    /\ uploads (snd run) = uploads w
    /\ browser (snd run) = browser w
    /\ (result_status result <> complete ->
        result_imageUrl result = "" /\ result_imageId result = "")
    /\ (failedRequest (network (browser w) (fetches w)) = true ->
        result = only errorStatus)
    /\ (completeWithoutImage (network (browser w) (fetches w)) = true ->
        result_status result = complete /\ result_imageUrl result = "").
Proof.
  cbn zeta. unfold fetches.
  remember (getGenerationResult generationId w) as run eqn:H.
  unfold getGenerationResult, try_catch in H.
  unfold bind at 1, logger at 1 in H. unfold bind at 1, fetch at 1 in H.
  cbn [browser requests] in H.
  destruct (network (browser w) (List.length (requests w))) as [resp|e];
    [|subst run; cbn; eexists; repeat split; auto; easy].
  cbn [failedRequest completeWithoutImage].
  destruct (ok resp); cbn [negb andb orb] in *.
  - unfold bind at 1, json at 1 in H.
    destruct (body resp) as [data|];
      [|subst run; cbn; eexists; repeat split; auto; easy].
    unfold ret at 1 in H.
    destruct data as [[g|] u]; cbn [generations_by_pk] in H;
      [|subst run; cbn; eexists; repeat split; auto; easy].
    destruct g as [st images]; cbn [status generated_images] in H.
    destruct st;
      try (subst run; cbn; eexists; repeat split; auto; easy).
    destruct images as [|img imgs];
      [subst run; cbn; eexists; repeat split; auto; easy|].
    subst run; cbn. eexists. repeat split; auto; try easy.
    now apply String.eqb_eq.
  - unfold bind at 1, json at 1 in H.
    destruct (body resp) as [data|];
      subst run; cbn; eexists; repeat split; auto; easy.
Qed.

(** X18.  [getGenerationResult] never throws: it sends exactly one status
    request and answers with one of the four statuses.  Only a [complete]
    answer carries an image; a request that is rejected, has a status that
    is not 2xx, or a body that cannot be read gives [error]. *)
Theorem getGenerationResult_always_answers w :
  let run := getGenerationResult generationId w in
  exists result,
    fst run = Normal result
    /\ requests (snd run) = GenerationUrl generationId :: requests w
    /\ timers (snd run) = timers w
    /\ (result_status result <> complete ->
        result_imageUrl result = "" /\ result_imageId result = "")
    /\ (failedRequest (network (browser w) (fetches w)) = true ->
        result = only errorStatus).
Proof.
  destruct (getGenerationResult_spec w)
    as (result & H1 & H2 & H3 & _ & _ & H6 & H7 & _).
  exists result. auto.
Qed.

Lemma advanced_loop_spec interval :
  forall left w,
    let run := AdvancedService.waitForGenerationCompletion_loop generationId
                 interval left w in
    exists r k,
      fst run = Normal r
      /\ ((exists address, address <> "" /\ r = succeeded address)
          \/ (exists msg, r = failed msg))
      /\ (k <= left)%nat
      /\ requests (snd run) = repeat (GenerationUrl generationId) k ++ requests w
      /\ timers (snd run) = repeat interval k ++ timers w
      /\ uploads (snd run) = uploads w
      /\ browser (snd run) = browser w.
Proof.
  induction left as [|left IH]; intros w; cbn zeta.
  - exists (failed "生成任务超时"), 0%nat. cbn. repeat split; eauto.
  - remember (AdvancedService.waitForGenerationCompletion_loop generationId
                interval (S left) w) as run eqn:H.
    cbn [AdvancedService.waitForGenerationCompletion_loop] in H.
    unfold bind at 1, sleep at 1 in H. unfold bind at 1 in H.
    match type of H with
    | context [getGenerationResult generationId ?w0] =>
        destruct (getGenerationResult_spec w0)
          as (result & E & Er & Et & Eu & Eb & _);
        destruct (getGenerationResult generationId w0) as [[res|e] w1];
        cbn [fst snd requests timers uploads browser] in *;
        [injection E as ->|discriminate]
    end.
    assert (Stop : forall r w2,
              requests w2 = requests w1 -> timers w2 = timers w1 ->
              uploads w2 = uploads w1 -> browser w2 = browser w1 ->
              ((exists address, address <> "" /\ r = succeeded address)
               \/ (exists msg, r = failed msg)) ->
              run = (Normal r, w2) ->
              exists r k,
                fst run = Normal r
                /\ ((exists address, address <> "" /\ r = succeeded address)
                    \/ (exists msg, r = failed msg))
                /\ (k <= S left)%nat
                /\ requests (snd run)
                   = repeat (GenerationUrl generationId) k ++ requests w
                /\ timers (snd run) = repeat interval k ++ timers w
                /\ uploads (snd run) = uploads w
                /\ browser (snd run) = browser w).
    { intros r w2 Hr Ht Hu Hb Hs ->. exists r, 1%nat. cbn.
      rewrite Hr, Ht, Hu, Hb, Er, Et, Eu, Eb. repeat split; auto; lia. }
    assert (Step : forall w2,
              requests w2 = requests w1 -> timers w2 = timers w1 ->
              uploads w2 = uploads w1 -> browser w2 = browser w1 ->
              run = AdvancedService.waitForGenerationCompletion_loop
                      generationId interval left w2 ->
              exists r k,
                fst run = Normal r
                /\ ((exists address, address <> "" /\ r = succeeded address)
                    \/ (exists msg, r = failed msg))
                /\ (k <= S left)%nat
                /\ requests (snd run)
                   = repeat (GenerationUrl generationId) k ++ requests w
                /\ timers (snd run) = repeat interval k ++ timers w
                /\ uploads (snd run) = uploads w
                /\ browser (snd run) = browser w).
    { intros w2 Hr Ht Hu Hb ->.
      destruct (IH w2) as (r & k & E1 & E2 & E3 & E4 & E5 & E6 & E7).
      exists r, (S k).
      rewrite E1, E4, E5, E6, E7, Hr, Ht, Hu, Hb, Er, Et, Eu, Eb.
      repeat split; auto; try lia; now rewrite repeat_snoc. }
    destruct (result_status result) eqn:Es.
    + unfold Polling.truthyString in H.
      destruct (String.eqb (result_imageUrl result) "") eqn:Eu0; cbn [negb] in H.
      * eapply Step; [..|exact H]; reflexivity.
      * eapply Stop; [..|exact H]; try reflexivity.
        left. eexists. split; [|reflexivity].
        intros E. rewrite E in Eu0. discriminate.
    + eapply Stop; [..|exact H]; try reflexivity. right. eauto.
    + eapply Step; [..|exact H]; reflexivity.
    + eapply Stop; [..|exact H]; try reflexivity. right. eauto.
Qed.

(** X19.  [waitForGenerationCompletion] of the advanced service never
    throws: it returns a success with a non-empty image address or a
    failure with a message, after at most [maxAttempts] status requests,
    each one preceded by exactly one wait of [interval]. *)
Theorem advanced_wait_always_answers maxAttempts interval w :
  let run := AdvancedService.waitForGenerationCompletion generationId
               maxAttempts interval w in
  exists r k,
    fst run = Normal r
    /\ ((exists address, address <> "" /\ r = succeeded address)
        \/ (exists msg, r = failed msg))
    /\ (k <= maxAttempts)%nat
    /\ requests (snd run) = repeat (GenerationUrl generationId) k ++ requests w
    /\ timers (snd run) = repeat interval k ++ timers w
    /\ uploads (snd run) = uploads w.
Proof.
  cbn zeta. unfold AdvancedService.waitForGenerationCompletion.
  unfold bind, logger.
  match goal with
  | |- context [AdvancedService.waitForGenerationCompletion_loop _ _ _ ?w0] =>
      destruct (advanced_loop_spec interval maxAttempts w0)
        as (r & k & H1 & H2 & H3 & H4 & H5 & H6 & _)
  end.
  exists r, k. cbn in H4, H5, H6. auto 10.
Qed.

Lemma advanced_loop_without_image interval b :
  (forall n, completeWithoutImage (network b n) = true) ->
  forall left w,
    browser w = b ->
    let run := AdvancedService.waitForGenerationCompletion_loop generationId
                 interval left w in
    fst run = Normal (failed "生成任务超时")
    /\ requests (snd run)
       = repeat (GenerationUrl generationId) left ++ requests w
    /\ timers (snd run) = repeat interval left ++ timers w.
Proof.
  intros Hb. induction left as [|left IH]; intros w Hw; cbn zeta.
  - cbn. auto.
  - remember (AdvancedService.waitForGenerationCompletion_loop generationId
                interval (S left) w) as run eqn:H.
    cbn [AdvancedService.waitForGenerationCompletion_loop] in H.
    unfold bind at 1, sleep at 1 in H. unfold bind at 1 in H.
    match type of H with
    | context [getGenerationResult generationId ?w0] =>
        destruct (getGenerationResult_spec w0)
          as (result & E & Er & Et & Eu & Eb & _ & _ & Hc);
        destruct (getGenerationResult generationId w0) as [[res|e] w1];
        cbn [fst snd requests timers uploads browser fetches] in *;
        [injection E as ->|discriminate]
    end.
    destruct Hc as [Hs Hu]; [rewrite Hw; apply Hb|].
    rewrite Hs, Hu in H. cbn in H.
    match type of H with
    | run = AdvancedService.waitForGenerationCompletion_loop _ _ _ ?w2 =>
        destruct (IH w2) as (E1 & E2 & E3); [cbn; congruence|]
    end.
    subst run. rewrite E1, E2, E3. cbn [requests timers]. rewrite Er, Et.
    repeat split; cbn [repeat]; now rewrite repeat_snoc.
Qed.

Lemma result_loop_without_image left pollCount w :
  completeWithoutImage (network (browser w) (fetches w)) = true ->
  let run := waitForGenerationResultUrl_loop generationId (S left) pollCount w in
  fst run = Normal (failed "生成完成但未找到图像URL")
  /\ requests (snd run) = GenerationUrl generationId :: requests w.
Proof.
  intros Hb. cbn zeta. unfold fetches in Hb.
  remember (waitForGenerationResultUrl_loop generationId (S left) pollCount w)
    as run eqn:H.
  cbn [waitForGenerationResultUrl_loop] in H.
  unfold bind at 1, fetch at 1 in H.
  destruct (network (browser w) (List.length (requests w))) as [resp|e];
    [|discriminate].
  cbn [completeWithoutImage] in Hb. apply andb_prop in Hb as [Hok Hb].
  rewrite Hok in H. cbn [negb] in H. unfold bind at 1, json at 1 in H.
  destruct (body resp) as [[[[st images]|] u]|]; try discriminate.
  destruct st; try discriminate.
  unfold ret at 1 in H. cbn [generations_by_pk status] in H.
  unfold firstImageUrl in H. cbn [generated_images] in H.
  destruct images as [|img imgs]; [subst run; cbn; auto|].
  unfold Polling.truthyString in H. rewrite Hb in H. subst run. cbn. auto.
Qed.

(** X20.  A generation reported as complete without an image address is
    treated differently by the two services.  The waiter of the advanced
    service takes such an answer for a pending one: when every answer is of
    that kind it polls until its attempts are used up and reports a
    timeout.  [waitForGenerationResultUrl] gives up at the first such answer
    and reports that no image address was found. *)
Theorem complete_without_image_address b maxAttempts interval w :
  (forall n, completeWithoutImage (network b n) = true) -> browser w = b ->
  (let run := AdvancedService.waitForGenerationCompletion generationId
                maxAttempts interval w in
   fst run = Normal (failed "生成任务超时")
   /\ requests (snd run)
      = repeat (GenerationUrl generationId) maxAttempts ++ requests w)
  /\ (let run := waitForGenerationResultUrl generationId w in
      fst run = Normal (failed "生成完成但未找到图像URL")
      /\ requests (snd run) = GenerationUrl generationId :: requests w).
Proof.
  intros Hb Hw. split; cbn zeta.
  - unfold AdvancedService.waitForGenerationCompletion, bind, logger.
    match goal with
    | |- context [AdvancedService.waitForGenerationCompletion_loop _ _ _ ?w0] =>
        destruct (advanced_loop_without_image interval b Hb maxAttempts w0)
          as (E1 & E2 & _); [exact Hw|]
    end.
    rewrite E1, E2. auto.
  - specialize (Hb (fetches w)). rewrite <- Hw in Hb.
    destruct (result_loop_without_image 39 0 w Hb) as [E1 E2].
    unfold waitForGenerationResultUrl, try_catch.
    change MAX_POLLS with 40%nat.
    destruct (waitForGenerationResultUrl_loop generationId 40 0 w)
      as [[r|e] w1]; cbn [fst snd] in *; [|discriminate].
    injection E1 as ->. auto.
Qed.

Lemma advanced_loop_first_error interval left w :
  failedRequest (network (browser w) (fetches w)) = true ->
  let run := AdvancedService.waitForGenerationCompletion_loop generationId
               interval (S left) w in
  fst run = Normal (failed "生成任务失败: error")
  /\ requests (snd run) = GenerationUrl generationId :: requests w
  /\ timers (snd run) = interval :: timers w.
Proof.
  intros Hf. cbn zeta.
  remember (AdvancedService.waitForGenerationCompletion_loop generationId
              interval (S left) w) as run eqn:H.
  cbn [AdvancedService.waitForGenerationCompletion_loop] in H.
  unfold bind at 1, sleep at 1 in H. unfold bind at 1 in H.
  match type of H with
  | context [getGenerationResult generationId ?w0] =>
      destruct (getGenerationResult_spec w0)
        as (result & E & Er & Et & _ & _ & _ & He & _);
      destruct (getGenerationResult generationId w0) as [[res|e] w1];
      cbn [fst snd requests timers uploads browser fetches] in *;
      [injection E as ->|discriminate]
  end.
  rewrite (He Hf) in H. subst run. cbn. rewrite Er, Et. auto.
Qed.

(** X21.  In the advanced service one failed status request ends the wait:
    when the first request is rejected, has a status that is not 2xx, or a
    body that cannot be read, the waiter returns the failure
    [生成任务失败: error] after that one request, whatever is left of its
    attempts. *)
Theorem advanced_wait_stops_at_first_error maxAttempts interval w :
  failedRequest (network (browser w) (fetches w)) = true ->
  let run := AdvancedService.waitForGenerationCompletion generationId
               (S maxAttempts) interval w in
  fst run = Normal (failed "生成任务失败: error")
  /\ requests (snd run) = GenerationUrl generationId :: requests w
  /\ timers (snd run) = interval :: timers w.
Proof.
  intros Hf. cbn zeta.
  unfold AdvancedService.waitForGenerationCompletion, bind, logger.
  match goal with
  | |- context [AdvancedService.waitForGenerationCompletion_loop _ _ _ ?w0] =>
      destruct (advanced_loop_first_error interval maxAttempts w0 Hf)
        as (E1 & E2 & E3)
  end.
  rewrite E1, E2, E3. auto.
Qed.

End AdvancedWaiting.

(* ================================================================= *)
(** ** What the logger lets through *)

Section Logging.

Import Logger.
Local Open Scope string_scope.
Local Open Scope list_scope.

Lemma perform_level c st : currentLogLevel (perform c st) = currentLogLevel st.
Proof.
  unfold perform, log.
  destruct (rank (levelOf (call_method c)) <? rank (currentLogLevel st))%Z;
    [reflexivity|].
  destruct (levelOf (call_method c)); reflexivity.
Qed.

Lemma perform_dropped level c st :
  passes level c = false -> currentLogLevel st = level -> perform c st = st.
Proof.
  unfold passes, perform, log. intros H ->.
  apply Z.leb_gt in H. apply Z.ltb_lt in H. now rewrite H.
Qed.

Lemma perform_passed level c st :
  passes level c = true -> currentLogLevel st = level ->
  perform c st = withLevel level (perform c (withLevel DEBUG st)).
Proof.
  unfold passes, perform, log. intros H <-.
  apply Z.leb_le in H.
  replace (rank (levelOf (call_method c)) <? rank (currentLogLevel st))%Z
    with false by (symmetry; apply Z.ltb_ge; exact H).
  cbn [withLevel currentLogLevel hasWindow clock ticks console].
  replace (rank (levelOf (call_method c)) <? rank DEBUG)%Z with false
    by (destruct (call_method c); reflexivity).
  destruct st as [l hw ck tk cs]. cbn.
  destruct (call_method c); reflexivity.
Qed.

Lemma withLevel_withLevel a b st : withLevel a (withLevel b st) = withLevel a st.
Proof. reflexivity. Qed.

Lemma perform_withLevel_DEBUG c st :
  currentLogLevel st = DEBUG ->
  forall level,
    perform c (withLevel DEBUG (withLevel level st))
    = withLevel DEBUG (perform c st).
Proof.
  intros H level. destruct st as [l hw ck tk cs]. cbn in H. subst l.
  unfold perform, log. cbn.
  destruct (call_method c); reflexivity.
Qed.

(** X22.  A threshold works like a filter in front of the logger: for every
    sequence of calls of the four methods, the console ends up as it would
    with the threshold [DEBUG] and only the calls at or above the threshold
    made.  With the threshold [NONE] nothing is written at all. *)
Theorem threshold_is_a_filter calls level st :
  performAll calls (withLevel level st)
  = withLevel level
      (performAll (filter (passes level) calls) (withLevel DEBUG st))
  /\ console (performAll calls (withLevel NONE st)) = console st.
Proof.
  assert (G : forall level st,
            currentLogLevel st = DEBUG ->
            performAll calls (withLevel level st)
            = withLevel level (performAll (filter (passes level) calls) st)).
  { clear. intros level. induction calls as [|c calls IH]; intros st H.
    - reflexivity.
    - cbn [performAll fold_left filter].
      destruct (passes level c) eqn:P.
      + rewrite (perform_passed level c) by (auto; reflexivity).
        rewrite perform_withLevel_DEBUG by exact H.
        rewrite withLevel_withLevel.
        cbn [fold_left]. apply IH. now rewrite perform_level.
      + rewrite (perform_dropped level c) by (auto; reflexivity).
        apply IH, H. }
  split; [apply (G level (withLevel DEBUG st)); reflexivity|].
  change (withLevel NONE st) with (withLevel NONE (withLevel DEBUG st)).
  rewrite (G NONE (withLevel DEBUG st) eq_refl).
  replace (filter (passes NONE) calls) with (@nil Call).
  - reflexivity.
  - clear. induction calls as [|c calls IH]; [reflexivity|].
    cbn. rewrite <- IH. unfold passes. now destruct (call_method c).
Qed.

(** X23.  [setLogLevel] sets the threshold first and announces it second,
    at the level INFO: the announcement is written when the new threshold is
    DEBUG or INFO, and is itself filtered out when it is WARN, ERROR or
    NONE. *)
Theorem setLogLevel_announcement level st :
  getLogLevel (setLogLevel level st) = level
  /\ (rank level <= rank INFO ->
      exists line, console (setLogLevel level st) = line :: console st)
  /\ (rank INFO < rank level -> console (setLogLevel level st) = console st).
Proof.
  unfold getLogLevel, setLogLevel, log.
  destruct level; cbn; repeat split; try lia; intros _;
    destruct (hasWindow st); cbn; eauto.
Qed.

End Logging.

(* ================================================================= *)
(** ** What the compression leaves, and tagged descriptions *)

Section Compression.

Import Text Markers.
Local Open Scope list_scope.

Lemma spaces_after_skip s :
  forall n, spacesThenNewline s = Some n -> spacesThenNewline (skipn n s) = None.
Proof.
  induction s as [|c s IH]; intros n H; [discriminate|].
  cbn in H. destruct (isSpace c); [|discriminate].
  destruct (spacesThenNewline s) as [m|] eqn:E.
  - injection H as <-. cbn. now apply IH.
  - destruct (c =? NL); [|discriminate]. injection H as <-. exact E.
Qed.

Lemma isSpace_NL : isSpace NL = true.
Proof. reflexivity. Qed.

Lemma spaces_kept s :
  spacesThenNewline s = None ->
  forall fuel, spacesThenNewline (replaceBlankLines fuel s) = None.
Proof.
  induction s as [|c s IH]; intros H fuel; [destruct fuel; reflexivity|].
  destruct fuel as [|fuel]; [exact H|].
  cbn in H. cbn [replaceBlankLines].
  destruct (isSpace c) eqn:Ec.
  - destruct (spacesThenNewline s) as [m|] eqn:E; [discriminate|].
    destruct (c =? NL) eqn:En; [discriminate|].
    cbn. now rewrite Ec, (IH eq_refl fuel), En.
  - destruct (c =? NL) eqn:En.
    + apply Z.eqb_eq in En. subst c. rewrite isSpace_NL in Ec. discriminate.
    + cbn. now rewrite Ec.
Qed.

Lemma skipn_length_le {A} n (l : list A) :
  (List.length (skipn n l) <= List.length l)%nat.
Proof. rewrite length_skipn. lia. Qed.

Lemma replaceBlankLines_leaves_none fuel :
  forall s, (List.length s <= fuel)%nat ->
    ~ hasBlankLine (replaceBlankLines fuel s).
Proof.
  induction fuel as [|fuel IH]; intros s Hl.
  - destruct s; [|cbn in Hl; lia].
    intros (pre & post & n & E & _). destruct pre; discriminate.
  - destruct s as [|c s].
    + intros (pre & post & n & E & _). destruct pre; discriminate.
    + cbn in Hl. cbn [replaceBlankLines].
      assert (Tail : forall t x,
                (List.length t <= fuel)%nat ->
                (x = NL -> spacesThenNewline (replaceBlankLines fuel t) = None) ->
                ~ hasBlankLine (x :: replaceBlankLines fuel t)).
      { intros t x Ht Hx (pre & post & n & E & Hn).
        destruct pre as [|y pre]; cbn in E.
        - injection E as -> <-. rewrite (Hx eq_refl) in Hn. discriminate.
        - injection E as _ E. apply (IH t Ht). exists pre, post, n. auto. }
      destruct (c =? NL) eqn:Ec.
      * destruct (spacesThenNewline s) as [n|] eqn:En.
        -- apply Tail.
           ++ pose proof (skipn_length_le n s). lia.
           ++ intros _. apply spaces_kept, spaces_after_skip, En.
        -- apply Tail; [lia|]. intros _. apply spaces_kept, En.
      * apply Tail; [lia|]. intros ->. discriminate.
Qed.

Lemma compress_is_first_pass s :
  compress s = replaceBlankLines (List.length s) s.
Proof.
  unfold compress. apply replaceNewlineRuns_same.
  apply replaceBlankLines_leaves_none. lia.
Qed.

Lemma compress_leaves_none s : ~ hasBlankLine (compress s).
Proof.
  rewrite compress_is_first_pass. apply replaceBlankLines_leaves_none. lia.
Qed.

Lemma no_blank_line_in_nil : ~ hasBlankLine [].
Proof. intros (pre & post & n & E & _). destruct pre; discriminate. Qed.

(** X24.  Whatever the text, neither segment that
    [separateChineseAndEnglishText] returns holds a blank line (a newline,
    white space only, and a newline again); and the second replacement of
    the compression, of three or more newlines by two, never finds anything
    to replace after the first. *)
Theorem separated_text_has_no_blank_line text :
  ~ hasBlankLine (chineseText (separateChineseAndEnglishText text))
  /\ ~ hasBlankLine (englishText (separateChineseAndEnglishText text))
  /\ forall s,
       replaceNewlineRuns
         (List.length (replaceBlankLines (List.length s) s))
         (replaceBlankLines (List.length s) s)
       = replaceBlankLines (List.length s) s.
Proof.
  split; [|split].
  - unfold separateChineseAndEnglishText.
    destruct (chineseMatch text) as [g|];
      [destruct (nonEmpty g)|];
      destruct (englishMatch text) as [h|];
      try destruct (nonEmpty h);
      repeat match goal with
             | |- context [if ?b then _ else _] => destruct b
             | |- context [findEnglish ?a ?b] => destruct (findEnglish a b) as [[? ?]|]
             end;
      cbn [chineseText englishText];
      first [apply compress_leaves_none | apply no_blank_line_in_nil].
  - unfold separateChineseAndEnglishText.
    destruct (chineseMatch text) as [g|];
      [destruct (nonEmpty g)|];
      destruct (englishMatch text) as [h|];
      try destruct (nonEmpty h);
      repeat match goal with
             | |- context [if ?b then _ else _] => destruct b
             | |- context [findEnglish ?a ?b] => destruct (findEnglish a b) as [[? ?]|]
             end;
      cbn [chineseText englishText];
      first [apply compress_leaves_none | apply no_blank_line_in_nil].
  - intros s. apply replaceNewlineRuns_same.
    apply replaceBlankLines_leaves_none. lia.
Qed.

Lemma startsWith_long p : forall post rest,
  (List.length p <= List.length post)%nat ->
  startsWithIgnoreCase p (post ++ rest) = startsWithIgnoreCase p post.
Proof.
  induction p as [|a p IH]; intros post rest H; [reflexivity|].
  destruct post as [|x post]; [cbn in H; lia|].
  cbn. rewrite IH by (cbn in H; lia). reflexivity.
Qed.

Lemma startsWith_short p : forall post rest,
  startsWithIgnoreCase p (post ++ rest) = true ->
  startsWithIgnoreCase (skipn (List.length post) p) rest = true.
Proof.
  induction p as [|a p IH]; intros post rest H.
  - now rewrite skipn_nil.
  - destruct post as [|x post]; [exact H|].
    cbn in H. apply andb_prop in H as [_ H]. cbn. now apply IH.
Qed.

Lemma startsWith_spelling p : forall m rest,
  spelling p m = true -> startsWithIgnoreCase p (m ++ rest) = true.
Proof.
  induction p as [|a p IH]; intros m rest H; [reflexivity|].
  destruct m as [|c m]; [discriminate|].
  cbn in H |- *. apply andb_prop in H as [-> H]. now apply IH.
Qed.

Lemma spelling_length p : forall m,
  spelling p m = true -> List.length m = List.length p.
Proof.
  induction p as [|a p IH]; intros [|c m] H; try discriminate; [reflexivity|].
  cbn in H |- *. apply andb_prop in H as [_ H]. now rewrite (IH m H).
Qed.

Lemma afterMarker_here p m rest :
  spelling p m = true -> afterMarker p (m ++ rest) = Some rest.
Proof.
  intros H. pose proof (startsWith_spelling p m rest H) as E.
  pose proof (spelling_length p m H) as L.
  assert (S : skipn (List.length p) (m ++ rest) = rest).
  { rewrite <- L, skipn_app, skipn_all, Nat.sub_diag. reflexivity. }
  destruct (m ++ rest) eqn:Em; cbn [afterMarker]; rewrite E; now rewrite S.
Qed.

(** The marker does not overlap itself: a match that starts inside [post]
    lies inside [post]. *)
Lemma english_marker_inside tag rest post :
  spelling englishMarker tag = true ->
  post <> [] ->
  startsWithIgnoreCase englishMarker (post ++ tag ++ rest) = true ->
  startsWithIgnoreCase englishMarker post = true.
Proof.
  intros Ht Hne H.
  destruct (Nat.le_gt_cases (List.length englishMarker) (List.length post))
    as [L|L].
  - now rewrite startsWith_long in H.
  - apply startsWith_short in H. exfalso.
    change englishMarker with [91; 69; 110; 103; 108; 105; 115; 104; 93] in *.
    destruct tag as [|t0 tag]; [discriminate|].
    cbn [spelling] in Ht. apply andb_prop in Ht as [H0 _].
    unfold eqIgnoreCase in H0. apply Z.eqb_eq in H0.
    change (upcase 91) with 91 in H0.
    destruct post as [|x1 post]; [contradiction|].
    cbn [List.length] in L.
    do 8 (destruct post as [|? post];
          [cbn [List.length skipn app startsWithIgnoreCase] in H;
           apply andb_prop in H as [H _];
           unfold eqIgnoreCase in H; rewrite <- H0 in H;
           vm_compute in H; discriminate H|]).
    cbn in L. lia.
Qed.

Lemma upToEnglishMarker_part tag rest :
  spelling englishMarker tag = true ->
  forall part,
    ~ occursIn englishMarker part ->
    upToEnglishMarker (part ++ tag ++ rest) = part
    /\ afterMarker englishMarker (part ++ tag ++ rest) = Some rest.
Proof.
  intros Ht. induction part as [|c part IH]; intros H.
  - cbn [app]. split; [|now apply afterMarker_here].
    pose proof (startsWith_spelling _ _ rest Ht) as E.
    destruct (tag ++ rest) eqn:Em; cbn [upToEnglishMarker]; now rewrite E.
  - assert (E : startsWithIgnoreCase englishMarker
                  ((c :: part) ++ tag ++ rest) = false).
    { destruct (startsWithIgnoreCase englishMarker
                  ((c :: part) ++ tag ++ rest)) eqn:E; [|reflexivity].
      exfalso. apply H. exists [], (c :: part). split; [reflexivity|].
      eapply english_marker_inside; [exact Ht|discriminate|exact E]. }
    destruct (IH ltac:(intros (pre & post & -> & Hp); apply H;
                       exists (c :: pre), post; auto)) as [IH1 IH2].
    cbn [app] in *. cbn [upToEnglishMarker afterMarker].
    rewrite E, IH1, IH2. auto.
Qed.

(** No match of the English marker starts inside a Chinese marker. *)
Lemma english_after_chinese_tag tag text :
  spelling chineseMarker tag = true ->
  afterMarker englishMarker (tag ++ text) = afterMarker englishMarker text.
Proof.
  intros H.
  change chineseMarker with [91; 67; 104; 105; 110; 101; 115; 101; 93] in H.
  change englishMarker with [91; 69; 110; 103; 108; 105; 115; 104; 93].
  do 9 (destruct tag as [|? tag];
        [cbn [spelling] in H; rewrite ?andb_false_r in H; discriminate|]).
  destruct tag; [|cbn [spelling] in H; rewrite !andb_false_r in H; discriminate].
  cbn [spelling] in H.
  repeat match type of H with
         | _ && _ = true => let E := fresh "E" in apply andb_prop in H as [E H]
         end.
  unfold eqIgnoreCase in *.
  repeat match goal with
         | E : (upcase ?a =? upcase ?z0) = true |- _ =>
             apply Z.eqb_eq in E;
             let v := eval vm_compute in (upcase a) in
             change (upcase a) with v in E
         end.
  cbn [app].
  do 9 (match goal with
        | |- afterMarker ?p (?z0 :: ?t) = _ =>
            replace (afterMarker p (z0 :: t)) with (afterMarker p t);
              [|cbn [afterMarker startsWithIgnoreCase]; unfold eqIgnoreCase;
                change (upcase 91) with 91;
                repeat match goal with
                       | E : _ = upcase ?y |- _ => rewrite <- E
                       end;
                reflexivity]
        end).
  reflexivity.
Qed.

Lemma nonEmpty_compress s : nonEmpty (compress s) = nonEmpty s.
Proof.
  rewrite compress_is_first_pass. destruct s as [|c s]; [reflexivity|].
  cbn [List.length replaceBlankLines].
  destruct (c =? NL); [destruct (spacesThenNewline s)|]; reflexivity.
Qed.

Lemma nonEmpty_false s : nonEmpty s = false -> s = [].
Proof. destruct s; [reflexivity|discriminate]. Qed.

(** X25.  A description written as asked, a Chinese part behind the marker
    [[Chinese]] and an English part behind the marker [[English]] (the
    markers in any mixture of upper and lower case), is taken apart into
    these two parts, each trimmed and with its blank lines removed; this
    holds whenever the Chinese part does not itself hold an English marker
    and at least one part has a character that is not white space. *)
Theorem tagged_description_is_separated chineseTag chinese englishTag english :
  spelling chineseMarker chineseTag = true ->
  spelling englishMarker englishTag = true ->
  ~ occursIn englishMarker chinese ->
  trim chinese <> [] \/ trim english <> [] ->
  separateChineseAndEnglishText
    (tagged chineseTag chinese englishTag english)
  = {| chineseText := compress (trim chinese);
       englishText := compress (trim english) |}.
Proof.
  intros Hc He Hno Hsome.
  destruct (upToEnglishMarker_part englishTag english He chinese Hno)
    as [U A].
  unfold separateChineseAndEnglishText, chineseMatch, englishMatch, tagged.
  rewrite (afterMarker_here _ _ _ Hc), (english_after_chinese_tag _ _ Hc).
  cbn [option_map]. rewrite U, A.
  replace (if nonEmpty chinese then compress (trim chinese) else [])
    with (compress (trim chinese))
    by (destruct chinese; reflexivity).
  replace (if nonEmpty english then compress (trim english) else [])
    with (compress (trim english))
    by (destruct english; reflexivity).
  rewrite !nonEmpty_compress.
  destruct (nonEmpty (trim chinese)) eqn:Ec; [reflexivity|].
  destruct (nonEmpty (trim english)) eqn:Ee; [reflexivity|].
  apply nonEmpty_false in Ec, Ee. destruct Hsome; contradiction.
Qed.

End Compression.

(* ================================================================= *)
(** ** The shorter side *)

Section ShortSide.

Import Dimensions Sizing.

Lemma halves width height :
  fitDimensions width height = limitPixels (fitToAspect width height).
Proof.
  unfold fitDimensions, limitPixels, fitToAspect.
  repeat match goal with
         | |- context [if ?b then _ else _] => destruct b
         end; reflexivity.
Qed.

Lemma floor8_atMost_516 x :
  atMost x 516 -> exists j, 0 <= j <= 64 /\ floor8 x = ofZ (8 * j).
Proof.
  intros Hx. unfold floor8.
  destruct (ratio_constant (ratio false 129 2) 129 2
              ltac:(vm_compute; reflexivity) ltac:(vm_compute; reflexivity))
    as [F V].
  assert (Hb : atMost (div x (ofZ 8)) (valueOf (ratio false 129 2))).
  { apply div_atMost with (vx := 516%R) (vy := 8%R); try assumption.
    - apply (atLeast_constant 8); vm_compute; reflexivity.
    - lra.
    - rewrite V. lra. }
  rewrite V in Hb. destruct Hb as [[Hz|Hf] Hv].
  - rewrite Hz. exists 0. split; [lia|]. reflexivity.
  - destruct (floor_finitePos _ Hf) as [(j & Hj0 & Ej & Hj1 & Hj2)|[_ Hbig]].
    + assert (j <= 64).
      { assert (j < 65); [|lia]. apply lt_IZR. lra. }
      exists j. split; [lia|]. rewrite Ej. apply grid. lia.
    + exfalso. change (2 ^ 52) with 4503599627370496 in Hbig. lra.
Qed.

Theorem fitToAspect_short_side width height :
  finitePos width -> finitePos height ->
  exists j,
    64 <= j <= 96
    /\ fitToAspect width height
       = sized (ge (div width height) (ofZ 1)) j.
Proof.
  intros Hw Hh.
  constant 1. constant 512. constant 768. constant 516.
  destruct (ratio_constant wideTurn 3 2
              ltac:(vm_compute; reflexivity) ltac:(vm_compute; reflexivity))
    as [Fw Vw].
  destruct (ratio_constant tallTurn 43 64
              ltac:(vm_compute; reflexivity) ltac:(vm_compute; reflexivity))
    as [Ft Vt].
  assert (E1 : Math_max minDimension (floor8 minDimension) = ofZ 512)
    by (vm_compute; reflexivity).
  assert (E2 : floor8 maxDimension = ofZ 768) by (vm_compute; reflexivity).
  assert (E3 : floor8 minDimension = ofZ 512) by (vm_compute; reflexivity).
  assert (Small : forall x, atMost x 516 ->
            (if lt (floor8 x) minDimension then ofZ 512 else floor8 x)
            = ofZ 512).
  { intros x Hx. destruct (floor8_atMost_516 x Hx) as (j & Hj & ->).
    destruct (grid j ltac:(lia)) as (_ & -> & _).
    destruct (Z.ltb_spec j 64) as [L|L]; [reflexivity|].
    replace j with 64 by lia. reflexivity. }
  unfold fitToAspect, sized. rewrite E1, E2, E3.
  pose proof (div_class _ _ Hw Hh) as Hc.
  pose proof (ge_cases (div width height) (ofZ 1) Hc F) as Hr.
  set (r := div width height) in *.
  destruct (ge r (ofZ 1)); rewrite V in Hr.
  - (* wide *)
    assert (A : atLeast (mul (ofZ 512) r) 512).
    { rewrite <- V0.
      apply (mul_atLeast (ofZ 512) r 512 1 (ofZ 512)); try assumption; try lra.
      right. split; [exact F0|]. lra. }
    destruct (floor8_atLeast _ A) as [(j & Hj & E)|G].
    + rewrite E. destruct (grid j ltac:(lia)) as (_ & _ & -> & _).
      exists j. auto.
    + rewrite G. exists 96. split; [lia|].
      pose proof (ge_cases r wideTurn Hc Fw) as Ht.
      destruct (ge r wideTurn); rewrite Vw in Ht.
      * assert (B : atMost (div (ofZ 768) r) 516).
        { rewrite <- V2.
          apply (div_atMost (ofZ 768) r 768 (3 / 2) (ofZ 516));
            try assumption; try lra;
            try (split; [right; assumption|lra]). }
        pose proof (Small _ B) as S.
        destruct (lt (floor8 (div (ofZ 768) r)) minDimension);
          rewrite ?S; reflexivity.
      * exfalso.
        assert (B : atMost (mul (ofZ 512) r) 768).
        { rewrite <- V1.
          apply (mul_atMost (ofZ 512) r 512 (3 / 2) (ofZ 768));
            try assumption; try lra;
            try (split; [right; assumption|lra]). }
        destruct (floor8_atMost _ B) as (j & Hj & E). rewrite E in G.
        destruct (grid j ltac:(lia)) as (_ & _ & G' & _). congruence.
  - (* tall *)
    assert (A : atLeast (div (ofZ 512) r) 512).
    { rewrite <- V0.
      apply (div_atLeast (ofZ 512) r 512 1 (ofZ 512)); try assumption; try lra.
      right. split; [exact F0|]. lra. }
    destruct (floor8_atLeast _ A) as [(j & Hj & E)|G].
    + rewrite E. destruct (grid j ltac:(lia)) as (_ & _ & -> & _).
      exists j. auto.
    + rewrite G. exists 96. split; [lia|].
      pose proof (ge_cases r tallTurn Hc Ft) as Ht.
      destruct (ge r tallTurn); rewrite Vt in Ht.
      * exfalso.
        assert (B : atMost (div (ofZ 512) r) 768).
        { rewrite <- V1.
          apply (div_atMost (ofZ 512) r 512 (43 / 64) (ofZ 768));
            try assumption; try lra;
            try (split; [right; assumption|lra]). }
        destruct (floor8_atMost _ B) as (j & Hj & E). rewrite E in G.
        destruct (grid j ltac:(lia)) as (_ & _ & G' & _). congruence.
      * assert (B : atMost (mul (ofZ 768) r) 516).
        { rewrite <- V2.
          apply (mul_atMost (ofZ 768) r 768 (43 / 64) (ofZ 516));
            try assumption; try lra;
            try (split; [right; assumption|lra]). }
        pose proof (Small _ B) as S.
        destruct (lt (floor8 (mul (ofZ 768) r)) minDimension);
          rewrite ?S; reflexivity.
Qed.

Lemma limitPixels_sized wide j :
  64 <= j <= 96 -> limitPixels (sized wide j) = sized wide j.
Proof.
  intros Hj. destruct (grid j ltac:(lia)) as (_ & _ & _ & G).
  destruct (G ltac:(lia)) as (_ & G1 & G2 & _).
  unfold limitPixels, sized. destruct wide; [now rewrite G1|now rewrite G2].
Qed.

Lemma fitDimensions_sized width height :
  finitePos width -> finitePos height ->
  exists j,
    64 <= j <= 96
    /\ fitToAspect width height = sized (ge (div width height) (ofZ 1)) j
    /\ fitDimensions width height = sized (ge (div width height) (ofZ 1)) j.
Proof.
  intros Hw Hh.
  destruct (fitToAspect_short_side width height Hw Hh) as (j & Hj & E).
  exists j. split; [exact Hj|]. split; [exact E|].
  rewrite halves, E. apply limitPixels_sized, Hj.
Qed.

(** A ratio of at most 1 that counts as wide is 1: the size is the square. *)
Lemma square_when_ratio_is_one width height j :
  finitePos width -> finitePos height ->
  (valueOf width <= valueOf height)%R ->
  64 <= j <= 96 ->
  fitToAspect width height = sized true j ->
  ge (div width height) (ofZ 1) = true ->
  sized true j = (ofZ 512, ofZ 512).
Proof.
  intros Hw Hh Hle Hj E Hge.
  constant 1. constant 512. constant 516.
  assert (R : atMost (div width height) 1).
  { rewrite <- V.
    apply (div_atMost width height (valueOf width) (valueOf height) (ofZ 1));
      try assumption.
    - split; [right; exact Hw|lra].
    - right. split; [exact Hh|lra].
    - apply finitePos_pos, Hh.
    - rewrite V. lra. }
  assert (B : atMost (mul (ofZ 512) (div width height)) 516).
  { rewrite <- V1.
    apply (mul_atMost (ofZ 512) (div width height) 512 1 (ofZ 516));
      try assumption; try lra;
      try (split; [right; assumption|lra]). }
  destruct (floor8_atMost_516 _ B) as (k & Hk & Ek).
  unfold fitToAspect in E. rewrite Hge in E.
  replace (Math_max minDimension (floor8 minDimension)) with (ofZ 512) in E
    by (vm_compute; reflexivity).
  rewrite Ek in E.
  destruct (grid k ltac:(lia)) as (_ & Lk & Gk & _).
  rewrite Gk in E. unfold sized in E.
  assert (E' : ofZ (8 * k) = ofZ (8 * j)) by congruence.
  destruct (grid j ltac:(lia)) as (_ & Lj & _).
  rewrite <- E', Lk in Lj.
  assert (k = 64).
  { destruct (Z.ltb_spec k 64); destruct (Z.ltb_spec j 64); try lia;
      discriminate. }
  subst k. unfold sized. rewrite <- E'. reflexivity.
Qed.

(** X26.  The size computation puts the shorter side at 512 and keeps the
    orientation: for a picture at least as wide as high the height is 512
    and the width a multiple of 8 between 512 and 768; for a picture at
    least as high as wide it is the other way round; a square picture gives
    512 x 512. *)
Theorem shorter_side_is_512 width height :
  valid_binary prec emax width = true -> isFinite width = true ->
  valid_binary prec emax height = true -> isFinite height = true ->
  gt width (ofZ 0) = true -> gt height (ofZ 0) = true ->
  (le height width = true ->
   exists j, 64 <= j <= 96
             /\ fitDimensions width height = (ofZ (8 * j), ofZ 512))
  /\ (le width height = true ->
      exists j, 64 <= j <= 96
                /\ fitDimensions width height = (ofZ 512, ofZ (8 * j))).
Proof.
  intros Vw Fw Vh Fh Pw Ph.
  pose proof (positive_finitePos width Vw Fw Pw) as Hw.
  pose proof (positive_finitePos height Vh Fh Ph) as Hh.
  destruct (fitDimensions_sized width height Hw Hh) as (j & Hj & Ea & E).
  constant 1.
  pose proof (ge_cases (div width height) (ofZ 1) (div_class _ _ Hw Hh) F) as Hr.
  rewrite V in Hr.
  split; intros Hle; apply (SFleb_finite _ _ ) in Hle; try assumption.
  - destruct (ge (div width height) (ofZ 1)) eqn:Hge.
    + exists j. split; [exact Hj|exact E].
    + (* the ratio is at least 1, so it counts as wide *)
      exfalso.
      assert (A : atLeast (div width height) (valueOf (ofZ 1))).
      { apply (div_atLeast width height (valueOf width) (valueOf height) (ofZ 1));
          try assumption.
        - right. split; [exact Hw|lra].
        - split; [right; exact Hh|lra].
        - apply finitePos_pos, Hw.
        - rewrite V. lra. }
      assert (G : ge (div width height) (ofZ 1) = true).
      { unfold ge. destruct A as [->|[Hf Hv]]; [reflexivity|].
        apply SFleb_finite; assumption. }
      congruence.
  - destruct (ge (div width height) (ofZ 1)) eqn:Hge.
    + exists 64. split; [lia|]. rewrite E.
      apply (square_when_ratio_is_one width height j); assumption.
    + exists j. split; [exact Hj|exact E].
Qed.

(** X27.  The pixel budget of 589824 is never reached: for every finite
    width and height greater than zero the two sides fitted to the aspect
    ratio already multiply to at most 768 x 512, so that the rescaling of
    lines 606-632 leaves them as they are. *)
Theorem pixel_budget_never_applies width height :
  valid_binary prec emax width = true -> isFinite width = true ->
  valid_binary prec emax height = true -> isFinite height = true ->
  gt width (ofZ 0) = true -> gt height (ofZ 0) = true ->
  let '(outputWidth, outputHeight) := fitToAspect width height in
  gt (mul outputWidth outputHeight) pixelLimit = false
  /\ limitPixels (outputWidth, outputHeight) = (outputWidth, outputHeight)
  /\ fitDimensions width height = (outputWidth, outputHeight).
Proof.
  intros Vw Fw Vh Fh Pw Ph.
  pose proof (positive_finitePos width Vw Fw Pw) as Hw.
  pose proof (positive_finitePos height Vh Fh Ph) as Hh.
  destruct (fitDimensions_sized width height Hw Hh) as (j & Hj & Ea & E).
  rewrite E, Ea.
  pose proof (limitPixels_sized (ge (div width height) (ofZ 1)) j Hj) as L.
  destruct (grid j ltac:(lia)) as (_ & _ & _ & G).
  destruct (G ltac:(lia)) as (_ & G1 & G2 & _).
  unfold sized in *. destruct (ge (div width height) (ofZ 1)); auto.
Qed.

(** X28.  Whatever [dimensions] the caller passes to
    [processWithImageToImageAndStyle] ([null], zero, negative or positive
    finite numbers), the size sent with the request has two sides that are
    multiples of 8 between 512 and 768, one of them 512. *)
Theorem styleOutputSize_within_limits dimensions :
  (forall width height,
     dimensions = Some (width, height) ->
     valid_binary prec emax width = true /\ isFinite width = true
     /\ valid_binary prec emax height = true /\ isFinite height = true) ->
  exists a b,
    styleOutputSize dimensions = (ofZ (8 * a), ofZ (8 * b))
    /\ 64 <= a <= 96 /\ 64 <= b <= 96 /\ (a = 64 \/ b = 64).
Proof.
  intros H. unfold styleOutputSize.
  destruct dimensions as [[width height]|];
    [|exists 64, 64; repeat split; auto; lia].
  destruct (H width height eq_refl) as (Vw & Fw & Vh & Fh).
  destruct (gt width (ofZ 0)) eqn:Pw;
    [|exists 64, 64; repeat split; auto; lia].
  destruct (gt height (ofZ 0)) eqn:Ph;
    [|exists 64, 64; repeat split; auto; lia].
  cbn [andb].
  pose proof (positive_finitePos width Vw Fw Pw) as Hw.
  pose proof (positive_finitePos height Vh Fh Ph) as Hh.
  destruct (fitDimensions_sized width height Hw Hh) as (j & Hj & _ & E).
  rewrite E. unfold sized.
  destruct (ge (div width height) (ofZ 1)).
  - exists j, 64. repeat split; auto; lia.
  - exists 64, j. repeat split; auto; lia.
Qed.

End ShortSide.

(* ================================================================= *)
(** ** Arithmetic that stays clear of NaN *)

Section NoNaN.

Import Proper.

Lemma round_aux_opp m e l :
  binary_round_aux prec emax true m e l
  = SFopp (binary_round_aux prec emax false m e l).
Proof.
  unfold binary_round_aux.
  destruct (shr_fexp prec emax m e l) as [r e1].
  destruct (shr_fexp prec emax _ e1 loc_Exact) as [r2 e2].
  destruct (shr_m r2); [reflexivity| |reflexivity].
  destruct (IntDef.Z.leb e2 (IntDef.Z.sub emax prec)); reflexivity.
Qed.

Lemma proper_opp x : proper x -> proper (SFopp x).
Proof. destruct x; intros [H V]; split; auto. Qed.

Lemma proper_finitePos x : finitePos x -> proper x.
Proof. intros (m & e & -> & H). split; [reflexivity|exact H]. Qed.

Lemma proper_class x :
  zeroOrPos x \/ x = S754_infinity false -> proper x.
Proof.
  intros [[->|H]| ->]; [split; reflexivity|now apply proper_finitePos|].
  split; reflexivity.
Qed.

Lemma proper_round s m e l y :
  0 <= m -> located m l y -> e <= fexp64 (Zdigits2 m + e) ->
  proper (binary_round_aux prec emax s m e l).
Proof.
  intros Hm Hl He.
  pose proof (proper_class _ (round_class m e l y Hm Hl He)) as P.
  destruct s; [|exact P]. rewrite round_aux_opp. now apply proper_opp.
Qed.

Lemma proper_bounded s m e :
  proper (S754_finite s m e) -> bounded prec emax m e = true.
Proof. now intros [_ V]. Qed.

Lemma proper_mul x y :
  proper x -> proper y -> isFinite y = true -> truthy y = true ->
  proper (mul x y).
Proof.
  destruct x as [sx|sx| |sx mx ex], y as [sy|sy| |sy my ey];
    intros Px Py Fy Ty; try discriminate;
    try (destruct Px; discriminate); try (split; reflexivity).
  unfold mul. cbn [SFmul].
  apply (proper_round _ _ _ _ (IZR (Zpos (mx * my)))); [lia|reflexivity|].
  apply mul_exponent_ok; eapply proper_bounded; eassumption.
Qed.

Lemma proper_div x y :
  proper x -> proper y -> isFinite y = true -> truthy y = true ->
  proper (div x y).
Proof.
  destruct x as [sx|sx| |sx mx ex], y as [sy|sy| |sy my ey];
    intros Px Py Fy Ty; try discriminate;
    try (destruct Px; discriminate); try (split; reflexivity).
  unfold div. cbn [SFdiv].
  destruct (div_core_spec (Zpos mx) ex (Zpos my) ey)
    as (q & e' & l & yq & -> & Hq & Hl & _ & He); try lia.
  apply (proper_round _ _ _ _ yq); assumption.
Qed.

Lemma round_opp p e :
  binary_round prec emax true p e = SFopp (binary_round prec emax false p e).
Proof.
  unfold binary_round.
  destruct (shl_align p e _) as [mz ez]. apply round_aux_opp.
Qed.

Lemma proper_normalize z e : proper (binary_normalize prec emax z e false).
Proof.
  destruct z as [|p|p]; cbn [binary_normalize].
  - split; reflexivity.
  - destruct (binary_round_spec p e) as (mz & ez & -> & _ & He).
    apply (proper_round _ _ _ _ (IZR (Zpos mz))); [lia|reflexivity|exact He].
  - rewrite round_opp. apply proper_opp.
    destruct (binary_round_spec p e) as (mz & ez & -> & _ & He).
    apply (proper_round _ _ _ _ (IZR (Zpos mz))); [lia|reflexivity|exact He].
Qed.

Lemma proper_ofZ z : proper (ofZ z).
Proof. apply proper_normalize. Qed.

Lemma proper_sub x y :
  proper x -> proper y -> isFinite y = true -> proper (sub x y).
Proof.
  destruct x as [sx|sx| |sx mx ex], y as [sy|sy| |sy my ey];
    intros Px Py Fy; try discriminate;
    try (destruct Px; discriminate);
    unfold sub; cbn [SFsub]; try assumption;
    first [ apply proper_normalize
          | split; [reflexivity|exact (proj2 Py)]
          | destruct sx, sy; split; reflexivity ].
Qed.

Lemma proper_add x y :
  proper x -> proper y -> isFinite x = true -> proper (add x y).
Proof.
  destruct x as [sx|sx| |sx mx ex], y as [sy|sy| |sy my ey];
    intros Px Py Fx; try discriminate;
    try (destruct Py; discriminate);
    unfold add; cbn [SFadd]; try assumption;
    first [ apply proper_normalize
          | destruct sx, sy; split; reflexivity ].
Qed.

Lemma proper_Math_round x : proper x -> proper (Math_round x).
Proof.
  destruct x as [s|s| |s m e]; intros P; try exact P.
  cbn [Math_round]. destruct (0 <=? e); [exact P|].
  destruct (_ && _); [split; reflexivity|apply proper_ofZ].
Qed.

Lemma proper_ratio s n d : proper (ratio s n d).
Proof.
  unfold ratio.
  destruct (div_core_spec (Zpos n) 0 (Zpos d) 0)
    as (q & e' & l & yq & -> & Hq & Hl & _ & He); try lia.
  apply (proper_round _ _ _ _ yq); assumption.
Qed.

Lemma proper_toFixed2 x : proper x -> proper (Number_toFixed2 x).
Proof.
  destruct x as [s|s| |s m e]; intros P; try exact P.
  cbn [Number_toFixed2]. destruct (0 <=? e).
  - destruct (_ <=? _); [exact P|apply proper_ratio].
  - destruct (_ / _) as [|n|n]; try (split; reflexivity).
    destruct (_ <=? _); [exact P|apply proper_ratio].
Qed.

Lemma SFcompare_antisym x y :
  SFcompare y x = option_map CompOpp (SFcompare x y).
Proof.
  destruct x as [sx|sx| |sx mx ex], y as [sy|sy| |sy my ey];
    cbn [SFcompare option_map];
    try reflexivity;
    try (destruct sx; reflexivity); try (destruct sy; reflexivity);
    try (destruct sx, sy; reflexivity).
  stdZ. change (@PosDef.Pos.compare_cont) with (@Pos.compare_cont).
  assert (P : Pos.compare_cont Eq my mx = CompOpp (Pos.compare_cont Eq mx my))
    by (symmetry; exact (Pos.compare_cont_antisym mx my Eq)).
  rewrite (Z.compare_antisym ex ey), P.
  destruct sx, sy, (ex ?= ey), (Pos.compare_cont Eq mx my); reflexivity.
Qed.

Lemma le_refl_finitePos x : finitePos x -> le x x = true.
Proof. intros H. apply (SFleb_finite x x H H). lra. Qed.

(** [Math.max(lo, Math.min(hi, x))] lies between [lo] and [hi] for every
    [x] that is not NaN. *)
Lemma clamp_in_range lo hi x :
  finitePos lo -> finitePos hi -> le lo hi = true -> isNumber x = true ->
  le lo (Math_max lo (Math_min hi x)) = true
  /\ le (Math_max lo (Math_min hi x)) hi = true.
Proof.
  intros Hlo Hhi Hle Hx.
  assert (T : Math_min hi x = hi
              \/ (Math_min hi x = x /\ SFcompare x hi = Some Lt)).
  { unfold Math_min. rewrite (SFcompare_antisym hi x).
    destruct Hhi as (m & e & -> & _).
    destruct (SFcompare (S754_finite false m e) x) as [[| |]|] eqn:C;
      cbn; auto.
    destruct x; discriminate. }
  assert (Ht : le (Math_min hi x) hi = true /\ isNumber (Math_min hi x) = true).
  { destruct T as [->|[-> C]].
    - split; [now apply le_refl_finitePos|].
      destruct Hhi as (m & e & -> & _). reflexivity.
    - split; [unfold le, SFleb; now rewrite C|exact Hx]. }
  destruct Ht as [Ht Nt]. set (t := Math_min hi x) in *.
  assert (R : le lo lo = true) by now apply le_refl_finitePos.
  unfold Math_max. destruct Hlo as (m & e & E & B).
  destruct (SFcompare lo t) as [[| |]|] eqn:C.
  - replace (match lo with S754_zero true => t | _ => lo end) with lo
      by (subst lo; reflexivity).
    auto.
  - split; [unfold le, SFleb; now rewrite C|exact Ht].
  - auto.
  - subst lo. destruct t; discriminate.
Qed.

End NoNaN.

(* ================================================================= *)
(** ** Weights outside the range *)

Section AnyWeight.

Import Elements Proper.

Lemma normalizedWeight_is_number isLeonardoProcess weight :
  proper weight ->
  let minWeight := modeMinWeight isLeonardoProcess in
  isNumber
    (normalizedWeight minWeight (ofZ 2)
       (Math_round (div (sub weight minWeight) (stepSize minWeight (ofZ 2)))))
  = true.
Proof.
  intros Pw minWeight.
  assert (Pm : proper minWeight /\ isFinite minWeight = true)
    by (destruct isLeonardoProcess; repeat split; reflexivity).
  assert (Ps : proper (stepSize minWeight (ofZ 2))
               /\ isFinite (stepSize minWeight (ofZ 2)) = true
               /\ truthy (stepSize minWeight (ofZ 2)) = true)
    by (destruct isLeonardoProcess; repeat split; vm_compute; reflexivity).
  destruct Pm as [Pm Fm]. destruct Ps as (Ps & Fs & Ts).
  unfold normalizedWeight.
  apply proper_toFixed2, proper_add; [exact Pm| |exact Fm].
  apply proper_mul; [|exact Ps|exact Fs|exact Ts].
  apply proper_Math_round, proper_div; [|exact Ps|exact Fs|exact Ts].
  apply proper_sub; assumption.
Qed.

(** X29.  The weight [safelyAddElements] pushes for the style element is
    within the range for every weight that is a number, also for one that
    lies outside the range or is infinite.  Only NaN gets through, as
    NaN. *)
Theorem safeWeight_stays_in_range ids isLeonardoProcess element weight :
  In element (getAvailableElements ids) ->
  valid_binary prec emax weight = true ->
  (isNumber weight = true ->
   le (modeMinWeight isLeonardoProcess)
      (safeWeight isLeonardoProcess element weight) = true
   /\ le (safeWeight isLeonardoProcess element weight)
         (elementMaxWeight element) = true)
  /\ (isNumber weight = false ->
      safeWeight isLeonardoProcess element weight = S754_nan).
Proof.
  intros Hin Vw. unfold safeWeight.
  rewrite (cute_emotes_maximum ids element Hin). split.
  - intros Nw.
    apply clamp_in_range.
    + destruct isLeonardoProcess;
        [value_of (ratio false 3 4)|value_of (ratio false 1 2)]; assumption.
    + constant 2. exact F.
    + destruct isLeonardoProcess; reflexivity.
    + apply normalizedWeight_is_number. split; assumption.
  - destruct weight; try discriminate. intros _.
    destruct isLeonardoProcess; vm_compute; reflexivity.
Qed.

End AnyWeight.

(* ================================================================= *)
(** ** Sizes with a sign *)

Section SignedSizes.

Import Dimensions Negative.

Lemma notNegative_finitePos x : finitePos x -> notNegative x.
Proof. intros H. left. right. exact H. Qed.

Lemma notNegative_round m e l y :
  0 <= m -> located m l y -> e <= fexp64 (Zdigits2 m + e) ->
  notNegative (binary_round_aux prec emax false m e l).
Proof. apply round_class. Qed.

Lemma div_notNegative_finitePos a b :
  notNegative a -> finitePos b ->
  notNegative (div a b) /\ div (SFopp a) b = SFopp (div a b).
Proof.
  intros [[->|(ma & ea & -> & Ha)]| ->] (mb & eb & -> & Hb); split;
    first [ reflexivity
          | left; left; reflexivity
          | right; reflexivity
          | apply div_class; [exists ma, ea|exists mb, eb]; auto
          | idtac ].
  unfold div. cbn [SFopp SFdiv negb xorb].
  destruct (SFdiv_core_binary prec emax (Zpos ma) ea (Zpos mb) eb)
    as [[q e'] l].
  apply round_aux_opp.
Qed.

Lemma div_finitePos_notNegative a b :
  finitePos a -> notNegative b ->
  notNegative (div a b) /\ div a (SFopp b) = SFopp (div a b).
Proof.
  intros (ma & ea & -> & Ha) [[->|(mb & eb & -> & Hb)]| ->]; split;
    first [ reflexivity
          | left; left; reflexivity
          | right; reflexivity
          | apply div_class; [exists ma, ea|exists mb, eb]; auto
          | idtac ].
  unfold div. cbn [SFopp SFdiv negb xorb].
  destruct (SFdiv_core_binary prec emax (Zpos ma) ea (Zpos mb) eb)
    as [[q e'] l].
  apply round_aux_opp.
Qed.

Lemma mul_notNegative_finitePos a b :
  notNegative a -> finitePos b ->
  notNegative (mul a b) /\ mul (SFopp a) b = SFopp (mul a b)
  /\ mul b (SFopp a) = SFopp (mul b a) /\ notNegative (mul b a).
Proof.
  intros [[->|(ma & ea & -> & Ha)]| ->] (mb & eb & -> & Hb).
  - repeat split; try reflexivity; left; left; reflexivity.
  - unfold mul. cbn [SFopp SFmul negb xorb].
    repeat split; try apply round_aux_opp.
    + apply (notNegative_round _ _ _ (IZR (Zpos (ma * mb))));
        [lia|reflexivity|now apply mul_exponent_ok].
    + apply (notNegative_round _ _ _ (IZR (Zpos (mb * ma))));
        [lia|reflexivity|now apply mul_exponent_ok].
  - repeat split; try reflexivity; right; reflexivity.
Qed.

Lemma notPositive_ofZ p : notPositive (ofZ (Zneg p)).
Proof.
  unfold ofZ. cbn [binary_normalize]. rewrite round_opp.
  eexists. split; [reflexivity|].
  destruct (binary_round_spec p 0) as (mz & ez & -> & _ & He).
  apply (notNegative_round _ _ _ (IZR (Zpos mz))); [lia|reflexivity|exact He].
Qed.

Lemma floor_notPositive x : notPositive x -> notPositive (Math_floor x).
Proof.
  intros (p & -> & [[->|(m & e & -> & H)]| ->]).
  - exists (S754_zero false). split; [reflexivity|left; left; reflexivity].
  - cbn [SFopp negb Math_floor signed].
    destruct (Z.leb_spec 0 e) as [L|L].
    + exists (S754_finite false m e). split; [reflexivity|].
      left; right. exists m, e. auto.
    + assert (P : 0 < 2 ^ (- e)) by (apply Z.pow_pos_nonneg; lia).
      assert (N : Z.neg m / 2 ^ (- e) < 0)
        by (apply Z.div_lt_upper_bound; lia).
      destruct (Z.neg m / 2 ^ (- e)) as [|q|q]; try lia.
      apply notPositive_ofZ.
  - exists (S754_infinity false). split; [reflexivity|right; reflexivity].
Qed.

Lemma floor8_notPositive x : notPositive x -> notPositive (floor8 x).
Proof.
  intros (p & -> & Hp). unfold floor8.
  assert (F8 : finitePos (ofZ 8)) by (constant 8; exact F).
  destruct (div_notNegative_finitePos p (ofZ 8) Hp F8) as [Hd ->].
  destruct (floor_notPositive (SFopp (div p (ofZ 8))))
    as (q & -> & Hq); [eexists; eauto|].
  destruct (mul_notNegative_finitePos q (ofZ 8) Hq F8) as (Hm & -> & _).
  eexists; eauto.
Qed.

Lemma notPositive_compare x b :
  notPositive x -> finitePos b ->
  gt x b = false /\ ge x b = false /\ le x (ofZ 0) = true.
Proof.
  intros (p & -> & [[->|(m & e & -> & H)]| ->]) (mb & eb & -> & Hb);
    repeat split; reflexivity.
Qed.

(** X30.  [processImageWithAdvancedFeatures] guards the size computation
    with the truthiness of the two numbers, which a negative number passes.
    For a negative width and a positive height (finite both) the request
    is sized 512 by a height that is zero or negative.
    [processWithImageToImageAndStyle], whose guard asks for numbers
    greater than zero, answers the same input with 512 x 512. *)
Theorem negative_width_passes_the_guard width height :
  valid_binary prec emax width = true -> isFinite width = true ->
  valid_binary prec emax height = true -> isFinite height = true ->
  lt width (ofZ 0) = true -> gt height (ofZ 0) = true ->
  (exists outputHeight,
     advancedOutputSize (Some width) (Some height) = (ofZ 512, outputHeight)
     /\ le outputHeight (ofZ 0) = true)
  /\ styleOutputSize (Some (width, height)) = (ofZ 512, ofZ 512).
Proof.
  intros Vw Fw Vh Fh Nw Ph.
  pose proof (positive_finitePos height Vh Fh Ph) as Hh.
  change (ofZ 0) with (S754_zero false) in Nw.
  destruct width as [sw|sw| |[|] mw ew]; try discriminate;
    try (destruct sw; discriminate).
  assert (Hw : finitePos (S754_finite false mw ew)) by (exists mw, ew; auto).
  split.
  - unfold advancedOutputSize.
    replace (truthy (S754_finite true mw ew) && truthy height) with true
      by (destruct Hh as (m & e & -> & _); reflexivity).
    change (S754_finite true mw ew) with (SFopp (S754_finite false mw ew)).
    set (a := S754_finite false mw ew) in *.
    destruct (div_notNegative_finitePos a height
                (notNegative_finitePos _ Hw) Hh) as [Hr Er].
    constant 1. constant 512. constant 768. constant 589824.
    unfold fitDimensions. rewrite Er.
    assert (R : notPositive (SFopp (div a height))) by (eexists; eauto).
    destruct (notPositive_compare _ (ofZ 1) R F) as (_ & -> & _).
    replace (Math_max minDimension (floor8 minDimension)) with (ofZ 512)
      by (vm_compute; reflexivity).
    destruct (div_finitePos_notNegative (ofZ 512) (div a height) F0 Hr)
      as [Hd ->].
    assert (Y : notPositive (floor8 (SFopp (div (ofZ 512) (div a height)))))
      by (apply floor8_notPositive; eexists; eauto).
    set (y := floor8 (SFopp (div (ofZ 512) (div a height)))) in *.
    destruct (notPositive_compare y maxDimension Y F1) as (-> & _ & Ly).
    destruct Y as (p & Ey & Hp).
    destruct (mul_notNegative_finitePos p (ofZ 512) Hp F0)
      as (_ & _ & Em & Hm).
    assert (P : notPositive (mul (ofZ 512) y))
      by (rewrite Ey, Em; eexists; eauto).
    destruct (notPositive_compare _ pixelLimit P F2) as (-> & _ & _).
    exists y. auto.
  - unfold styleOutputSize. cbn. reflexivity.
Qed.

End SignedSizes.

(* ================================================================= *)
(** ** Instances *)

(** Each of the general statements above that has a premise, at one
    concrete input. *)
Section Instances.

Import Http Polling Upload Scenario Attempt Blobs ElementUse DataUrl
       Text Markers Sizing Proper.
Local Open Scope string_scope.
Local Open Scope list_scope.

Lemma fetchWithRetry_returns_ok_only_witness :
  let w := initial (serving [refused 500] (answer 200 None) (XhrDone 204)) in
  fst (fetchWithRetry InitImageUrl 3 (ofZ 1000) w)
  = Normal {| http_status := 200; body := None |}
  /\ ok {| http_status := 200; body := None |} = true.
Proof.
  cbn zeta. split; [vm_compute; reflexivity|].
  apply (fetchWithRetry_returns_ok_only InitImageUrl 3 (ofZ 1000)
           (initial (serving [refused 500] (answer 200 None) (XhrDone 204)))
           {| http_status := 200; body := None |}
           (snd (fetchWithRetry InitImageUrl 3 (ofZ 1000)
                   (initial (serving [refused 500] (answer 200 None)
                               (XhrDone 204)))))).
  vm_compute. reflexivity.
Defined.

Lemma fetchWithRetry_throws_last_error_witness :
  let run := fetchWithRetry InitImageUrl 3 (ofZ 1000) (initial overloaded) in
  fst run = Throw (HttpStatusError 503)
  /\ requests (snd run) = [InitImageUrl; InitImageUrl; InitImageUrl]
  /\ timers (snd run) = [ofZ 1000; ofZ 1000].
Proof.
  apply (fetchWithRetry_throws_last_error InitImageUrl 3 (ofZ 1000)
           overloaded (fun _ => HttpStatusError 503) (initial overloaded)).
  - intros [|n]; reflexivity.
  - reflexivity.
  - lia.
Defined.

Lemma fetchWithRetry_rate_limited_throughout_witness :
  let run := fetchWithRetry GenerationsUrl 3 (ofZ 1000)
               (initial (serving [] (refused 429) (XhrDone 204))) in
  fst run = Throw MaxRetriesError
  /\ message MaxRetriesError = "Maximum retries reached"
  /\ requests (snd run) = [GenerationsUrl; GenerationsUrl; GenerationsUrl]
  /\ timers (snd run) = [ofZ 2000; ofZ 2000; ofZ 2000].
Proof.
  apply (fetchWithRetry_rate_limited_throughout GenerationsUrl 3 (ofZ 1000)
           (serving [] (refused 429) (XhrDone 204))
           (initial (serving [] (refused 429) (XhrDone 204)))).
  - intros [|n]; reflexivity.
  - reflexivity.
Defined.

Lemma waitForGenerationCompletion_failing_network_witness :
  let run := waitForGenerationCompletion "job" (pollOptions 2)
               (initial offline) in
  fst run = Normal None
  /\ requests (snd run) = repeat (GenerationUrl "job") 6
  /\ timers (snd run) = repeat (ofZ 1000) 4.
Proof.
  apply (waitForGenerationCompletion_failing_network "job" (pollOptions 2)
           offline (fun _ => Raised "Failed to fetch") (initial offline)).
  - intros [|n]; reflexivity.
  - reflexivity.
Defined.

Lemma uploadImage_unusable_data_witness :
  let run := uploadImage "not base64" (initial rejectingAtob) in
  fst run = Normal None /\ requests (snd run) = [] /\ uploads (snd run) = [].
Proof.
  apply (uploadImage_unusable_data "not base64" (initial rejectingAtob)).
  reflexivity.
Defined.

Lemma style_request_has_no_elements_witness :
  styleRequestElements Elements.defaultModelIds
    (Some [("01b6184e-3905-4dc7-9ec6-4f09982536d5", ofZ 1)])
  = {| Elements.modelId := "2067ae52-33fd-4a82-bb92-c2c55e7d2786";
       Elements.elements := None |}.
Proof.
  apply (style_request_has_no_elements Elements.defaultModelIds).
  discriminate.
Defined.

Lemma extractBase64FromDataUrl_payload_witness :
  extractBase64FromDataUrl "data:image/png;base64,aGVsbG8=" = "aGVsbG8=".
Proof.
  apply (extractBase64FromDataUrl_payload "data:image/png;base64" "aGVsbG8=");
    reflexivity.
Defined.

Lemma data_url_versions_agree_witness :
  stripDataUrlPrefix "data:image/svg+xml;base64,aGVsbG8=" = "aGVsbG8="
  /\ (hasComma "aGVsbG8=" = false ->
      extractBase64FromDataUrl "data:image/svg+xml;base64,aGVsbG8="
      = "aGVsbG8=").
Proof.
  apply (data_url_versions_agree "image/svg+xml" "aGVsbG8=");
    [discriminate|reflexivity].
Defined.

Lemma analyzed_image_is_labelled_jpeg_witness :
  analyzedImage "data:image/png;base64,aGVsbG8="
  = "data:image/jpeg;base64,aGVsbG8=".
Proof.
  apply (analyzed_image_is_labelled_jpeg "data:image/png;base64" "aGVsbG8=");
    reflexivity.
Defined.

Lemma complete_without_image_address_witness :
  let b := serving [] (generation COMPLETE []) (XhrDone 204) in
  (let run := AdvancedService.waitForGenerationCompletion "job" 3 (ofZ 2000)
                (initial b) in
   fst run = Normal (failed "生成任务超时")
   /\ requests (snd run) = repeat (GenerationUrl "job") 3 ++ [])
  /\ (let run := waitForGenerationResultUrl "job" (initial b) in
      fst run = Normal (failed "生成完成但未找到图像URL")
      /\ requests (snd run) = [GenerationUrl "job"]).
Proof.
  apply (complete_without_image_address "job"
           (serving [] (generation COMPLETE []) (XhrDone 204)) 3 (ofZ 2000)
           (initial (serving [] (generation COMPLETE []) (XhrDone 204)))).
  - intros [|n]; reflexivity.
  - reflexivity.
Defined.

Lemma advanced_wait_stops_at_first_error_witness :
  let run := AdvancedService.waitForGenerationCompletion "job" 30 (ofZ 2000)
               (initial dropsOnce) in
  fst run = Normal (failed "生成任务失败: error")
  /\ requests (snd run) = [GenerationUrl "job"]
  /\ timers (snd run) = [ofZ 2000].
Proof.
  apply (advanced_wait_stops_at_first_error "job" 29 (ofZ 2000)
           (initial dropsOnce)).
  reflexivity.
Defined.

Lemma tagged_description_is_separated_witness :
  separateChineseAndEnglishText
    (tagged (js "[chinese]") [20320; 22909; 10; 10] (js "[ENGLISH]")
       (js " Hello "))
  = {| chineseText := compress (trim [20320; 22909; 10; 10]);
       englishText := compress (trim (js " Hello ")) |}.
Proof.
  apply (tagged_description_is_separated (js "[chinese]")
           [20320; 22909; 10; 10] (js "[ENGLISH]") (js " Hello ")).
  - reflexivity.
  - reflexivity.
  - apply afterMarker_present. reflexivity.
  - left. vm_compute. discriminate.
Defined.

Lemma shorter_side_is_512_witness :
  (le (ofZ 1080) (ofZ 1920) = true ->
   exists j, 64 <= j <= 96
             /\ Dimensions.fitDimensions (ofZ 1920) (ofZ 1080)
                = (ofZ (8 * j), ofZ 512))
  /\ (le (ofZ 1920) (ofZ 1080) = true ->
      exists j, 64 <= j <= 96
                /\ Dimensions.fitDimensions (ofZ 1920) (ofZ 1080)
                   = (ofZ 512, ofZ (8 * j))).
Proof.
  apply (shorter_side_is_512 (ofZ 1920) (ofZ 1080)); vm_compute; reflexivity.
Defined.

Lemma pixel_budget_never_applies_witness :
  let '(outputWidth, outputHeight) := fitToAspect (ofZ 4000) (ofZ 3000) in
  gt (mul outputWidth outputHeight) Dimensions.pixelLimit = false
  /\ limitPixels (outputWidth, outputHeight) = (outputWidth, outputHeight)
  /\ Dimensions.fitDimensions (ofZ 4000) (ofZ 3000)
     = (outputWidth, outputHeight).
Proof.
  apply (pixel_budget_never_applies (ofZ 4000) (ofZ 3000));
    vm_compute; reflexivity.
Defined.

Lemma styleOutputSize_within_limits_witness :
  exists a b,
    Dimensions.styleOutputSize (Some (ofZ (-640), ofZ 480))
    = (ofZ (8 * a), ofZ (8 * b))
    /\ 64 <= a <= 96 /\ 64 <= b <= 96 /\ (a = 64 \/ b = 64).
Proof.
  apply (styleOutputSize_within_limits (Some (ofZ (-640), ofZ 480))).
  intros width height [= <- <-]. vm_compute. auto.
Defined.

Lemma safeWeight_stays_in_range_witness :
  let element := Elements.cuteEmotes Elements.defaultModelIds in
  (isNumber (ofZ 7) = true ->
   le (Elements.modeMinWeight true) (Elements.safeWeight true element (ofZ 7))
   = true
   /\ le (Elements.safeWeight true element (ofZ 7))
         (Elements.elementMaxWeight element) = true)
  /\ (isNumber (ofZ 7) = false ->
      Elements.safeWeight true element (ofZ 7) = S754_nan).
Proof.
  apply (safeWeight_stays_in_range Elements.defaultModelIds true
           (Elements.cuteEmotes Elements.defaultModelIds) (ofZ 7)).
  - left. reflexivity.
  - reflexivity.
Defined.

Lemma negative_width_passes_the_guard_witness :
  (exists outputHeight,
     Dimensions.advancedOutputSize (Some (ofZ (-100))) (Some (ofZ 100))
     = (ofZ 512, outputHeight)
     /\ le outputHeight (ofZ 0) = true)
  /\ Dimensions.styleOutputSize (Some (ofZ (-100), ofZ 100))
     = (ofZ 512, ofZ 512).
Proof.
  apply (negative_width_passes_the_guard (ofZ (-100)) (ofZ 100));
    reflexivity.
Defined.

End Instances.
